(** * Chat-RAG-Local: retrieval and generation pipeline

    A shallow embedding of the segmenter ([services/chunking]), the vector
    index ([services/vectorStore.js]) and the streaming orchestrator
    ([services/ragService]) together with the properties stated for them,
    followed by the page metadata ([services/pdfProcessor]), the ingestion
    pipeline ([services/documentProcessor.js]) and the routes of
    [server.js] that call them.

    JavaScript numbers that hold scores and vector components are IEEE 754
    binary64 values and are modelled by Rocq's primitive floats, which
    implement the same format and rounding.  Sizes, counts and indices are
    integers ([Z] or [nat]).  Text is a list of UTF-16 code units. *)

From Stdlib Require Import Ascii String.
From Stdlib Require Import List Bool Arith ZArith Lia Floats.
From Stdlib Require Import Permutation Sorted.
From Stdlib Require DecimalString DecimalNat OrderedTypeEx.
Import ListNotations.

(* ================================================================== *)
(** * JavaScript string primitives *)
(* ================================================================== *)

Module Js.

(** A string is the list of its UTF-16 code units; [length] is JS
    [.length]. *)
Definition char := N.

Definition str := list char.

(** The string of an ASCII literal. *)
Definition lit (s : string) : str := map N_of_ascii (list_ascii_of_string s).

Definition SP : char := 32%N.
Definition NL : char := 10%N.

(** The class [\s], which is also what [trim] removes: TAB, LF, VT, FF,
    CR, SPACE, NBSP, U+1680, U+2000 to U+200A, U+2028, U+2029, U+202F,
    U+205F, U+3000 and U+FEFF. *)
Definition is_space (c : char) : bool :=
  (((9 <=? c) && (c <=? 13)) || (c =? 32) || (c =? 160) || (c =? 5760)
   || ((8192 <=? c) && (c <=? 8202)) || (c =? 8232) || (c =? 8233)
   || (c =? 8239) || (c =? 8287) || (c =? 12288) || (c =? 65279))%N.

Definition is_nl (c : char) : bool := (c =? 10)%N.

(** The class [[.!?]]. *)
Definition is_punct (c : char) : bool :=
  ((c =? 46) || (c =? 33) || (c =? 63))%N.

Definition not_punct (c : char) : bool := negb (is_punct c).

Fixpoint take_while (p : char -> bool) (s : str) : str :=
  match s with
  | [] => []
  | c :: s' => if p c then c :: take_while p s' else []
  end.

Fixpoint drop_while (p : char -> bool) (s : str) : str :=
  match s with
  | [] => []
  | c :: s' => if p c then drop_while p s' else s
  end.

(** [s.replace(/C+/g, r)]: every maximal run of characters of class [p]
    becomes the single character [r].  [in_run] tells whether the previous
    character already belonged to the run being replaced. *)
Fixpoint replace_runs (p : char -> bool) (r : char) (in_run : bool) (s : str) : str :=
  match s with
  | [] => []
  | c :: s' =>
      if p c
      then (if in_run then replace_runs p r true s' else r :: replace_runs p r true s')
      else c :: replace_runs p r false s'
  end.

(** [s.trim()] *)
Definition trim (s : str) : str :=
  rev (drop_while is_space (rev (drop_while is_space s))).

(** [parts.join(' ')] *)
Fixpoint join (parts : list str) : str :=
  match parts with
  | [] => []
  | [p] => p
  | p :: rest => p ++ SP :: join rest
  end.

(** [s.split(/\s+/)]: the pieces between maximal whitespace runs.  The
    result is never empty; a leading or trailing run yields an empty first
    or last piece.  The head of the result is the piece being read. *)
Fixpoint split_ws (in_run : bool) (s : str) : list str :=
  match s with
  | [] => [[]]
  | c :: s' =>
      if is_space c
      then (if in_run then split_ws true s' else [] :: split_ws true s')
      else match split_ws false s' with
           | w :: ws => (c :: w) :: ws
           | [] => [[c]]
           end
  end.

(** One attempt of [/[^.!?]+[.!?]+(?:\s+|$)/] at the start of [s]; the
    answer is the length of the match.  Both classes are disjoint and the
    quantifiers greedy, so the only split that can succeed takes the whole
    run of non-punctuation, then the whole run of punctuation; what follows
    must be a whitespace run (taken entirely) or the end of the input. *)
Definition sentence_match_at (s : str) : option nat :=
  let body := take_while not_punct s in
  let s1 := drop_while not_punct s in
  let marks := take_while is_punct s1 in
  let s2 := drop_while is_punct s1 in
  match body, marks with
  | [], _ => None
  | _, [] => None
  | _, _ =>
      match s2 with
      | [] => Some (length body + length marks)
      | c :: _ =>
          if is_space c
          then Some (length body + length marks + length (take_while is_space s2))
          else None
      end
  end.

(** [s.match(/[^.!?]+[.!?]+(?:\s+|$)/g) || []]: the successive leftmost
    matches.  After a match the search resumes at its end ([lastIndex]); a
    failed attempt moves the start one character on.  Every round consumes
    a character, so [length s] rounds of fuel are enough. *)
Fixpoint match_sentences_from (fuel : nat) (s : str) : list str :=
  match fuel with
  | 0 => []
  | S fuel' =>
      match s with
      | [] => []
      | _ :: s' =>
          match sentence_match_at s with
          | Some n => firstn n s :: match_sentences_from fuel' (skipn n s)
          | None => match_sentences_from fuel' s'
          end
      end
  end.

Definition match_sentences (s : str) : list str :=
  match_sentences_from (length s) s.

(** [arr.slice(start)] for an integer [start] (negative counts from the
    end). *)
Definition slice_from {A} (start : Z) (l : list A) : list A :=
  let len := Z.of_nat (length l) in
  let k := if (start <? 0)%Z then Z.max (len + start) 0 else Z.min start len in
  skipn (Z.to_nat k) l.

(** [arr.slice(0, stop)] for an integer [stop]. *)
Definition slice_to {A} (stop : Z) (l : list A) : list A :=
  let len := Z.of_nat (length l) in
  let k := if (stop <? 0)%Z then Z.max (len + stop) 0 else Z.min stop len in
  firstn (Z.to_nat k) l.

(** [Array.prototype.sort(comparefn)].  The sort is stable and an element
    moves in front of an earlier one only when [comparefn] of the earlier
    and the later one is positive; a [NaN] answer counts as [+0]. *)
Fixpoint sort_insert {A} (comparefn : A -> A -> float) (x : A) (l : list A) : list A :=
  match l with
  | [] => [x]
  | y :: l' =>
      if (0 <? comparefn x y)%float then y :: sort_insert comparefn x l' else x :: l
  end.

Definition sort {A} (comparefn : A -> A -> float) (l : list A) : list A :=
  fold_right (sort_insert comparefn) [] l.

(** Reading [a[i]] where a number is expected: a missing element is
    [undefined], which arithmetic turns into [NaN]. *)
Definition num_at (a : list float) (i : nat) : float := nth i a nan.

(** [s.slice(start, stop)] for integer indices; each negative index
    counts from the end, and nothing is taken when the resolved [stop] is
    not after the resolved [start]. *)
Definition slice {A} (start stop : Z) (l : list A) : list A :=
  let len := Z.of_nat (length l) in
  let from := if (start <? 0)%Z then Z.max (len + start) 0 else Z.min start len in
  let to := if (stop <? 0)%Z then Z.max (len + stop) 0 else Z.min stop len in
  firstn (Z.to_nat (to - from)) (skipn (Z.to_nat from) l).

(** [s === t] on strings. *)
Fixpoint str_eqb (s t : str) : bool :=
  match s, t with
  | [], [] => true
  | c :: s', d :: t' => (c =? d)%N && str_eqb s' t'
  | _, _ => false
  end.

(** [s.endsWith(t)] *)
Definition endsWith (s t : str) : bool :=
  (length t <=? length s) && str_eqb (skipn (length s - length t) s) t.

End Js.

(* ================================================================== *)
(** * The segmenter ([services/chunking]) *)
(* ================================================================== *)

Module Chunking.
Import Js.

Local Open Scope Z_scope.

Definition len (s : str) : Z := Z.of_nat (length s).

(** [splitLongSentenceByWords]: one round of the loop over the words. *)
Definition word_step (maxChunkSize : Z) (st : list str * str) (word : str)
  : list str * str :=
  let '(subChunks, currentSubChunk) := st in
  let testChunk :=
    match currentSubChunk with
    | [] => word
    | _ => currentSubChunk ++ SP :: word
    end in
  if (maxChunkSize <? len testChunk) && negb (length currentSubChunk =? 0)%nat
  then (subChunks ++ [trim currentSubChunk], word)
  else (subChunks, testChunk).

Definition splitLongSentenceByWords (sentence : str) (maxChunkSize : Z) : list str :=
  let words := split_ws false sentence in
  let '(subChunks, currentSubChunk) :=
    fold_left (word_step maxChunkSize) words ([], []) in
  if 0 <? len (trim currentSubChunk)
  then subChunks ++ [trim currentSubChunk]
  else subChunks.

(** The variables of the grouping loop. *)
Record loop_state := {
  chunks : list str;
  currentChunk : list str;
  currentSize : Z
}.

Definition total_length (l : list str) : Z :=
  fold_left (fun sum s => sum + len s) l 0.

(** One round of the loop of [splitIntoSemanticChunks] over the sentences. *)
Definition chunk_step (maxChunkSize overlapSentences : Z)
  (st : loop_state) (sentence : str) : loop_state :=
  let sentenceSize := len sentence in
  if maxChunkSize <? sentenceSize then
    let st1 :=
      if (0 <? length (currentChunk st))%nat
      then {| chunks := chunks st ++ [join (currentChunk st)];
              currentChunk := []; currentSize := 0 |}
      else st in
    {| chunks := chunks st1 ++ splitLongSentenceByWords sentence maxChunkSize;
       currentChunk := currentChunk st1;
       currentSize := currentSize st1 |}
  else
    let wouldExceed := maxChunkSize <? currentSize st + sentenceSize in
    let st1 :=
      if wouldExceed && (0 <? length (currentChunk st))%nat then
        let chunks1 := chunks st ++ [join (currentChunk st)] in
        if (0 <? overlapSentences) && (overlapSentences <? Z.of_nat (length (currentChunk st)))
        then
          let kept := slice_from (- overlapSentences) (currentChunk st) in
          {| chunks := chunks1; currentChunk := kept; currentSize := total_length kept |}
        else {| chunks := chunks1; currentChunk := []; currentSize := 0 |}
      else st in
    {| chunks := chunks st1;
       currentChunk := currentChunk st1 ++ [sentence];
       currentSize := currentSize st1 + sentenceSize |}.

(** Step 1: whitespace normalisation. *)
Definition normalize (text : str) : str :=
  trim (replace_runs is_nl NL false (replace_runs is_space SP false text)).

(** Step 2: the sentence units of a normalised text. *)
Definition sentence_units (text : str) : list str :=
  let sentences := match_sentences text in
  let sentences := if (length sentences =? 0)%nat then [text] else sentences in
  filter (fun s => (0 <? length s)%nat) (map trim sentences).

(** Step 3: grouping of the units, up to the final push. *)
Definition group_units (sentences : list str) (maxChunkSize overlapSentences : Z)
  : list str :=
  let st := fold_left (chunk_step maxChunkSize overlapSentences) sentences
              {| chunks := []; currentChunk := []; currentSize := 0 |} in
  if (0 <? length (currentChunk st))%nat
  then chunks st ++ [join (currentChunk st)]
  else chunks st.

(** Step 4: the length floor. *)
Definition MIN_CHUNK_LENGTH : nat := 20.

Definition postprocess (chunks : list str) : list str :=
  filter (fun chunk => (MIN_CHUNK_LENGTH <? length chunk)%nat) (map trim chunks).

Definition splitIntoSemanticChunks (text : str) (maxChunkSize overlapSentences : Z)
  : list str :=
  let text := normalize text in
  if (length text =? 0)%nat then []
  else postprocess (group_units (sentence_units text) maxChunkSize overlapSentences).

(** The fragments assembled by steps 1 to 3, before the length floor. *)
Definition assembledChunks (text : str) (maxChunkSize overlapSentences : Z)
  : list str :=
  let text := normalize text in
  if (length text =? 0)%nat then []
  else group_units (sentence_units text) maxChunkSize overlapSentences.

(** [splitIntoFixedChunks]: the [for] loop from the value [i] of its
    counter, with the chunks pushed so far.  Each unit of [fuel] pays for
    one test of the loop condition; [None] means that the loop is still
    running when the fuel is spent. *)
Fixpoint fixed_loop (fuel : nat) (text : str) (chunkSize overlap : Z)
  (i : Z) (chunks : list str) : option (list str) :=
  match fuel with
  | O => None
  | S fuel' =>
      if i <? len text
      then fixed_loop fuel' text chunkSize overlap (i + (chunkSize - overlap))
             (chunks ++ [slice i (i + chunkSize) text])
      else Some chunks
  end.

Definition splitIntoFixedChunks (fuel : nat) (text : str) (chunkSize overlap : Z)
  : option (list str) :=
  fixed_loop fuel text chunkSize overlap 0 [].

(** The answer of [getChunkStatistics]; the field [sizes] is absent from
    the answer for no chunks. *)
Record statistics := {
  count : Z;
  avgSize : Z;
  minSize : Z;
  maxSize : Z;
  totalChars : Z;
  sizes : option (list Z)
}.

(** [Math.min(...sizes)] and [Math.max(...sizes)] on a list that is not
    empty. *)
Definition min_of (sizes : list Z) : Z :=
  match sizes with
  | [] => 0
  | s :: rest => fold_left Z.min rest s
  end.

Definition max_of (sizes : list Z) : Z :=
  match sizes with
  | [] => 0
  | s :: rest => fold_left Z.max rest s
  end.

(** A chunk that does not end a sentence, as counted by
    [compareChunkingMethods]. *)
Definition broken (chunk : str) : bool :=
  let lastChar := slice_from (-1) (trim chunk) in
  negb (str_eqb lastChar (lit ".")) && negb (str_eqb lastChar (lit "!"))
  && negb (str_eqb lastChar (lit "?")) && negb (endsWith (trim chunk) (lit "...")).

(** One side of the answer of [compareChunkingMethods]. *)
Record method_report := {
  report : statistics;
  brokenChunks : Z;
  completenessScore : string
}.

Record comparison := {
  fixed : method_report;
  semantic : method_report;
  recommendation : string
}.

Section Statistics.

(** [Math.round(totalChars / chunks.length)] and
    [((count - broken) / count * 100).toFixed(1)] are taken as given. *)
Variable rounded_quotient : Z -> Z -> Z.
Variable percentage : Z -> Z -> string.

Definition getChunkStatistics (chunks : list str) : statistics :=
  if (length chunks =? 0)%nat then
    {| count := 0; avgSize := 0; minSize := 0; maxSize := 0; totalChars := 0;
       sizes := None |}
  else
    let sizes := map len chunks in
    let totalChars := fold_left (fun sum size => sum + size) sizes 0 in
    {| count := Z.of_nat (length chunks);
       avgSize := rounded_quotient totalChars (Z.of_nat (length chunks));
       minSize := min_of sizes;
       maxSize := max_of sizes;
       totalChars := totalChars;
       sizes := Some sizes |}.

Definition report_of (chunks : list str) : method_report :=
  let stats := getChunkStatistics chunks in
  let brokenWords := Z.of_nat (length (filter broken chunks)) in
  {| report := stats;
     brokenChunks := brokenWords;
     completenessScore := percentage (count stats - brokenWords) (count stats) |}.

(** [compareChunkingMethods]; it returns when the fixed-size chunking
    does. *)
Definition compareChunkingMethods (fuel : nat) (text : str) (maxSize : Z)
  : option comparison :=
  match splitIntoFixedChunks fuel text maxSize 50 with
  | None => None
  | Some fixedChunks =>
      let semanticChunks := splitIntoSemanticChunks text maxSize 1 in
      let semanticStats := report_of semanticChunks in
      Some {| fixed := report_of fixedChunks;
              semantic := semanticStats;
              recommendation :=
                if 0 <? count (report semanticStats) then "semantic"%string
                else "fixed"%string |}
  end.

End Statistics.

End Chunking.

(* ================================================================== *)
(** * The vector index ([services/vectorStore.js]) *)
(* ================================================================== *)

Module VectorStore.

(** A row of the table [documents].  The column [embedding] holds the
    JSON text of the vector; [JSON.parse] of [JSON.stringify] gives the
    finite components back unchanged, so the row carries the vector. *)
Record row := {
  id : string;
  filename : string;
  text : string;
  embedding : list float;
  page : option Z;
  char_start : option Z;
  char_end : option Z;
  created_at : Z
}.

(** The table, in rowid order, which is the order in which [stmt.all()]
    hands the rows out.  [id] is the primary key. *)
Definition table := list row.

(** An element of the argument of [insertChunksBatch]; an absent optional
    field is [None]. *)
Record chunk := {
  c_id : string;
  c_filename : string;
  c_text : string;
  c_embedding : list float;
  c_page : option Z;
  c_charStart : option Z;
  c_charEnd : option Z
}.

(** [v || null] on an optional integer: [0] is falsy. *)
Definition or_null (v : option Z) : option Z :=
  match v with
  | Some 0%Z => None
  | _ => v
  end.

(** [INSERT OR REPLACE]: a row with the same primary key is deleted and
    the new row is appended with a fresh rowid. *)
Definition insert_or_replace (r : row) (db : table) : table :=
  filter (fun x => negb (String.eqb (id x) (id r))) db ++ [r].

(** The row written for a chunk; [now] is the value of [unixepoch()]. *)
Definition row_of_chunk (now : Z) (c : chunk) : row :=
  {| id := c_id c; filename := c_filename c; text := c_text c;
     embedding := c_embedding c;
     page := or_null (c_page c);
     char_start := or_null (c_charStart c);
     char_end := or_null (c_charEnd c);
     created_at := now |}.

(** [insertChunksBatch]: the inserts of one transaction, in order. *)
Definition insertChunksBatch (now : Z) (chunks : list chunk) (db : table) : table :=
  fold_left (fun db c => insert_or_replace (row_of_chunk now c) db) chunks db.

(** [cosineSimilarity]: the three accumulators after the loop over
    [i < a.length]. *)
Definition cosine_loop (a b : list float) : float * float * float :=
  fold_left
    (fun '(dotProduct, magnitudeA, magnitudeB) i =>
       let ai := Js.num_at a i in
       let bi := Js.num_at b i in
       (dotProduct + ai * bi, magnitudeA + ai * ai, magnitudeB + bi * bi)%float)
    (seq 0 (length a)) (0, 0, 0)%float.

Definition cosineSimilarity (a b : list float) : float :=
  let '(dotProduct, magnitudeA, magnitudeB) := cosine_loop a b in
  let magnitudeA := sqrt magnitudeA in
  let magnitudeB := sqrt magnitudeB in
  if (magnitudeA =? 0)%float || (magnitudeB =? 0)%float then 0%float
  else (dotProduct / (magnitudeA * magnitudeB))%float.

(** An element of the answer of [searchSimilar]. *)
Record result := {
  r_id : string;
  r_filename : string;
  r_text : string;
  similarity : float;
  r_page : option Z;
  r_charStart : option Z;
  r_charEnd : option Z
}.

Definition score (queryEmbedding : list float) (doc : row) : result :=
  {| r_id := id doc; r_filename := filename doc; r_text := text doc;
     similarity := cosineSimilarity queryEmbedding (embedding doc);
     r_page := page doc; r_charStart := char_start doc; r_charEnd := char_end doc |}.

(** The rows selected by the query; an absent or empty filter is falsy. *)
Definition select_documents (filenameFilter : option string) (db : table) : table :=
  match filenameFilter with
  | None => db
  | Some EmptyString => db
  | Some f => filter (fun x => String.eqb (filename x) f) db
  end.

Definition by_similarity_desc (a b : result) : float :=
  (similarity b - similarity a)%float.

Definition searchSimilar (queryEmbedding : list float) (topK : Z)
  (similarityThreshold : float) (filenameFilter : option string) (db : table)
  : list result :=
  let documents := select_documents filenameFilter db in
  let results := map (score queryEmbedding) documents in
  Js.slice_to topK
    (Js.sort by_similarity_desc
       (filter (fun doc => (similarityThreshold <=? similarity doc)%float) results)).

(** [deleteByFilename]: the count and the table left. *)
Definition deleteByFilename (f : string) (db : table) : nat * table :=
  (length (filter (fun x => String.eqb (filename x) f) db),
   filter (fun x => negb (String.eqb (filename x) f)) db).

Definition getChunkCount (f : string) (db : table) : nat :=
  length (filter (fun x => String.eqb (filename x) f) db).

(** [SELECT filename, COUNT( * ) ... GROUP BY filename ORDER BY filename]:
    one more row for [f] in a list of counts kept in ascending order of
    the file name. *)
Fixpoint count_in (f : string) (acc : list (string * nat)) : list (string * nat) :=
  match acc with
  | [] => [(f, 1)]
  | (g, n) :: rest =>
      match String.compare f g with
      | Eq => (g, S n) :: rest
      | Lt => (f, 1) :: acc
      | Gt => (g, n) :: count_in f rest
      end
  end.

Definition group_by_filename (db : table) : list (string * nat) :=
  fold_left (fun acc x => count_in (filename x) acc) db [].

(** A plain object whose values are counts: its own properties in the
    order in which [Object.entries], [for ... in] and [JSON.stringify]
    list them, the array indices first, in ascending numeric order, then
    the other names in the order of their creation. *)
Definition js_object := list (string * nat).

(** The array index that a property name denotes: the name is the decimal
    numeral, without leading zeros, of an integer below [2 ^ 32 - 1]. *)
Definition array_index (key : string) : option N :=
  match DecimalString.NilZero.uint_of_string key with
  | None => None
  | Some d =>
      let n := N.of_uint d in
      if String.eqb (DecimalString.NilZero.string_of_uint (N.to_uint n)) key
         && (n <? 4294967295)%N
      then Some n else None
  end.

(** A new property whose name is the array index [i]: it comes after the
    smaller indices and before everything else. *)
Fixpoint define_index (i : N) (key : string) (value : nat) (o : js_object)
  : js_object :=
  match o with
  | [] => [(key, value)]
  | (k, v) :: rest =>
      match array_index k with
      | Some j =>
          if (j <? i)%N then (k, v) :: define_index i key value rest
          else (key, value) :: o
      | None => (key, value) :: o
      end
  end.

(** [o[key] = value] on an object made by [{}], for a number [value].
    The name [__proto__] is an accessor of [Object.prototype] whose setter
    ignores a value that is neither an object nor [null]: no property is
    made.  A property that exists keeps its place. *)
Definition set_property (key : string) (value : nat) (o : js_object) : js_object :=
  if String.eqb key "__proto__" then o
  else if existsb (fun p => String.eqb (fst p) key) o
  then map (fun p => if String.eqb (fst p) key then (key, value) else p) o
  else
    match array_index key with
    | Some i => define_index i key value o
    | None => o ++ [(key, value)]
    end.

(** The answer of [getDocumentStats]. *)
Record stats := {
  totalDocuments : nat;
  files : js_object
}.

(** [getDocumentStats]: the loop [files[stat.filename] = stat.count] over
    the rows of the grouped query, in their order. *)
Definition getDocumentStats (db : table) : stats :=
  {| totalDocuments := length db;
     files :=
       fold_left (fun files stat => set_property (fst stat) (snd stat) files)
         (group_by_filename db) [] |}.

(** [insertChunk]; an argument left out is [None], and the values are
    written as given. *)
Definition insertChunk (now : Z) (chunkId name chunkText : string)
  (vector : list float) (pageNumber charStart charEnd : option Z) (db : table)
  : table :=
  insert_or_replace
    {| id := chunkId; filename := name; text := chunkText; embedding := vector;
       page := pageNumber; char_start := charStart; char_end := charEnd;
       created_at := now |} db.

Definition hasFile (f : string) (db : table) : bool :=
  (0 <? length (filter (fun x => String.eqb (filename x) f) db))%nat.

End VectorStore.

(* ================================================================== *)
(** * The query orchestrator ([services/ragService], [server.js]) *)
(* ================================================================== *)

Module RagService.
Import VectorStore.

Local Open Scope string_scope.

(** A call either returns or throws an error with a message. *)
Inductive outcome (A : Type) :=
| Returned (a : A)
| Thrown (message : string).
Arguments Returned {A} a.
Arguments Thrown {A} message.

(** An element of the answer of [buildSourcesMetadata]. *)
Record source := {
  s_filename : string;
  s_page : option Z;
  chunkIndex : nat;
  s_similarity : string;
  preview : string;
  pdfLink : string;
  s_charStart : option Z;
  s_charEnd : option Z
}.

(** What [res.write] sends: the payload of one server-sent event. *)
Inductive frame :=
| Sources (content : list source)
| Token (content : string)
| Done (content rawAnswer : string)
| Error (content : string)
| Sentinel.

(** The response object: what was sent, and whether [res.end()] ran. *)
Record response := {
  written : list frame;
  ended : bool
}.

Definition fresh : response := {| written := []; ended := false |}.

(** [res.write(f)]; a write after [res.end()] sends nothing. *)
Definition write (f : frame) (res : response) : response :=
  if ended res then res
  else {| written := written res ++ [f]; ended := false |}.

Definition end_ (res : response) : response :=
  {| written := written res; ended := true |}.

(** One line of a chunk of the generation stream after [JSON.parse]:
    [Malformed] when the parse throws, else the fields [response] (empty
    when absent) and [done]. *)
Inductive json_line :=
| Malformed
| Json (response : string) (done : bool).

(** What the stream of the generation call emits. *)
Inductive stream_event :=
| Data (lines : list json_line)
| StreamError (message : string).

(** The generation call: the request fails, or a stream is handed out. *)
Inductive generation :=
| Unavailable (message : string)
| Stream (events : list stream_event).

(** The stream of a generation that produces the given increments, one
    line each, and then the line that signals completion. *)
Definition increments (incs : list string) : list stream_event :=
  map (fun s => Data [Json s false]) incs ++ [Data [Json "" true]].

Definition NO_DOCUMENTS : string :=
  "No encontré documentos relevantes para tu pregunta. Por favor, asegúrate de haber cargado PDFs relacionados con tu consulta.".

Fixpoint join_blank (parts : list string) : string :=
  match parts with
  | [] => ""
  | [p] => p
  | p :: rest => p ++ String (ascii_of_nat 10) (String (ascii_of_nat 10) (join_blank rest))
  end.

(** The answer of [generateRAGResponse]. *)
Record rag_response := {
  answer : string;
  rawAnswer : string;
  sources : list source;
  strictMode : bool
}.

(** The column [sources] of the table [chat_history] holds the JSON text
    of what the route passes: the metadata of the sources, or the file,
    page and similarity of each document. *)
Inductive saved_sources :=
| Metadata (content : list source)
| Documents (content : list (string * option Z * float)).

(** A row of the table [chat_history]. *)
Record chat_message := {
  user_id : Z;
  question : string;
  saved_answer : string;
  history_sources : saved_sources
}.

(** What a route hands to the client: the body of [res.json], or the
    error passed to the error handler. *)
Inductive reply (A : Type) :=
| Body (a : A)
| Failed (message : string).
Arguments Body {A} a.
Arguments Failed {A} message.

Section Orchestrator.

(** [Number.prototype.toFixed(4)], the printing of a page number in a
    template string, [formatResponseAsHTML], [buildRAGPrompt] and the two
    capabilities are taken as given. *)
Variable toFixed4 : float -> string.
Variable print_int : Z -> string.
Variable formatResponseAsHTML : string -> string.
Variable buildRAGPrompt : string -> string -> bool -> string.
Variable generateEmbedding : string -> outcome (list float).
Variable generateLLMResponseStream : string -> generation.

Definition build_source (index : nat) (doc : result) : source :=
  {| s_filename := r_filename doc;
     s_page := r_page doc;
     chunkIndex := index;
     s_similarity := toFixed4 (similarity doc);
     preview := substring 0 100 (r_text doc) ++ "...";
     pdfLink :=
       match r_page doc with
       | None | Some 0%Z => "/api/documents/" ++ r_filename doc
       | Some p => "/api/documents/" ++ r_filename doc ++ "?page=" ++ print_int p
       end;
     s_charStart := r_charStart doc;
     s_charEnd := r_charEnd doc |}.

Fixpoint build_sources_from (index : nat) (docs : list result) : list source :=
  match docs with
  | [] => []
  | doc :: rest => build_source index doc :: build_sources_from (S index) rest
  end.

Definition buildSourcesMetadata (topDocs : list result) : list source :=
  build_sources_from 0 topDocs.

(** [performRAGSearch] *)
Definition performRAGSearch (query : string) (vectorStore : table)
  (topK : Z) (threshold : float) : outcome (list result) :=
  match generateEmbedding query with
  | Thrown e => Thrown e
  | Returned queryEmbedding =>
      let topDocs := searchSimilar queryEmbedding topK threshold None vectorStore in
      if (length topDocs =? 0)%nat then Thrown NO_DOCUMENTS else Returned topDocs
  end.

(** The variables shared by the two listeners of the stream. *)
Record relay := {
  fullResponse : string;
  res : response
}.

(** The body of the loop over the lines of a chunk. *)
Definition on_line (st : relay) (line : json_line) : relay :=
  match line with
  | Malformed => st
  | Json response done =>
      let st1 :=
        match response with
        | EmptyString => st
        | _ => {| fullResponse := fullResponse st ++ response;
                  res := write (Token response) (res st) |}
        end in
      if done then
        let formattedAnswer := formatResponseAsHTML (fullResponse st1) in
        {| fullResponse := fullResponse st1;
           res := end_ (write Sentinel
                    (write (Done formattedAnswer (fullResponse st1)) (res st1))) |}
      else st1
  end.

(** The listeners for ['data'] and ['error']. *)
Definition on_event (st : relay) (ev : stream_event) : relay :=
  match ev with
  | Data lines => fold_left on_line lines st
  | StreamError message =>
      {| fullResponse := fullResponse st;
         res := end_ (write (Error message) (res st)) |}
  end.

(** [handleStreamingRAGResponse]: the response object after the stream
    has delivered all its events, and whether the call threw. *)
Definition handleStreamingRAGResponse (query : string) (topDocs : list result)
  (strict : bool) (res0 : response) : response * outcome unit :=
  let sources := buildSourcesMetadata topDocs in
  let res1 := write (Sources sources) res0 in
  let context := join_blank (map r_text topDocs) in
  let prompt := buildRAGPrompt context query strict in
  match generateLLMResponseStream prompt with
  | Unavailable e => (res1, Thrown e)
  | Stream events =>
      (res (fold_left on_event events {| fullResponse := ""; res := res1 |}),
       Returned tt)
  end.

(** The handler of [POST /api/public/query-stream] after validation. *)
Definition query_stream (query : string) (strict : bool) (vectorStore : table)
  (topK : Z) (threshold : float) : response :=
  let on_catch (message : string) (r : response) :=
    end_ (write Sentinel (write (Error message) r)) in
  match performRAGSearch query vectorStore topK threshold with
  | Thrown e => on_catch e fresh
  | Returned topDocs =>
      match handleStreamingRAGResponse query topDocs strict fresh with
      | (r, Thrown e) => on_catch e r
      | (r, Returned _) => r
      end
  end.

Section NonStreaming.

Variable generateLLMResponse : string -> outcome string.

Definition generateRAGResponse (query : string) (topDocs : list result)
  (strict : bool) : outcome rag_response :=
  let context := join_blank (map r_text topDocs) in
  let prompt := buildRAGPrompt context query strict in
  match generateLLMResponse prompt with
  | Thrown e => Thrown e
  | Returned rawAnswer =>
      Returned {| answer := formatResponseAsHTML rawAnswer;
                  rawAnswer := rawAnswer;
                  sources := buildSourcesMetadata topDocs;
                  strictMode := strict |}
  end.

(** The handler of [POST /api/query] after authentication and
    validation, with the history table before and after. *)
Definition query_route (userId : Z) (query : string) (strict : bool)
  (vectorStore : table) (topK : Z) (threshold : float)
  (history : list chat_message) : reply rag_response * list chat_message :=
  match performRAGSearch query vectorStore topK threshold with
  | Thrown e => (Failed e, history)
  | Returned topDocs =>
      match generateRAGResponse query topDocs strict with
      | Thrown e => (Failed e, history)
      | Returned response =>
          (Body response,
           (history ++
            [{| user_id := userId; question := query;
                saved_answer := answer response;
                history_sources := Metadata (sources response) |}])%list)
      end
  end.

End NonStreaming.

Section Capture.

(** The text that [+=] appends for the array of a sources event is taken
    as given. *)
Variable string_of_sources : list source -> string.

(** The field [type] of the object of an event; the sentinel carries no
    object. *)
Definition frame_type (f : frame) : option string :=
  match f with
  | Sources _ => Some "sources"
  | Token _ => Some "token"
  | Done _ _ => Some "done"
  | Error _ => Some "error"
  | Sentinel => None
  end.

Definition frame_content (f : frame) : string :=
  match f with
  | Sources content => string_of_sources content
  | Token content | Done content _ | Error content => content
  | Sentinel => ""
  end.

(** The wrapper that the authenticated streaming route puts around
    [res.write]: what it adds to [fullAnswer] for one event. *)
Definition capture (fullAnswer : string) (f : frame) : string :=
  match frame_type f with
  | Some type =>
      if String.eqb type "content" then fullAnswer ++ frame_content f
      else fullAnswer
  | None => fullAnswer
  end.

(** The generation stream cut after its first [n] events. *)
Definition delivered (n : nat) (prompt : string) : generation :=
  match generateLLMResponseStream prompt with
  | Unavailable e => Unavailable e
  | Stream events => Stream (firstn n events)
  end.

End Capture.

End Orchestrator.

(** The handler of [POST /api/query-stream] after authentication and
    validation: the response once the stream has delivered all its events,
    and the history table.  The test of [fullAnswer] runs when
    [handleStreamingRAGResponse] has returned, at which time the stream has
    delivered its first [n] events. *)
Definition query_stream_authenticated
  (toFixed4 : float -> string) (print_int : Z -> string)
  (formatResponseAsHTML : string -> string)
  (buildRAGPrompt : string -> string -> bool -> string)
  (generateEmbedding : string -> outcome (list float))
  (generateLLMResponseStream : string -> generation)
  (string_of_sources : list source -> string)
  (n : nat) (userId : Z) (query : string) (strict : bool) (vectorStore : table)
  (topK : Z) (threshold : float)
  (history : list chat_message) : response * list chat_message :=
  let on_catch (message : string) (r : response) :=
    end_ (write Sentinel (write (Error message) r)) in
  match performRAGSearch generateEmbedding query vectorStore topK threshold with
  | Thrown e => (on_catch e fresh, history)
  | Returned topDocs =>
      let run stream :=
        handleStreamingRAGResponse toFixed4 print_int formatResponseAsHTML
          buildRAGPrompt stream query topDocs strict fresh in
      match run generateLLMResponseStream with
      | (r, Thrown e) => (on_catch e r, history)
      | (r, Returned _) =>
          let seen := written (fst (run (delivered generateLLMResponseStream n))) in
          let fullAnswer := fold_left (capture string_of_sources) seen "" in
          (r,
           match fullAnswer with
           | EmptyString => history
           | _ =>
               (history ++
                [{| user_id := userId; question := query; saved_answer := fullAnswer;
                    history_sources :=
                      Documents
                        (map (fun doc => (r_filename doc, r_page doc, similarity doc))
                           topDocs) |}])%list
           end)
      end
  end.

End RagService.

(* ================================================================== *)
(** * Page metadata ([services/pdfProcessor]) *)
(* ================================================================== *)

Module PdfProcessor.
Import Js Chunking.

Local Open Scope Z_scope.

(** An element of the array [pages]. *)
Record page_info := {
  pageNumber : Z;
  page_text : str;
  page_charStart : Z;
  page_charEnd : Z
}.

(** The answer of [extractTextFromPDFWithPages]. *)
Record pdf_data := {
  fullText : str;
  numPages : Z;
  pages : list page_info
}.

(** [parts.join('\n')] *)
Fixpoint join_lines (parts : list str) : str :=
  match parts with
  | [] => []
  | [p] => p
  | p :: rest => p ++ NL :: join_lines rest
  end.

(** One round of the loop over the pages: [pageText] is the text that
    the reader hands out for page [pageNum]. *)
Definition page_step (st : list page_info * Z) (entry : nat * str)
  : list page_info * Z :=
  let '(pages, charPosition) := st in
  let '(pageNum, pageText) := entry in
  let charStart := charPosition in
  let charEnd := charPosition + len pageText in
  (pages ++ [{| pageNumber := Z.of_nat pageNum; page_text := pageText;
                page_charStart := charStart; page_charEnd := charEnd |}],
   charEnd + 1).

(** [extractTextFromPDFWithPages], from the texts of the pages in order
    (the document has as many pages as there are texts). *)
Definition extractTextFromPDFWithPages (texts : list str) : pdf_data :=
  let pages :=
    fst (fold_left page_step (combine (seq 1 (length texts)) texts) ([], 0)) in
  {| fullText := trim (join_lines (map page_text pages));
     numPages := Z.of_nat (length texts);
     pages := pages |}.

(** An element of the answer of [mapChunksToPages]. *)
Record mapped_chunk := {
  m_text : str;
  m_page : Z;
  m_charStart : Z;
  m_charEnd : Z
}.

(** The loop of [findPageForChunk]: the first page whose range holds the
    position. *)
Fixpoint find_page (charStart : Z) (pages : list page_info) : option Z :=
  match pages with
  | [] => None
  | page :: rest =>
      if (page_charStart page <=? charStart) && (charStart <? page_charEnd page)
      then Some (pageNumber page)
      else find_page charStart rest
  end.

Section Mapping.

(** The fallback [Math.ceil(charStart / totalLength * numPages) || 1] is
    taken as given. *)
Variable approximate_page : Z -> Z -> Z -> Z.

Definition findPageForChunk (charStart : Z) (pages : list page_info)
  (totalLength numPages : Z) : Z :=
  match find_page charStart pages with
  | Some n => n
  | None => approximate_page charStart totalLength numPages
  end.

(** One round of the loop of [mapChunksToPages]. *)
Definition map_step (pdfData : pdf_data) (st : list mapped_chunk * Z)
  (chunkText : str) : list mapped_chunk * Z :=
  let '(mappedChunks, charPosition) := st in
  let charStart := charPosition in
  let charEnd := charPosition + len chunkText in
  let page :=
    findPageForChunk charStart (pages pdfData) (len (fullText pdfData))
      (numPages pdfData) in
  (mappedChunks ++ [{| m_text := chunkText; m_page := page;
                       m_charStart := charStart; m_charEnd := charEnd |}],
   charEnd).

Definition mapChunksToPages (chunks : list str) (pdfData : pdf_data)
  : list mapped_chunk :=
  fst (fold_left (map_step pdfData) chunks ([], 0)).

End Mapping.

End PdfProcessor.

(* ================================================================== *)
(** * The ingestion pipeline ([services/documentProcessor.js], [server.js]) *)
(* ================================================================== *)

Module DocumentProcessor.
Import Js Chunking VectorStore RagService PdfProcessor.

Local Open Scope string_scope.

(** An index in a template string: its decimal digits. *)
Definition print_index (i : nat) : string :=
  DecimalString.NilEmpty.string_of_uint (Nat.to_uint i).

(** The id [`${filename}_chunk_${i}`]. *)
Definition chunk_id (filename : string) (i : nat) : string :=
  filename ++ "_chunk_" ++ print_index i.

Section Pipeline.

(** The embedding call on the text of a chunk, the fallback of the page
    lookup, and the text of a chunk as the table stores it are taken as
    given. *)
Variable generateEmbedding : str -> outcome (list float).
Variable approximate_page : Z -> Z -> Z -> Z.
Variable stored_text : str -> string.

(** [generateChunkEmbeddings]: the loop from index [i]; a failed
    embedding call ends it with the error. *)
Fixpoint embed_from (i : nat) (mappedChunks : list mapped_chunk) (filename : string)
  : outcome (list chunk) :=
  match mappedChunks with
  | [] => Returned []
  | chunk :: rest =>
      match generateEmbedding (m_text chunk) with
      | Thrown e => Thrown e
      | Returned embedding =>
          match embed_from (S i) rest filename with
          | Thrown e => Thrown e
          | Returned chunksWithEmbeddings =>
              Returned
                ({| c_id := chunk_id filename i;
                    c_filename := filename;
                    c_text := stored_text (m_text chunk);
                    c_embedding := embedding;
                    c_page := Some (m_page chunk);
                    c_charStart := Some (m_charStart chunk);
                    c_charEnd := Some (m_charEnd chunk) |}
                 :: chunksWithEmbeddings)
          end
      end
  end.

Definition generateChunkEmbeddings (mappedChunks : list mapped_chunk)
  (filename : string) : outcome (list chunk) :=
  embed_from 0 mappedChunks filename.

(** The answer of [processPDFDocument]. *)
Record processed := {
  pdfData : pdf_data;
  chunks : list str;
  chunksWithEmbeddings : list chunk
}.

(** [processPDFDocument], from the texts of the pages of the file. *)
Definition processPDFDocument (texts : list str) (filename : string)
  (chunkSize chunkOverlap : Z) : outcome processed :=
  let pdfData := extractTextFromPDFWithPages texts in
  let chunks := splitIntoSemanticChunks (fullText pdfData) chunkSize chunkOverlap in
  let mappedChunks := mapChunksToPages approximate_page chunks pdfData in
  match generateChunkEmbeddings mappedChunks filename with
  | Thrown e => Thrown e
  | Returned chunksWithEmbeddings =>
      Returned {| pdfData := pdfData; chunks := chunks;
                  chunksWithEmbeddings := chunksWithEmbeddings |}
  end.

(** The body of the answer of [POST /api/upload-pdf]. *)
Record upload_report := {
  report_pages : Z;
  report_chunks : nat;
  embeddings_generated : nat
}.

(** The handler of [POST /api/upload-pdf] after authentication and
    validation, with the table after it. *)
Definition upload_pdf (now : Z) (texts : list str) (filename : string)
  (chunkSize chunkOverlap : Z) (db : table) : reply upload_report * table :=
  match processPDFDocument texts filename chunkSize chunkOverlap with
  | Thrown e => (Failed e, db)
  | Returned result =>
      (Body {| report_pages := numPages (pdfData result);
               report_chunks := length (chunks result);
               embeddings_generated := length (chunksWithEmbeddings result) |},
       insertChunksBatch now (chunksWithEmbeddings result) db)
  end.

End Pipeline.

End DocumentProcessor.

(* ================================================================== *)
(** * Notions used in the statements *)
(* ================================================================== *)

Module Notions.
Import Js Chunking VectorStore RagService.

(** ** Segmenter *)

(** A text without whitespace. *)
Definition is_word (w : str) : bool := forallb (fun c => negb (is_space c)) w.

(** A unit of [U] that fits the maximum. *)
Definition fits (maxChunkSize : Z) (U : list str) (u : str) : Prop :=
  In u U /\ (len u <= maxChunkSize)%Z.

(** A fragment is within the maximum, or a single word of a unit of [U]
    that is longer than the maximum, or the join of two or more fitting
    units of [U]. *)
Definition fragment_ok (maxChunkSize : Z) (U : list str) (c : str) : Prop :=
  (len c <= maxChunkSize)%Z \/
  (is_word c = true /\
   exists u, In u U /\ (maxChunkSize < len u)%Z /\ In c (split_ws false u)) \/
  (exists us, 2 <= length us /\ Forall (fits maxChunkSize U) us /\ c = join us).

(** Following the specification: the units repeated at the start of the
    fragment that follows [closed], the last [overlapUnits] units when
    [closed] has more units than that, and none otherwise. *)
Definition overlap_seed (overlapUnits : Z) (closed : list str) : list str :=
  if ((0 <? overlapUnits) && (overlapUnits <? Z.of_nat (length closed)))%Z
  then skipn (length closed - Z.to_nat overlapUnits) closed
  else [].

(** Following the specification: the groups of units of the successive
    fragments, given the units that each fragment adds to the text read
    so far. *)
Fixpoint overlapped (overlapUnits : Z) (closed : list str) (fresh : list (list str))
  : list (list str) :=
  match fresh with
  | [] => []
  | units :: rest =>
      let group := overlap_seed overlapUnits closed ++ units in
      group :: overlapped overlapUnits group rest
  end.

(** ** Vector index *)

Definition sum_squares (v : list float) (start : float) : float :=
  fold_left (fun acc x => (acc + x * x)%float) v start.

Definition sample_row (i f : string) (e : list float) : row :=
  {| id := i; filename := f; text := "text"%string; embedding := e;
     page := None; char_start := None; char_end := None; created_at := 0%Z |}.

(** ** Orchestrator *)

(** A line, or an event, that neither completes nor fails the stream. *)
Definition quiet_line (line : json_line) : bool :=
  match line with
  | Json _ true => false
  | _ => true
  end.

Definition quiet_event (ev : stream_event) : bool :=
  match ev with
  | Data lines => forallb quiet_line lines
  | StreamError _ => false
  end.

End Notions.

(* ================================================================== *)
(** * Facts about binary64 numbers *)
(* ================================================================== *)

(** The order of the numbers that are not [NaN] is read off an integer
    key: the value scaled by [2 ^ 1074], with the infinities beyond every
    finite value.  Comparison and the sign of a difference are stated on
    keys, from the specification of the primitive operations. *)

Module FloatFacts.

Local Open Scope Z_scope.

Local Abbreviation EMIN := (-1074)%Z (only parsing).

(** The key of a number; [NaN] has no meaningful key. *)
Definition sf_key (x : spec_float) : Z :=
  match x with
  | S754_zero _ => 0
  | S754_nan => 0
  | S754_infinity s => cond_Zopp s (2 ^ 2098)
  | S754_finite s m e => cond_Zopp s (Zpos m * 2 ^ (e - EMIN))
  end.

(** A mantissa of [d] digits lies between [2 ^ (d - 1)] and [2 ^ d]. *)
Lemma digits2_pos_bounds (m : positive) :
  2 ^ (Zpos (digits2_pos m) - 1) <= Zpos m < 2 ^ Zpos (digits2_pos m).
Proof.
  induction m as [m IH | m IH |]; cbn [digits2_pos].
  - rewrite Pos2Z.inj_succ.
    replace (Z.succ (Zpos (digits2_pos m)) - 1) with (Z.succ (Zpos (digits2_pos m) - 1)) by lia.
    rewrite !Z.pow_succ_r by lia. lia.
  - rewrite Pos2Z.inj_succ.
    replace (Z.succ (Zpos (digits2_pos m)) - 1) with (Z.succ (Zpos (digits2_pos m) - 1)) by lia.
    rewrite !Z.pow_succ_r by lia. lia.
  - cbn. lia.
Qed.

(** What validity says of a finite number: the exponent range, at most
    53 digits, and exactly 53 above the smallest exponent. *)
Lemma bounded_inv m e :
  bounded prec emax m e = true ->
  EMIN <= e <= 971 /\ Zpos (digits2_pos m) <= 53 /\
  (EMIN < e -> Zpos (digits2_pos m) = 53).
Proof.
  unfold bounded, canonical_mantissa, fexp, SpecFloat.emin.
  change prec with 53. change emax with 1024.
  intros H. apply andb_prop in H. destruct H as [H1 H2].
  apply Z.eqb_eq in H1. apply Z.leb_le in H2. lia.
Qed.

Lemma finite_key_bounds m e :
  bounded prec emax m e = true ->
  0 < Zpos m * 2 ^ (e - EMIN) < 2 ^ 2098.
Proof.
  intros H. destruct (bounded_inv _ _ H) as (He & Hd & _).
  pose proof (digits2_pos_bounds m) as [_ Hm].
  assert (Zpos m < 2 ^ 53).
  { eapply Z.lt_le_trans; [exact Hm|]. apply Z.pow_le_mono_r; lia. }
  assert (0 < 2 ^ (e - EMIN)) by (apply Z.pow_pos_nonneg; lia).
  split; [lia|].
  assert (2 ^ (e - EMIN) <= 2 ^ 2045) by (apply Z.pow_le_mono_r; lia).
  assert (E : 2 ^ 2098 = 2 ^ 53 * 2 ^ 2045) by (rewrite <- Z.pow_add_r; [reflexivity | lia | lia]).
  rewrite E.
  assert (0 < 2 ^ 53) by (apply Z.pow_pos_nonneg; lia).
  nia.
Qed.

Lemma scaled_lt m1 m2 e1 e2 :
  bounded prec emax m1 e1 = true -> bounded prec emax m2 e2 = true ->
  e1 < e2 -> Zpos m1 * 2 ^ (e1 - EMIN) < Zpos m2 * 2 ^ (e2 - EMIN).
Proof.
  intros H1 H2 Hlt.
  destruct (bounded_inv _ _ H1) as (He1 & Hd1 & _).
  destruct (bounded_inv _ _ H2) as (He2 & _ & Hd2).
  specialize (Hd2 ltac:(lia)).
  pose proof (digits2_pos_bounds m1) as [_ Hm1].
  pose proof (digits2_pos_bounds m2) as [Hm2 _]. rewrite Hd2 in Hm2.
  assert (Zpos m1 < 2 ^ 53).
  { eapply Z.lt_le_trans; [exact Hm1|]. apply Z.pow_le_mono_r; lia. }
  replace (e2 - EMIN) with ((e1 - EMIN) + (e2 - e1)) by lia.
  rewrite Z.pow_add_r by lia.
  assert (0 < 2 ^ (e1 - EMIN)) by (apply Z.pow_pos_nonneg; lia).
  assert (2 ^ 1 <= 2 ^ (e2 - e1)) by (apply Z.pow_le_mono_r; lia).
  change (53 - 1) with 52 in Hm2.
  change (2 ^ 1) with 2 in *.
  assert (E : 2 ^ 53 = 2 * 2 ^ 52) by reflexivity.
  rewrite E in *.
  assert (0 < 2 ^ 52) by (apply Z.pow_pos_nonneg; lia).
  generalize dependent (2 ^ 52). generalize dependent (2 ^ (e1 - -1074)).
  generalize dependent (2 ^ (e2 - e1)). intros Q ? P ? K ? ? ? ?.
  assert (Z.pos m1 * P < 2 * K * P) by nia.
  assert (2 * K * P <= Z.pos m2 * P * 2) by nia.
  assert (Z.pos m2 * P * 2 <= Z.pos m2 * P * Q) by nia.
  lia.
Qed.

(** A valid number that is not [NaN]. *)
Definition sf_ok (x : spec_float) : Prop :=
  valid_binary x = true /\ x <> S754_nan.

(** Comparison is comparison of keys. *)
Lemma SFcompare_key x y :
  sf_ok x -> sf_ok y -> SFcompare x y = Some (sf_key x ?= sf_key y).
Proof.
  intros [Vx Nx] [Vy Ny].
  assert (P : 0 < 2 ^ 2098) by (apply Z.pow_pos_nonneg; lia).
  destruct x as [sx | sx | | sx mx ex]; try congruence;
  destruct y as [sy | sy | | sy my ey]; try congruence;
  cbn [SFcompare sf_key valid_binary] in *;
  try (pose proof (finite_key_bounds _ _ Vx));
  try (pose proof (finite_key_bounds _ _ Vy)).
  all: try (destruct sx; cbn [cond_Zopp]; f_equal; symmetry;
            first [apply Z.compare_eq_iff; lia | apply Z.compare_lt_iff; lia | apply Z.compare_gt_iff; lia]).
  all: try (destruct sy; cbn [cond_Zopp]; f_equal; symmetry;
            first [apply Z.compare_eq_iff; lia | apply Z.compare_lt_iff; lia | apply Z.compare_gt_iff; lia]).
  all: try (destruct sx, sy; cbn [cond_Zopp]; f_equal; symmetry;
            first [apply Z.compare_eq_iff; lia | apply Z.compare_lt_iff; lia | apply Z.compare_gt_iff; lia]).
  (* finite, finite *)
  f_equal.
  destruct sx, sy; cbn [cond_Zopp].
  - (* both negative *)
    rewrite Z.compare_opp.
    destruct (Z.compare_spec ex ey) as [E | L | G].
    + subst ey. change (Pos.compare_cont Eq mx my) with (mx ?= my)%positive.
      rewrite <- Pos.compare_antisym.
      change (my ?= mx)%positive with (Zpos my ?= Zpos mx).
      apply Zmult_compare_compat_r.
      destruct (bounded_inv _ _ Vx) as (He & _). apply Z.lt_gt, Z.pow_pos_nonneg; lia.
    + symmetry. apply Z.compare_gt_iff. now apply scaled_lt.
    + symmetry. apply Z.compare_lt_iff. apply scaled_lt; auto; lia.
  - symmetry. apply Z.compare_lt_iff. lia.
  - symmetry. apply Z.compare_gt_iff. lia.
  - destruct (Z.compare_spec ex ey) as [E | L | G].
    + subst ey. change (Pos.compare_cont Eq mx my) with (mx ?= my)%positive.
      change (mx ?= my)%positive with (Zpos mx ?= Zpos my).
      apply Zmult_compare_compat_r.
      destruct (bounded_inv _ _ Vx) as (He & _). apply Z.lt_gt, Z.pow_pos_nonneg; lia.
    + symmetry. apply Z.compare_lt_iff. now apply scaled_lt.
    + symmetry. apply Z.compare_gt_iff. apply scaled_lt; auto; lia.
Qed.

(** ** Rounding keeps a positive number positive *)

(** One shift to the right halves the mantissa. *)
Lemma shr_1_m mrs : 0 <= shr_m mrs -> shr_m (shr_1 mrs) = shr_m mrs / 2.
Proof.
  destruct mrs as [m r s]. cbn [shr_m]. intros Hm.
  destruct m as [| p | p]; [reflexivity | | lia].
  destruct p as [p | p |]; cbn [shr_1 shr_m].
  - rewrite Pos2Z.inj_xI. apply Z.div_unique with (r := 1); lia.
  - rewrite Pos2Z.inj_xO. apply Z.div_unique with (r := 0); lia.
  - reflexivity.
Qed.

Lemma iter_pos_shr_m p : forall mrs,
  0 <= shr_m mrs ->
  shr_m (iter_pos shr_1 p mrs) = shr_m mrs / 2 ^ Zpos p.
Proof.
  induction p as [p IH | p IH |]; intros mrs Hm; cbn [iter_pos].
  - assert (H2 : 0 < 2 ^ Zpos p) by (apply Z.pow_pos_nonneg; lia).
    assert (H1 : 0 <= shr_m (shr_1 mrs)) by (rewrite shr_1_m by assumption; apply Z.div_pos; lia).
    rewrite IH.
    2:{ rewrite IH by assumption. apply Z.div_pos; lia. }
    rewrite IH by assumption. rewrite shr_1_m by assumption.
    rewrite !Z.div_div by lia.
    assert (E : 2 ^ Zpos p~1 = 2 * (2 ^ Zpos p * 2 ^ Zpos p)).
    { replace (Zpos p~1) with (1 + (Zpos p + Zpos p)) by lia.
      rewrite !Z.pow_add_r by lia. reflexivity. }
    rewrite E. reflexivity.
  - assert (H2 : 0 < 2 ^ Zpos p) by (apply Z.pow_pos_nonneg; lia).
    rewrite IH.
    2:{ rewrite IH by assumption. apply Z.div_pos; lia. }
    rewrite IH by assumption.
    rewrite !Z.div_div by lia.
    assert (E : 2 ^ Zpos p~0 = 2 ^ Zpos p * 2 ^ Zpos p).
    { replace (Zpos p~0) with (Zpos p + Zpos p) by lia.
      rewrite !Z.pow_add_r by lia. reflexivity. }
    rewrite E. reflexivity.
  - rewrite shr_1_m by assumption. reflexivity.
Qed.

Lemma shr_record_of_loc_m m l : shr_m (shr_record_of_loc m l) = m.
Proof. destruct l as [| []]; reflexivity. Qed.

Lemma shr_fexp_pos m e l :
  0 < m -> EMIN <= e ->
  0 < shr_m (fst (shr_fexp prec emax m e l)) /\ EMIN <= snd (shr_fexp prec emax m e l).
Proof.
  intros Hm He. unfold shr_fexp, shr.
  destruct m as [| p | p]; try lia. cbn [Zdigits2].
  pose proof (digits2_pos_bounds p) as [Hd _].
  set (d := Zpos (digits2_pos p)) in *.
  assert (Hd1 : 1 <= d) by (unfold d; lia).
  unfold fexp, SpecFloat.emin. change prec with 53. change emax with 1024.
  change (3 - 1024 - 53) with EMIN.
  destruct (Z.max (d + e - 53) EMIN - e) as [| n | n] eqn:En; cbn [fst snd].
  - rewrite shr_record_of_loc_m. lia.
  - rewrite iter_pos_shr_m by (rewrite shr_record_of_loc_m; lia).
    rewrite shr_record_of_loc_m. split; [|lia].
    apply Z.div_str_pos. split; [apply Z.pow_pos_nonneg; lia|].
    eapply Z.le_trans; [|exact Hd]. apply Z.pow_le_mono_r; lia.
  - rewrite shr_record_of_loc_m. lia.
Qed.

Lemma round_nearest_even_pos m l : 0 < m -> 0 < round_nearest_even m l.
Proof.
  intros Hm. destruct l as [| []]; cbn [round_nearest_even]; try lia.
  destruct (Z.even m); lia.
Qed.

Lemma binary_round_aux_pos m e l :
  0 < m -> EMIN <= e ->
  SFltb (S754_zero false) (binary_round_aux prec emax false m e l) = true.
Proof.
  intros Hm He. unfold binary_round_aux.
  destruct (shr_fexp_pos m e l Hm He) as [H1 H2].
  destruct (shr_fexp prec emax m e l) as [mrs' e'] eqn:E1. cbn [fst snd] in *.
  pose proof (round_nearest_even_pos (shr_m mrs') (loc_of_shr_record mrs') H1) as H3.
  destruct (shr_fexp_pos _ _ loc_Exact H3 H2) as [H4 H5].
  destruct (shr_fexp prec emax _ e' loc_Exact) as [mrs'' e''] eqn:E2. cbn [fst snd] in *.
  destruct (shr_m mrs'') as [| q | q]; try lia.
  destruct (e'' <=? emax - prec); reflexivity.
Qed.

Lemma binary_round_aux_neg m e l :
  SFltb (S754_zero false) (binary_round_aux prec emax true m e l) = false.
Proof.
  unfold binary_round_aux.
  destruct (shr_fexp prec emax m e l) as [mrs' e'].
  destruct (shr_fexp prec emax _ e' loc_Exact) as [mrs'' e''].
  destruct (shr_m mrs'') as [| q | q]; try reflexivity.
  destruct (e'' <=? emax - prec); reflexivity.
Qed.

Lemma iter_xO_pow m d : Zpos (Pos.iter xO m d) = Zpos m * 2 ^ Zpos d.
Proof.
  revert m. induction d as [| d IH] using Pos.peano_ind; intros m.
  - cbn. lia.
  - rewrite Pos.iter_succ, Pos2Z.inj_xO, IH, Pos2Z.inj_succ, Z.pow_succ_r by lia. lia.
Qed.

Lemma shl_align_down m e e' :
  e' <= e -> Zpos (fst (shl_align m e e')) = Zpos m * 2 ^ (e - e').
Proof.
  intros Hle. unfold shl_align.
  destruct (e' - e) as [| d | d] eqn:Ed; cbn [fst].
  - replace (e - e') with 0 by lia. cbn. lia.
  - lia.
  - rewrite iter_xO_pow. f_equal. f_equal. lia.
Qed.

Lemma binary_round_sign s m e :
  EMIN <= e ->
  SFltb (S754_zero false) (binary_round prec emax s m e) = negb s.
Proof.
  intros He. unfold binary_round.
  destruct (shl_align m e _) as [mz ez] eqn:E.
  destruct s; cbn [negb].
  - apply binary_round_aux_neg.
  - apply binary_round_aux_pos; [lia|].
    unfold shl_align in E.
    set (t := fexp prec emax (Zpos (digits2_pos m) + e)) in *.
    assert (EMIN <= t).
    { unfold t, fexp, SpecFloat.emin. change prec with 53. change emax with 1024. lia. }
    destruct (t - e); inversion E; subst; lia.
Qed.

(** The difference [y - x] is positive exactly when [x] has the smaller
    key: subtraction never rounds a nonzero difference to zero. *)
Lemma SFsub_sign x y :
  sf_ok x -> sf_ok y ->
  SFltb (S754_zero false) (SF64sub y x) = (sf_key x <? sf_key y).
Proof.
  intros [Vx Nx] [Vy Ny].
  assert (P : 0 < 2 ^ 2098) by (apply Z.pow_pos_nonneg; lia).
  destruct x as [sx | sx | | sx mx ex]; try congruence;
  destruct y as [sy | sy | | sy my ey]; try congruence;
  cbn [valid_binary sf_key] in *;
  try (pose proof (finite_key_bounds _ _ Vx));
  try (pose proof (finite_key_bounds _ _ Vy)).
  all: unfold SF64sub; cbn [SFsub].
  all: try (destruct sx; try destruct sy; cbn [cond_Zopp SFltb SFcompare negb]; symmetry;
            first [apply Z.ltb_lt; lia | apply Z.ltb_ge; lia]).
  all: try (destruct sy; cbn [cond_Zopp SFltb SFcompare negb]; symmetry;
            first [apply Z.ltb_lt; lia | apply Z.ltb_ge; lia]).
  (* finite - finite *)
  destruct (bounded_inv _ _ Vx) as (Hex & _).
  destruct (bounded_inv _ _ Vy) as (Hey & _).
  set (ez := Z.min ey ex).
  rewrite !shl_align_down by (unfold ez; lia).
  set (z := cond_Zopp sy (Zpos my * 2 ^ (ey - ez)) - cond_Zopp sx (Zpos mx * 2 ^ (ex - ez))).
  assert (Hz : z * 2 ^ (ez - EMIN) =
               cond_Zopp sy (Zpos my * 2 ^ (ey - EMIN)) - cond_Zopp sx (Zpos mx * 2 ^ (ex - EMIN))).
  { unfold z.
    replace (ey - EMIN) with ((ey - ez) + (ez - EMIN)) by lia.
    replace (ex - EMIN) with ((ex - ez) + (ez - EMIN)) by lia.
    rewrite !Z.pow_add_r by (unfold ez; lia).
    destruct sx, sy; cbn [cond_Zopp]; ring. }
  assert (Hp : 0 < 2 ^ (ez - EMIN)) by (apply Z.pow_pos_nonneg; unfold ez; lia).
  set (kx := cond_Zopp sx (Zpos mx * 2 ^ (ex - EMIN))) in *.
  set (ky := cond_Zopp sy (Zpos my * 2 ^ (ey - EMIN))) in *.
  clearbody kx ky.
  unfold binary_normalize.
  destruct z as [| p | p] eqn:Ez.
  - change (SFltb (S754_zero false) (S754_zero false)) with false.
    symmetry. apply Z.ltb_ge. lia.
  - rewrite binary_round_sign by (unfold ez; lia). cbn [negb].
    symmetry. apply Z.ltb_lt. nia.
  - rewrite binary_round_sign by (unfold ez; lia). cbn [negb].
    symmetry. apply Z.ltb_ge. nia.
Qed.

(** ** Square roots are not tiny, and their products are not zero *)








Local Open Scope float_scope.

(** ** The same facts on primitive floats *)

Definition is_number (x : float) : Prop := Prim2SF x <> S754_nan.
Definition fkey (x : float) : Z := sf_key (Prim2SF x).

Lemma is_number_ok x : is_number x -> sf_ok (Prim2SF x).
Proof. intros H. split; [apply Prim2SF_valid | exact H]. Qed.

Lemma Prim2SF_nan : Prim2SF nan = S754_nan.
Proof. reflexivity. Qed.

Lemma Prim2SF_zero : Prim2SF 0 = S754_zero false.
Proof. reflexivity. Qed.

Lemma is_nan_eq x : Prim2SF x = S754_nan -> x = nan.
Proof. intros H. apply Prim2SF_inj. now rewrite H. Qed.

Lemma ltb_key x y :
  is_number x -> is_number y -> (x <? y) = (fkey x <? fkey y)%Z.
Proof.
  intros Hx Hy. rewrite ltb_spec. unfold SFltb, fkey.
  rewrite (SFcompare_key _ _ (is_number_ok _ Hx) (is_number_ok _ Hy)).
  unfold Z.ltb. destruct (_ ?= _)%Z; reflexivity.
Qed.

Lemma leb_key x y :
  is_number x -> is_number y -> (x <=? y) = (fkey x <=? fkey y)%Z.
Proof.
  intros Hx Hy. rewrite leb_spec. unfold SFleb, fkey.
  rewrite (SFcompare_key _ _ (is_number_ok _ Hx) (is_number_ok _ Hy)).
  unfold Z.leb. destruct (_ ?= _)%Z; reflexivity.
Qed.

Lemma eqb_key x y :
  is_number x -> is_number y -> (x =? y) = (fkey x =? fkey y)%Z.
Proof.
  intros Hx Hy. rewrite eqb_spec. unfold SFeqb, fkey.
  rewrite (SFcompare_key _ _ (is_number_ok _ Hx) (is_number_ok _ Hy)).
  destruct (Z.compare_spec (sf_key (Prim2SF x)) (sf_key (Prim2SF y))) as [E | E | E];
    symmetry; [apply Z.eqb_eq | apply Z.eqb_neq | apply Z.eqb_neq]; lia.
Qed.

Lemma leb_true_number x y : (x <=? y) = true -> is_number x /\ is_number y.
Proof.
  rewrite leb_spec. unfold SFleb, is_number.
  destruct (Prim2SF x), (Prim2SF y); cbn; intros H; split; congruence.
Qed.

Lemma sub_pos_key x y :
  is_number x -> is_number y -> (0 <? y - x) = (fkey x <? fkey y)%Z.
Proof.
  intros Hx Hy. rewrite ltb_spec, sub_spec, Prim2SF_zero.
  apply SFsub_sign; now apply is_number_ok.
Qed.

(** [NaN] absorbs the arithmetic operations and fails every comparison. *)
Lemma mul_nan_r x : x * nan = nan.
Proof.
  apply Prim2SF_inj. rewrite mul_spec, Prim2SF_nan.
  destruct (Prim2SF x); reflexivity.
Qed.

Lemma add_nan_r x : x + nan = nan.
Proof.
  apply Prim2SF_inj. rewrite add_spec, Prim2SF_nan.
  destruct (Prim2SF x); reflexivity.
Qed.

Lemma add_nan_l x : nan + x = nan.
Proof.
  apply Prim2SF_inj. rewrite add_spec, Prim2SF_nan. reflexivity.
Qed.

Lemma div_nan_r x : x / nan = nan.
Proof.
  apply Prim2SF_inj. rewrite div_spec, Prim2SF_nan.
  destruct (Prim2SF x); reflexivity.
Qed.

Lemma leb_nan_r x : (x <=? nan) = false.
Proof.
  rewrite leb_spec, Prim2SF_nan. unfold SFleb. destruct (Prim2SF x); reflexivity.
Qed.



End FloatFacts.

(* ================================================================== *)
(** * Rounding errors of the square root, the product and the quotient *)
(* ================================================================== *)

Module RoundingFacts.
Import FloatFacts.

Local Open Scope Z_scope.
Local Abbreviation EMIN := (-1074)%Z (only parsing).

(** ** Rounding a mantissa of 53 digits or more *)






(** ** Shifting with the round and sticky bits *)






(** ** Square root, square and quotient *)






(** ** The three roundings together *)



(** In the lemmas below [E] is [2 ^ 52] and [F] is [2 ^ 50 - 1]; [ms],
    [mq], [mp] and [mr] are the mantissas of a number, of its square root,
    of the square of the root and of the quotient. *)





(** ** A number divided by the square of its square root *)






End RoundingFacts.

(* ================================================================== *)
(** * Facts about the stable sort *)
(* ================================================================== *)

Module SortFacts.
Import Js.

Section Keyed.

Context {A : Type} (comparefn : A -> A -> float) (key : A -> Z) (P : A -> Prop).

(** On the elements that satisfy [P] the comparator is positive exactly
    when the first argument has the smaller key. *)
Hypothesis comparefn_key :
  forall x y, P x -> P y -> (0 <? comparefn x y)%float = (key x <? key y)%Z.

Definition before (a b : A) : Prop := (key b <= key a)%Z.

Lemma sort_insert_perm x l : Permutation (x :: l) (sort_insert comparefn x l).
Proof.
  induction l as [| y l IH]; cbn [sort_insert]; [reflexivity|].
  destruct (0 <? comparefn x y)%float; [|reflexivity].
  rewrite perm_swap. now apply perm_skip.
Qed.

Lemma sort_perm l : Permutation l (sort comparefn l).
Proof.
  induction l as [| x l IH]; cbn [sort fold_right]; [reflexivity|].
  etransitivity; [apply perm_skip, IH | apply sort_insert_perm].
Qed.

Lemma sort_Forall (Q : A -> Prop) l : Forall Q l -> Forall Q (sort comparefn l).
Proof.
  intros H. rewrite Forall_forall in *. intros x Hx. apply H.
  eapply Permutation_in; [symmetry; apply sort_perm | exact Hx].
Qed.

Lemma sort_insert_sorted x l :
  P x -> Forall P l ->
  StronglySorted before l -> StronglySorted before (sort_insert comparefn x l).
Proof.
  intros Px Pl Hs. induction Hs as [| y l Hs IH Hy]; cbn [sort_insert].
  - constructor; constructor.
  - inversion Pl as [| ? ? Py Pl']; subst.
    rewrite comparefn_key by assumption.
    destruct (Z.ltb_spec (key x) (key y)) as [Hlt | Hge].
    + constructor; [now apply IH|].
      rewrite Forall_forall in *. intros z Hz.
      apply (Permutation_in _ (Permutation_sym (sort_insert_perm x l))) in Hz.
      destruct Hz as [<- | Hz]; [unfold before; lia | now apply Hy].
    + constructor; [now constructor|].
      constructor; [exact Hge|].
      rewrite Forall_forall in *. intros z Hz.
      specialize (Hy z Hz). unfold before in *. lia.
Qed.

Lemma sort_sorted l : Forall P l -> StronglySorted before (sort comparefn l).
Proof.
  induction l as [| x l IH]; intros Pl; cbn [sort fold_right]; [constructor|].
  inversion Pl; subst.
  apply sort_insert_sorted; [assumption | now apply sort_Forall | now apply IH].
Qed.

(** Elements with the same key keep their relative order. *)
Lemma sort_insert_stable k x l :
  P x -> Forall P l ->
  filter (fun a => (key a =? k)%Z) (sort_insert comparefn x l) =
  filter (fun a => (key a =? k)%Z) (x :: l).
Proof.
  intros Px Pl. induction Pl as [| y l Py Pl IH]; cbn [sort_insert]; [reflexivity|].
  rewrite comparefn_key by assumption.
  destruct (Z.ltb_spec (key x) (key y)) as [Hlt | Hge]; [|reflexivity].
  cbn [filter] in *. rewrite IH.
  destruct (Z.eqb_spec (key x) k), (Z.eqb_spec (key y) k); try reflexivity; lia.
Qed.

Lemma sort_stable k l :
  Forall P l ->
  filter (fun a => (key a =? k)%Z) (sort comparefn l) =
  filter (fun a => (key a =? k)%Z) l.
Proof.
  induction l as [| x l IH]; intros Pl; cbn [sort fold_right]; [reflexivity|].
  inversion Pl; subst.
  rewrite sort_insert_stable by (try assumption; now apply sort_Forall).
  cbn [filter]. fold (sort comparefn l). now rewrite IH.
Qed.

End Keyed.

Lemma in_firstn {A} (x : A) n l : In x (firstn n l) -> In x l.
Proof.
  intros H. rewrite <- (firstn_skipn n l). apply in_or_app. now left.
Qed.

Lemma StronglySorted_firstn {A} (R : A -> A -> Prop) n l :
  StronglySorted R l -> StronglySorted R (firstn n l).
Proof.
  intros Hs. revert n. induction Hs as [| x l Hs IH Hx]; intros [| n]; cbn [firstn];
    try constructor; [apply IH|].
  rewrite Forall_forall in *. intros y Hy. apply Hx. eapply in_firstn; eauto.
Qed.

Lemma filter_firstn_prefix {A} (f : A -> bool) n l :
  exists rest, filter f l = filter f (firstn n l) ++ rest.
Proof.
  exists (filter f (skipn n l)).
  rewrite <- filter_app, firstn_skipn. reflexivity.
Qed.

Lemma slice_to_firstn {A} stop (l : list A) :
  exists n, slice_to stop l = firstn n l.
Proof. unfold slice_to. eauto. Qed.

Lemma slice_to_length {A} stop (l : list A) :
  (0 <= stop)%Z -> (Z.of_nat (length (slice_to stop l)) <= stop)%Z.
Proof.
  intros H. unfold slice_to.
  destruct (Z.ltb_spec stop 0) as [Hn | _]; [lia|].
  rewrite length_firstn. lia.
Qed.

End SortFacts.

(* ================================================================== *)
(** * Properties of the vector index *)
(* ================================================================== *)

Module VectorStoreFacts.
Import Js VectorStore Notions FloatFacts RoundingFacts SortFacts.

Local Open Scope float_scope.

Lemma eqb_nan_r x : (x =? nan) = false.
Proof.
  rewrite eqb_spec, Prim2SF_nan. unfold SFeqb. destruct (Prim2SF x); reflexivity.
Qed.

Lemma number_or_nan s : is_number s \/ s = nan.
Proof.
  destruct (Prim2SF s) eqn:E; [left | left | right | left];
    try (unfold is_number; rewrite E; discriminate).
  now apply is_nan_eq.
Qed.

Lemma filter_none {A} (f : A -> bool) l :
  (forall x, f x = false) -> filter f l = [].
Proof.
  intros H. induction l as [| x l IH]; cbn [filter]; [reflexivity|].
  now rewrite H.
Qed.

Lemma filter_none_in {A} (f : A -> bool) l :
  (forall x, In x l -> f x = false) -> filter f l = [].
Proof.
  induction l as [| x l IH]; intros H; cbn [filter]; [reflexivity|].
  rewrite (H x) by now left. apply IH. intros y Hy. apply H. now right.
Qed.

Lemma filter_all {A} (f : A -> bool) l :
  (forall x, f x = true) -> filter f l = l.
Proof.
  intros H. induction l as [| x l IH]; cbn [filter]; [reflexivity|].
  now rewrite H, IH.
Qed.

Lemma filter_filter_andb {A} (f g : A -> bool) l :
  filter f (filter g l) = filter (fun x => g x && f x) l.
Proof.
  induction l as [| x l IH]; cbn [filter]; [reflexivity|].
  destruct (g x); cbn [filter andb]; [destruct (f x)|]; now rewrite IH.
Qed.

Lemma StronglySorted_weaken {A} (R R' : A -> A -> Prop) l :
  (forall a b, In a l -> In b l -> R a b -> R' a b) ->
  StronglySorted R l -> StronglySorted R' l.
Proof.
  intros H Hs. induction Hs as [| x l Hs IH Hx]; constructor.
  - apply IH. intros a b Ha Hb. apply H; now right.
  - rewrite Forall_forall in *. intros y Hy.
    apply H; [now left | now right | now apply Hx].
Qed.

(** The key of a scored fragment, and what the comparator of
    [searchSimilar] answers on fragments whose score is a number. *)
Definition rank (r : result) : Z := fkey (similarity r).

Definition scored (r : result) : Prop := is_number (similarity r).

Lemma by_similarity_desc_key x y :
  scored x -> scored y -> (0 <? by_similarity_desc x y) = (rank x <? rank y)%Z.
Proof. intros Hx Hy. unfold by_similarity_desc, rank. now apply sub_pos_key. Qed.

Lemma above_floor_scored floor l :
  Forall scored (filter (fun doc => floor <=? similarity doc) l).
Proof.
  rewrite Forall_forall. intros r Hr. apply filter_In in Hr.
  destruct Hr as [_ Hr]. now apply leb_true_number in Hr.
Qed.

(** C1. [searchSimilar] returns at most [topK] fragments (for a count
    [topK] that is not negative), each with a similarity at or above the
    floor, in non-increasing order of similarity; among fragments of equal
    similarity the order of the table is kept: for every value [s] the
    returned fragments scored [s] are the first candidates scored [s]
    that pass the floor, in table order. *)
Theorem searchSimilar_ranked
  (queryEmbedding : list float) (topK : Z) (similarityThreshold : float)
  (filenameFilter : option string) (db : table) :
  (0 <= topK)%Z ->
  let found := searchSimilar queryEmbedding topK similarityThreshold filenameFilter db in
  (Z.of_nat (length found) <= topK)%Z /\
  Forall (fun r => (similarityThreshold <=? similarity r) = true) found /\
  StronglySorted (fun a b => (similarity b <=? similarity a) = true) found /\
  forall s, exists rest,
    filter (fun r => (similarityThreshold <=? similarity r) && (similarity r =? s))
      (map (score queryEmbedding) (select_documents filenameFilter db)) =
    filter (fun r => similarity r =? s) found ++ rest.
Proof.
  intros HtopK found. unfold searchSimilar in found.
  set (cands := map (score queryEmbedding) (select_documents filenameFilter db)) in *.
  set (L := filter (fun doc => similarityThreshold <=? similarity doc) cands) in *.
  set (S := sort by_similarity_desc L) in *.
  assert (PL : Forall scored L) by apply above_floor_scored.
  assert (PS : Forall scored S) by (apply sort_Forall; exact PL).
  destruct (slice_to_firstn topK S) as [n Hn]. fold found in Hn.
  assert (Pf : Forall scored found).
  { rewrite Hn. rewrite Forall_forall in *. intros r Hr. apply PS. eapply in_firstn; eauto. }
  split; [|split; [|split]].
  - now apply slice_to_length.
  - rewrite Forall_forall. intros r Hr. rewrite Hn in Hr. apply in_firstn in Hr.
    apply (Permutation_in _ (Permutation_sym (sort_perm by_similarity_desc L))) in Hr.
    apply filter_In in Hr. tauto.
  - rewrite Hn. apply StronglySorted_firstn.
    apply StronglySorted_weaken with (R := before rank).
    + intros a b Ha Hb Hab. rewrite Forall_forall in PS.
      rewrite leb_key by (apply PS; assumption).
      apply Z.leb_le. exact Hab.
    + apply sort_sorted with (P := scored); [apply by_similarity_desc_key | exact PL].
  - intros s. rewrite Hn.
    destruct (number_or_nan s) as [Hs | ->].
    + destruct (filter_firstn_prefix (fun r => similarity r =? s) n S) as [rest Hrest].
      exists rest. rewrite <- Hrest.
      rewrite <- filter_filter_andb. fold L.
      rewrite (filter_ext_in (fun r => similarity r =? s) (fun r => (rank r =? fkey s)%Z) L).
      2:{ intros r Hr. rewrite Forall_forall in PL. apply eqb_key; [now apply PL | exact Hs]. }
      rewrite (filter_ext_in (fun r => similarity r =? s) (fun r => (rank r =? fkey s)%Z) S).
      2:{ intros r Hr. rewrite Forall_forall in PS. apply eqb_key; [now apply PS | exact Hs]. }
      symmetry. apply sort_stable with (P := scored); [apply by_similarity_desc_key | exact PL].
    + exists []. rewrite !filter_none; [reflexivity | |]; intros r; rewrite eqb_nan_r;
        [reflexivity | apply andb_false_r].
Qed.

Lemma searchSimilar_ranked_witness :
  (0 <= 2)%Z /\
  let found := searchSimilar [1; 0] 2 0.25 None
                 [sample_row "a" "f" [0; 1]; sample_row "b" "f" [1; 1];
                  sample_row "c" "f" [2; 0]; sample_row "d" "f" [3; 3]] in
  (Z.of_nat (length found) <= 2)%Z /\
  Forall (fun r => (0.25 <=? similarity r) = true) found /\
  StronglySorted (fun a b => (similarity b <=? similarity a) = true) found /\
  forall s, exists rest,
    filter (fun r => (0.25 <=? similarity r) && (similarity r =? s))
      (map (score [1; 0]) (select_documents None
         [sample_row "a" "f" [0; 1]; sample_row "b" "f" [1; 1];
          sample_row "c" "f" [2; 0]; sample_row "d" "f" [3; 3]])) =
    filter (fun r => similarity r =? s) found ++ rest.
Proof.
  split; [lia|].
  apply (searchSimilar_ranked [1; 0] 2 0.25 None
           [sample_row "a" "f" [0; 1]; sample_row "b" "f" [1; 1];
            sample_row "c" "f" [2; 0]; sample_row "d" "f" [3; 3]]).
  lia.
Defined.

(** ** The cosine loop, read element by element *)

Definition accumulate_step (acc : float * float * float) (ai bi : float)
  : float * float * float :=
  let '(dotProduct, magnitudeA, magnitudeB) := acc in
  (dotProduct + ai * bi, magnitudeA + ai * ai, magnitudeB + bi * bi).

Fixpoint accumulate (a b : list float) (acc : float * float * float)
  : float * float * float :=
  match a with
  | [] => acc
  | ai :: a' => accumulate a' (tl b) (accumulate_step acc ai (hd nan b))
  end.

Definition index_step (a b : list float) (acc : float * float * float) (i : nat) :=
  accumulate_step acc (num_at a i) (num_at b i).

Lemma fold_left_pointwise {A B} (f g : A -> B -> A) l :
  (forall acc x, f acc x = g acc x) ->
  forall acc, fold_left f l acc = fold_left g l acc.
Proof.
  intros H. induction l as [| x l IH]; intros acc; cbn [fold_left]; [reflexivity|].
  now rewrite H, IH.
Qed.

Lemma cosine_loop_index a b :
  cosine_loop a b = fold_left (index_step a b) (seq 0 (length a)) (0, 0, 0).
Proof.
  unfold cosine_loop. apply fold_left_pointwise. now intros [[d ma] mb] i.
Qed.

Lemma index_step_shift x a b n : forall k acc,
  fold_left (index_step (x :: a) b) (seq (S k) n) acc =
  fold_left (index_step a (tl b)) (seq k n) acc.
Proof.
  induction n as [| n IH]; intros k acc; cbn [seq fold_left]; [reflexivity|].
  rewrite IH. f_equal. unfold index_step, num_at. f_equal.
  destruct b as [| y b]; cbn [tl nth]; [now destruct k | reflexivity].
Qed.

Lemma fold_index_accumulate a : forall b acc,
  fold_left (index_step a b) (seq 0 (length a)) acc = accumulate a b acc.
Proof.
  induction a as [| x a IH]; intros b acc; [reflexivity|].
  cbn [length seq fold_left accumulate].
  rewrite index_step_shift, IH. f_equal.
  unfold index_step, num_at. f_equal. now destruct b.
Qed.

Lemma cosine_loop_accumulate a b : cosine_loop a b = accumulate a b (0, 0, 0).
Proof. rewrite cosine_loop_index. apply fold_index_accumulate. Qed.

Definition finish (acc : float * float * float) : float :=
  let '(dotProduct, magnitudeA, magnitudeB) := acc in
  if (sqrt magnitudeA =? 0) || (sqrt magnitudeB =? 0) then 0
  else dotProduct / (sqrt magnitudeA * sqrt magnitudeB).

Lemma cosineSimilarity_accumulate a b :
  cosineSimilarity a b = finish (accumulate a b (0, 0, 0)).
Proof.
  unfold cosineSimilarity. rewrite cosine_loop_accumulate.
  now destruct (accumulate a b (0, 0, 0)) as [[d ma] mb].
Qed.





Lemma accumulate_longer q : forall e extra acc,
  length e = length q -> accumulate q (e ++ extra) acc = accumulate q e acc.
Proof.
  induction q as [| x q IH]; intros e extra acc He; [reflexivity|].
  destruct e as [| y e]; [discriminate|].
  cbn [accumulate app hd tl]. apply IH. now injection He.
Qed.

Lemma div_nan_l x : nan / x = nan.
Proof. apply Prim2SF_inj. rewrite div_spec, Prim2SF_nan. reflexivity. Qed.

Lemma accumulate_missing q : forall ma,
  accumulate q [] (nan, ma, nan) = (nan, sum_squares q ma, nan).
Proof.
  induction q as [| x q IH]; intros ma; [reflexivity|].
  cbn [accumulate accumulate_step hd tl sum_squares fold_left].
  rewrite add_nan_l. change (nan + nan * nan) with nan. apply IH.
Qed.

Lemma accumulate_shorter q : forall e d ma mb,
  (length e < length q)%nat ->
  accumulate q e (d, ma, mb) = (nan, sum_squares q ma, nan).
Proof.
  induction q as [| x q IH]; intros e d ma mb He; [cbn in He; lia|].
  destruct e as [| y e]; cbn [accumulate accumulate_step hd tl sum_squares fold_left].
  - rewrite mul_nan_r, add_nan_r. change (nan * nan) with nan. rewrite add_nan_r.
    apply accumulate_missing.
  - apply IH. cbn [length] in He. lia.
Qed.

Lemma cosineSimilarity_shorter q e :
  (length e < length q)%nat ->
  cosineSimilarity q e = if sqrt (sum_squares q 0) =? 0 then 0 else nan.
Proof.
  intros He. rewrite cosineSimilarity_accumulate, accumulate_shorter by assumption.
  unfold finish. change (sqrt nan =? 0) with false. rewrite orb_false_r.
  destruct (sqrt (sum_squares q 0) =? 0); [reflexivity | apply div_nan_l].
Qed.



(** A sum of squares far below the smallest normal number: the squares of
    [[0x1.7p-537]] add up to [2 ^ -1073], two units of the last place, and
    the similarity is 1. *)
Lemma cosineSimilarity_subnormal_example :
  sum_squares [0x1.7p-537] 0 = 0x1p-1073 /\
  (0x1p-1073 <? 0x1p-1022) = true /\
  cosineSimilarity [0x1.7p-537] [0x1.7p-537] = 1.
Proof. repeat split; vm_compute; reflexivity. Qed.


Lemma in_select_documents filenameFilter db doc :
  In doc (select_documents filenameFilter db) -> In doc db.
Proof.
  unfold select_documents. destruct filenameFilter as [[| c f] |]; try tauto.
  intros H. apply filter_In in H. tauto.
Qed.

Lemma searchSimilar_origin queryEmbedding topK floor filenameFilter db r :
  In r (searchSimilar queryEmbedding topK floor filenameFilter db) ->
  exists doc, In doc db /\ r = score queryEmbedding doc /\
              (floor <=? similarity r) = true.
Proof.
  unfold searchSimilar. intros H.
  destruct (slice_to_firstn topK
              (sort by_similarity_desc
                 (filter (fun doc => floor <=? similarity doc)
                    (map (score queryEmbedding)
                       (select_documents filenameFilter db))))) as [n Hn].
  rewrite Hn in H. apply in_firstn in H.
  apply (Permutation_in _ (Permutation_sym (sort_perm by_similarity_desc _))) in H.
  apply filter_In in H. destruct H as [H Hfloor].
  apply in_map_iff in H. destruct H as (doc & <- & Hdoc).
  exists doc. split; [eapply in_select_documents; eauto | auto].
Qed.

(** C8 (amended). A length mismatch raises no error.  A stored embedding
    longer than the query is scored from its first components, those the
    query has.  A stored embedding shorter than the query is scored [NaN]
    unless the query has magnitude 0 (then 0); [searchSimilar] hands out
    such a fragment only with similarity 0, and otherwise drops it. *)
Theorem length_mismatch_scored_or_dropped (queryEmbedding : list float) :
  (forall e extra, length e = length queryEmbedding ->
     cosineSimilarity queryEmbedding (e ++ extra) = cosineSimilarity queryEmbedding e) /\
  (forall e, (length e < length queryEmbedding)%nat ->
     cosineSimilarity queryEmbedding e =
     if sqrt (sum_squares queryEmbedding 0) =? 0 then 0 else nan) /\
  (forall topK floor filenameFilter db r,
     In r (searchSimilar queryEmbedding topK floor filenameFilter db) ->
     exists doc, In doc db /\ r = score queryEmbedding doc /\
       ((length (embedding doc) < length queryEmbedding)%nat -> similarity r = 0)).
Proof.
  split; [|split].
  - intros e extra He. rewrite !cosineSimilarity_accumulate.
    now rewrite accumulate_longer.
  - apply cosineSimilarity_shorter.
  - intros topK floor filenameFilter db r Hr.
    apply searchSimilar_origin in Hr. destruct Hr as (doc & Hdoc & -> & Hfloor).
    exists doc. split; [assumption | split; [reflexivity|]].
    intros Hshort. cbn [score similarity] in *.
    rewrite cosineSimilarity_shorter in * by assumption.
    destruct (sqrt (sum_squares queryEmbedding 0) =? 0); [reflexivity|].
    now rewrite leb_nan_r in Hfloor.
Qed.

(** C8 as stated fails: with a stored embedding of length 3 and a query
    of length 2 the search returns that fragment with similarity 1; with
    a stored embedding of length 1 it returns an empty answer. *)
Lemma length_mismatch_counterexample :
  map similarity
    (searchSimilar [1; 0] 3 0.25 None [sample_row "a" "f" [1; 0; 5]]) = [1] /\
  searchSimilar [1; 2] 3 0.25 None [sample_row "a" "f" [1]] = [].
Proof. split; vm_compute; reflexivity. Qed.

(** ** The table on examples *)

Example sort_example :
  map r_id
    (searchSimilar [1; 0] 10 0 None
       [sample_row "a" "f" [0; 1]; sample_row "b" "f" [2; 0];
        sample_row "c" "g" [1; 1]; sample_row "d" "f" [5; 0]]) =
    ["b"; "d"; "c"; "a"]%string.
Proof. vm_compute. reflexivity. Qed.

Example stats_example :
  getDocumentStats
    [sample_row "1" "b.pdf" []; sample_row "2" "a.pdf" []; sample_row "3" "b.pdf" []] =
    {| totalDocuments := 3; files := [("a.pdf"%string, 1%nat); ("b.pdf"%string, 2%nat)] |}.
Proof. reflexivity. Qed.

Example replace_example :
  map id
    (insert_or_replace (sample_row "1" "b.pdf" [])
       [sample_row "1" "a.pdf" []; sample_row "2" "a.pdf" []]) = ["2"; "1"]%string.
Proof. reflexivity. Qed.

(** ** Re-ingestion *)

Definition strip (r : row) : row :=
  {| id := id r; filename := filename r; text := text r; embedding := embedding r;
     page := page r; char_start := char_start r; char_end := char_end r;
     created_at := 0 |}.

Definition fresh_id (ids : list string) (x : row) : bool :=
  negb (existsb (String.eqb (id x)) ids).

Lemma insertChunksBatch_cons now c chunks db :
  insertChunksBatch now (c :: chunks) db =
  insertChunksBatch now chunks (insert_or_replace (row_of_chunk now c) db).
Proof. reflexivity. Qed.

Lemma filter_fresh_cons c ids db :
  filter (fresh_id ids) (filter (fun x => negb (String.eqb (id x) c)) db) =
  filter (fresh_id (c :: ids)) db.
Proof.
  rewrite filter_filter_andb. apply filter_ext. intros x.
  unfold fresh_id. cbn [existsb]. now rewrite negb_orb.
Qed.

Lemma insertChunksBatch_split now chunks : forall db,
  insertChunksBatch now chunks db =
  filter (fresh_id (map c_id chunks)) db ++ insertChunksBatch now chunks [].
Proof.
  induction chunks as [| c chunks IH]; intros db.
  - cbn [map insertChunksBatch fold_left]. rewrite app_nil_r.
    symmetry. now apply filter_all.
  - rewrite !insertChunksBatch_cons.
    rewrite IH. rewrite (IH (insert_or_replace _ [])).
    unfold insert_or_replace. cbn [filter app map].
    rewrite filter_app, filter_fresh_cons, <- app_assoc. reflexivity.
Qed.

Lemma insertChunksBatch_ids now chunks : forall db x,
  In x (insertChunksBatch now chunks db) ->
  In x db \/ existsb (String.eqb (id x)) (map c_id chunks) = true.
Proof.
  induction chunks as [| c chunks IH]; intros db x Hx; [now left|].
  rewrite insertChunksBatch_cons in Hx. apply IH in Hx.
  cbn [map existsb]. destruct Hx as [Hx | Hx].
  - unfold insert_or_replace in Hx. apply in_app_or in Hx.
    destruct Hx as [Hx | [<- | []]].
    + apply filter_In in Hx. now left.
    + right. cbn [row_of_chunk id]. now rewrite String.eqb_refl.
  - right. rewrite Hx. apply orb_true_r.
Qed.

Lemma insertChunksBatch_no_fresh now chunks :
  filter (fresh_id (map c_id chunks)) (insertChunksBatch now chunks []) = [].
Proof.
  apply filter_none_in. intros x Hx.
  apply insertChunksBatch_ids in Hx. destruct Hx as [[] | Hx].
  unfold fresh_id. now rewrite Hx.
Qed.

Lemma strip_filter_id (f : string -> bool) db :
  map strip (filter (fun x => f (id x)) db) =
  filter (fun x => f (id x)) (map strip db).
Proof.
  induction db as [| x db IH]; [reflexivity|].
  cbn [filter map]. change (id (strip x)) with (id x).
  destruct (f (id x)); cbn [map]; now rewrite IH.
Qed.

Lemma strip_insert_or_replace now1 now2 c db1 db2 :
  map strip db1 = map strip db2 ->
  map strip (insert_or_replace (row_of_chunk now1 c) db1) =
  map strip (insert_or_replace (row_of_chunk now2 c) db2).
Proof.
  intros H. unfold insert_or_replace. rewrite !map_app.
  change (id (row_of_chunk now1 c)) with (c_id c).
  change (id (row_of_chunk now2 c)) with (c_id c).
  rewrite !(strip_filter_id (fun i => negb (String.eqb i (c_id c)))), H.
  reflexivity.
Qed.

Lemma strip_insertChunksBatch now1 now2 chunks : forall db1 db2,
  map strip db1 = map strip db2 ->
  map strip (insertChunksBatch now1 chunks db1) =
  map strip (insertChunksBatch now2 chunks db2).
Proof.
  induction chunks as [| c chunks IH]; intros db1 db2 H; [exact H|].
  rewrite !insertChunksBatch_cons. apply IH. now apply strip_insert_or_replace.
Qed.

(** A second run of the same batch leaves the table as it was, up to the
    time stamps of the rewritten rows. *)
Lemma insertChunksBatch_again now1 now2 chunks db :
  map strip (insertChunksBatch now2 chunks (insertChunksBatch now1 chunks db)) =
  map strip (insertChunksBatch now1 chunks db).
Proof.
  rewrite (insertChunksBatch_split now2 chunks (insertChunksBatch now1 chunks db)).
  rewrite (insertChunksBatch_split now1 chunks db) at 1.
  rewrite filter_app, insertChunksBatch_no_fresh, app_nil_r.
  rewrite filter_filter_andb.
  rewrite (filter_ext _ (fresh_id (map c_id chunks)) (fun x => andb_diag _)).
  rewrite (insertChunksBatch_split now1 chunks db), !map_app.
  f_equal. apply strip_insertChunksBatch. reflexivity.
Qed.

Lemma filenames_strip db : map filename (map strip db) = map filename db.
Proof. rewrite map_map. reflexivity. Qed.

Lemma group_by_filename_names db :
  group_by_filename db = fold_left (fun acc f => count_in f acc) (map filename db) [].
Proof.
  unfold group_by_filename. generalize (@nil (string * nat)).
  induction db as [| x db IH]; intros acc; [reflexivity|]. cbn [map fold_left]. apply IH.
Qed.

Lemma getChunkCount_names f db :
  getChunkCount f db = length (filter (fun g => String.eqb g f) (map filename db)).
Proof.
  unfold getChunkCount. induction db as [| x db IH]; [reflexivity|].
  cbn [filter map]. destruct (String.eqb (filename x) f); cbn [length]; now rewrite IH.
Qed.

(** The primary key stays a key. *)
Lemma insert_or_replace_unique r db :
  NoDup (map id db) -> NoDup (map id (insert_or_replace r db)).
Proof.
  intros H. unfold insert_or_replace. rewrite map_app. cbn [map].
  apply NoDup_app.
  - induction db as [| x db IH]; [constructor|].
    inversion H as [| ? ? Hx Hdb]; subst. cbn [filter].
    destruct (negb (String.eqb (id x) (id r))); [|now apply IH].
    cbn [map]. constructor; [|now apply IH].
    intros Hin. apply Hx. apply in_map_iff in Hin. destruct Hin as (y & Hy & Hin).
    apply filter_In in Hin. apply in_map_iff. exists y. tauto.
  - repeat constructor. intros [].
  - intros i Hi [<- | []]. apply in_map_iff in Hi. destruct Hi as (y & Hy & Hin).
    apply filter_In in Hin. destruct Hin as [_ Hin].
    rewrite Hy, String.eqb_refl in Hin. discriminate.
Qed.

Lemma insertChunksBatch_unique now chunks : forall db,
  NoDup (map id db) -> NoDup (map id (insertChunksBatch now chunks db)).
Proof.
  induction chunks as [| c chunks IH]; intros db H; [exact H|].
  rewrite insertChunksBatch_cons. apply IH. now apply insert_or_replace_unique.
Qed.

(** C9. Running the batch of an ingestion a second time, with the same
    fragments and ids, changes neither the total nor any per-source count
    reported by [getDocumentStats] (nor [getChunkCount]). *)
Theorem reingestion_keeps_stats (now1 now2 : Z) (chunks : list chunk) (db : table) :
  let once := insertChunksBatch now1 chunks db in
  let twice := insertChunksBatch now2 chunks once in
  getDocumentStats twice = getDocumentStats once /\
  forall f, getChunkCount f twice = getChunkCount f once.
Proof.
  intros once twice.
  assert (H : map filename twice = map filename once).
  { rewrite <- (filenames_strip twice), <- (filenames_strip once).
    unfold twice, once. now rewrite insertChunksBatch_again. }
  split.
  - unfold getDocumentStats. rewrite !group_by_filename_names, H.
    f_equal. rewrite <- (length_map filename twice), <- (length_map filename once).
    now rewrite H.
  - intros f. now rewrite !getChunkCount_names, H.
Qed.

End VectorStoreFacts.

(* ================================================================== *)
(** * Properties of the streaming orchestrator *)
(* ================================================================== *)

Module RagServiceFacts.
Import VectorStore RagService Notions.

Local Open Scope string_scope.

Section Relay.

Variable toFixed4 : float -> string.
Variable print_int : Z -> string.
Variable formatResponseAsHTML : string -> string.
Variable buildRAGPrompt : string -> string -> bool -> string.
Variable generateLLMResponseStream : string -> generation.

Let handle :=
  handleStreamingRAGResponse toFixed4 print_int formatResponseAsHTML
    buildRAGPrompt generateLLMResponseStream.
Let sources := buildSourcesMetadata toFixed4 print_int.
Let prompt_of (query : string) (topDocs : list result) (strict : bool) :=
  buildRAGPrompt (join_blank (map r_text topDocs)) query strict.

Definition open_without_sentinel (r : response) : Prop :=
  ended r = false /\ ~ In Sentinel (written r).

Lemma write_open f r :
  f <> Sentinel -> open_without_sentinel r -> open_without_sentinel (write f r).
Proof.
  intros Hf [He Hs]. unfold write. rewrite He. split; [reflexivity|].
  cbn [written]. intros H. apply in_app_or in H.
  destruct H as [H | [H | []]]; [tauto | congruence].
Qed.

Lemma on_line_quiet st line :
  quiet_line line = true ->
  open_without_sentinel (res st) ->
  open_without_sentinel (res (on_line formatResponseAsHTML st line)).
Proof.
  intros Hq Ho. destruct line as [| response [|]]; try discriminate; cbn [on_line].
  - exact Ho.
  - destruct response; [exact Ho|]. cbn [res]. apply write_open; [discriminate | exact Ho].
Qed.

Lemma on_lines_quiet lines : forall st,
  forallb quiet_line lines = true ->
  open_without_sentinel (res st) ->
  open_without_sentinel (res (fold_left (on_line formatResponseAsHTML) lines st)).
Proof.
  induction lines as [| line lines IH]; intros st Hq Ho; [exact Ho|].
  cbn [forallb] in Hq. apply andb_prop in Hq. destruct Hq as [Hq1 Hq2].
  cbn [fold_left]. apply IH; [exact Hq2 | now apply on_line_quiet].
Qed.

Lemma on_events_quiet events : forall st,
  forallb quiet_event events = true ->
  open_without_sentinel (res st) ->
  open_without_sentinel (res (fold_left (on_event formatResponseAsHTML) events st)).
Proof.
  induction events as [| ev events IH]; intros st Hq Ho; [exact Ho|].
  cbn [forallb] in Hq. apply andb_prop in Hq. destruct Hq as [Hq1 Hq2].
  cbn [fold_left]. apply IH; [exact Hq2|].
  destruct ev as [lines | message]; [|discriminate].
  now apply on_lines_quiet.
Qed.

Lemma append_assoc (a b c : string) : (a ++ b) ++ c = a ++ (b ++ c).
Proof. induction a as [| x a IH]; cbn; [reflexivity | now rewrite IH]. Qed.

Lemma append_empty_r (a : string) : a ++ "" = a.
Proof. induction a as [| x a IH]; cbn; [reflexivity | now rewrite IH]. Qed.

(** Any increments, none of them empty, are relayed one token each, in
    order, and followed by the completion with the whole text. *)
Lemma relay_increments incs : forall st,
  ended (res st) = false ->
  Forall (fun s => s <> "") incs ->
  fold_left (on_event formatResponseAsHTML) (increments incs) st =
  let raw := fullResponse st ++ fold_right append "" incs in
  {| fullResponse := raw;
     res := {| written := (written (res st) ++ map Token incs
                           ++ [Done (formatResponseAsHTML raw) raw; Sentinel])%list;
               ended := true |} |}.
Proof.
  induction incs as [| s incs IH]; intros st He Hne.
  - cbn. unfold write. rewrite He. cbn. unfold end_. cbn. unfold write. cbn.
    now rewrite append_empty_r, <- app_assoc.
  - inversion Hne as [| ? ? Hs Hne']; subst.
    change (increments (s :: incs)) with (Data [Json s false] :: increments incs).
    cbn [fold_left on_event on_line].
    destruct s as [| c s]; [now contradiction Hs|].
    rewrite IH; [|cbn [res]; unfold write; now rewrite He | exact Hne'].
    cbn [fullResponse res fold_right map]. unfold write. rewrite He. cbn [written].
    rewrite append_assoc, <- !app_assoc. reflexivity.
Qed.

(** C5. When the generation produces the increments "Hello" and
    " world" and then completes, the caller receives the citations, the
    two tokens in order, the completion with the display form and the raw
    text, then the sentinel, and the response is closed. *)
Theorem streaming_hello_world (query : string) (topDocs : list result) (strict : bool) :
  generateLLMResponseStream (prompt_of query topDocs strict) =
    Stream (increments ["Hello"; " world"]) ->
  handle query topDocs strict fresh =
    ({| written := [Sources (sources topDocs);
                    Token "Hello";
                    Token " world";
                    Done (formatResponseAsHTML "Hello world") "Hello world";
                    Sentinel];
        ended := true |},
     Returned tt).
Proof.
  intros H. unfold handle, handleStreamingRAGResponse.
  unfold prompt_of in H. rewrite H. reflexivity.
Qed.

(** C6 on the code: when the stream fails after it has started and
    before completion, the response ends with the error event and is
    closed; no sentinel is ever written. *)
Theorem stream_error_closes_without_sentinel
  (query : string) (topDocs : list result) (strict : bool)
  (events : list stream_event) (message : string) :
  forallb quiet_event events = true ->
  generateLLMResponseStream (prompt_of query topDocs strict) =
    Stream (events ++ [StreamError message])%list ->
  let r := fst (handle query topDocs strict fresh) in
  ended r = true /\
  (exists sent, written r = (sent ++ [Error message])%list) /\
  ~ In Sentinel (written r).
Proof.
  intros Hq H. cbv zeta. unfold handle, handleStreamingRAGResponse.
  unfold prompt_of in H. rewrite H. cbn [fst].
  rewrite fold_left_app. cbn [fold_left on_event].
  set (st := fold_left (on_event formatResponseAsHTML) events _).
  assert (Ho : open_without_sentinel (res st)).
  { apply on_events_quiet; [exact Hq|].
    cbn [res]. apply write_open; [discriminate | split; [reflexivity | intros []]]. }
  destruct Ho as [He Hs]. cbn [res end_ written ended].
  unfold write. rewrite He. cbn [written ended].
  split; [reflexivity | split; [eauto|]].
  intros Hin. apply in_app_or in Hin. destruct Hin as [Hin | [Hin | []]];
    [tauto | discriminate].
Qed.

Section Route.

Variable generateEmbedding : string -> outcome (list float).

(** The sibling path: when the generation request itself fails, the
  route handler sends the error event and then the sentinel. *)
Lemma request_error_sends_sentinel
(query : string) (strict : bool) (db : table) (topK : Z) (threshold : float)
(topDocs : list result) (message : string) :
performRAGSearch generateEmbedding query db topK threshold = Returned topDocs ->
generateLLMResponseStream (prompt_of query topDocs strict) = Unavailable message ->
query_stream toFixed4 print_int formatResponseAsHTML buildRAGPrompt
  generateEmbedding generateLLMResponseStream query strict db topK threshold =
{| written := [Sources (sources topDocs); Error message; Sentinel];
   ended := true |}.
Proof.
intros Hs Hg. unfold query_stream, handleStreamingRAGResponse.
rewrite Hs. unfold prompt_of in Hg. rewrite Hg. reflexivity.
Qed.

End Route.

End Relay.

Lemma streaming_hello_world_witness :
  (fun _ : string => Stream (increments ["Hello"; " world"])) "prompt" =
    Stream (increments ["Hello"; " world"]) /\
  handleStreamingRAGResponse (fun _ => "0.0000") (fun _ => "1") (fun s => s)
    (fun _ _ _ => "prompt") (fun _ => Stream (increments ["Hello"; " world"]))
    "What are cats?" [] true fresh =
  ({| written := [Sources []; Token "Hello"; Token " world";
                  Done "Hello world" "Hello world"; Sentinel];
      ended := true |},
   Returned tt).
Proof.
  split; [reflexivity|].
  apply (streaming_hello_world (fun _ => "0.0000") (fun _ => "1") (fun s => s)
           (fun _ _ _ => "prompt") (fun _ => Stream (increments ["Hello"; " world"]))
           "What are cats?" [] true).
  reflexivity.
Defined.

Lemma stream_error_closes_without_sentinel_witness :
  forallb quiet_event [Data [Json "Hello" false]] = true /\
  (let r := fst (handleStreamingRAGResponse (fun _ => "0.0000") (fun _ => "1")
                   (fun s => s) (fun _ _ _ => "prompt")
                   (fun _ => Stream ([Data [Json "Hello" false]] ++
                                     [StreamError "socket hang up"])%list)
                   "What are cats?" [] true fresh) in
   ended r = true /\
   (exists sent, written r = (sent ++ [Error "socket hang up"])%list) /\
   ~ In Sentinel (written r)).
Proof.
  split; [reflexivity|].
  apply (stream_error_closes_without_sentinel (fun _ => "0.0000") (fun _ => "1")
           (fun s => s) (fun _ _ _ => "prompt")
           (fun _ => Stream ([Data [Json "Hello" false]] ++
                             [StreamError "socket hang up"])%list)
           "What are cats?" [] true [Data [Json "Hello" false]] "socket hang up");
    reflexivity.
Defined.

End RagServiceFacts.

(* ================================================================== *)
(** * Properties of the segmenter *)
(* ================================================================== *)

Module ChunkingFacts.
Import Js Chunking Notions.

(** ** The primitives on examples *)

Example normalize_example : normalize (lit "  a   b. c  ") = lit "a b. c".
Proof. reflexivity. Qed.

Example split_ws_example :
  split_ws false (lit " a  b c ") = [lit ""; lit "a"; lit "b"; lit "c"; lit ""].
Proof. reflexivity. Qed.

(** A mark that is not followed by whitespace does not end a sentence,
    and the text before it is skipped; text without a final mark is not
    matched. *)
Example match_sentences_example :
  match_sentences (lit "One. Two!? three What?Yes. no end") =
    [lit "One. "; lit "Two!? "; lit "Yes. "].
Proof. reflexivity. Qed.

Example slice_examples :
  slice_to 2 [1; 2; 3] = [1; 2] /\ slice_to (-1) [1; 2; 3] = [1; 2] /\
  slice_to 5 [1; 2; 3] = [1; 2; 3] /\ slice_from (-1) [1; 2; 3] = [3] /\
  slice_from (-5) [1; 2; 3] = [1; 2; 3].
Proof. repeat split. Qed.

Example overlap_example :
  splitIntoSemanticChunks
    (lit "Cats are mammals. Dogs are mammals too. And birds! Yes.") 40 1 =
    [lit "Cats are mammals. Dogs are mammals too.";
     lit "Dogs are mammals too. And birds! Yes."].
Proof. vm_compute. reflexivity. Qed.

(** ** Lengths of the string primitives *)

Lemma take_drop_while p s : take_while p s ++ drop_while p s = s.
Proof.
  induction s as [| c s IH]; [reflexivity|].
  cbn [take_while drop_while]. destruct (p c); [cbn; now rewrite IH | reflexivity].
Qed.

Lemma take_while_all p s : forallb p (take_while p s) = true.
Proof.
  induction s as [| c s IH]; [reflexivity|].
  cbn [take_while]. destruct (p c) eqn:E; [cbn; now rewrite E | reflexivity].
Qed.

Lemma drop_while_length p s : length (drop_while p s) <= length s.
Proof.
  induction s as [| c s IH]; [reflexivity|].
  cbn [drop_while]. destruct (p c); cbn [length]; lia.
Qed.

Lemma drop_while_all p u v : forallb p u = true -> drop_while p (u ++ v) = drop_while p v.
Proof.
  induction u as [| c u IH]; intros H; [reflexivity|].
  cbn [forallb] in H. apply andb_prop in H. destruct H as [Hc Hu].
  cbn [app drop_while]. rewrite Hc. now apply IH.
Qed.

Lemma drop_while_app_keep p u v :
  drop_while p u <> [] -> drop_while p (u ++ v) = drop_while p u ++ v.
Proof.
  induction u as [| c u IH]; intros H; [now contradiction H|].
  cbn [app drop_while] in *. destruct (p c); [now apply IH | reflexivity].
Qed.

Lemma drop_while_nil_all p u : drop_while p u = [] -> forallb p u = true.
Proof.
  induction u as [| c u IH]; intros H; [reflexivity|].
  cbn [drop_while forallb] in *. destruct (p c); [now apply IH | discriminate].
Qed.

Lemma trim_length s : length (trim s) <= length s.
Proof.
  unfold trim. rewrite length_rev.
  etransitivity; [apply drop_while_length|]. rewrite length_rev.
  apply drop_while_length.
Qed.

(** Trailing whitespace does not change the trimmed text. *)
Lemma trim_app_spaces s ws : forallb is_space ws = true -> trim (s ++ ws) = trim s.
Proof.
  intros Hws. unfold trim.
  destruct (drop_while is_space s) as [| c r] eqn:E.
  - rewrite drop_while_all by now apply drop_while_nil_all.
    rewrite <- (app_nil_r ws), drop_while_all by assumption. reflexivity.
  - rewrite drop_while_app_keep by (rewrite E; discriminate).
    rewrite E, rev_app_distr. rewrite drop_while_all; [reflexivity|].
    rewrite forallb_forall in *. intros x Hx. apply Hws. now apply in_rev.
Qed.

Lemma replace_runs_length p r s : forall b,
  length (replace_runs p r b s) <= length s.
Proof.
  induction s as [| c s IH]; intros b; [reflexivity|].
  cbn [replace_runs]. destruct (p c); [destruct b|]; cbn [length];
    pose proof (IH true); pose proof (IH false); lia.
Qed.

Lemma normalize_length text : length (normalize text) <= length text.
Proof.
  unfold normalize. etransitivity; [apply trim_length|].
  etransitivity; apply replace_runs_length.
Qed.

(** ** The sentence pattern *)

(** A match is a non-empty core followed by a whitespace run; the run is
    empty only when the match reaches the end of the text. *)
Lemma sentence_match_at_shape s n :
  sentence_match_at s = Some n ->
  exists core ws,
    firstn n s = core ++ ws /\ forallb is_space ws = true /\
    n = length core + length ws /\ n <= length s /\ 0 < length core /\
    (ws = [] -> skipn n s = []).
Proof.
  unfold sentence_match_at.
  pose proof (take_drop_while not_punct s) as E1.
  pose proof (take_drop_while is_punct (drop_while not_punct s)) as E2.
  pose proof (take_drop_while is_space (drop_while is_punct (drop_while not_punct s))) as E3.
  set (body := take_while not_punct s) in *.
  set (s1 := drop_while not_punct s) in *.
  set (marks := take_while is_punct s1) in *.
  set (s2 := drop_while is_punct s1) in *.
  set (ws := take_while is_space s2) in *.
  set (s3 := drop_while is_space s2) in *.
  assert (Hs : s = (body ++ marks) ++ s2) by (rewrite <- app_assoc, E2; now symmetry).
  destruct body as [| b body'] eqn:Eb; [discriminate|].
  destruct marks as [| m marks'] eqn:Em; [discriminate|].
  rewrite <- Eb, <- Em in *.
  assert (Hb : 0 < length body) by (rewrite Eb; cbn; lia).
  destruct s2 as [| c s2'] eqn:Es2.
  - intros H. injection H as <-. exists (body ++ marks), [].
    rewrite app_nil_r in Hs. rewrite app_nil_r.
    rewrite Hs at 1 2 3. rewrite length_app, firstn_all2, skipn_all2 by (rewrite length_app; lia).
    cbn [length]. repeat split; auto; lia.
  - destruct (is_space c) eqn:Ec; [|discriminate].
    intros H. injection H as <-. exists (body ++ marks), ws.
    assert (Hs' : s = ((body ++ marks) ++ ws) ++ s3).
    { rewrite <- app_assoc, E3. exact Hs. }
    split; [|split; [|split; [|split; [|split]]]].
    + rewrite Hs' at 1. rewrite firstn_app.
      replace (length body + length marks + length ws - length ((body ++ marks) ++ ws))
        with 0 by (rewrite !length_app; lia).
      rewrite firstn_all2 by (rewrite !length_app; lia).
      cbn [firstn]. now rewrite app_nil_r.
    + apply take_while_all.
    + rewrite length_app. lia.
    + rewrite Hs'. rewrite !length_app. lia.
    + rewrite length_app. lia.
    + intros Hn. exfalso. unfold ws in Hn. cbn [take_while] in Hn.
      rewrite Ec in Hn. discriminate.
Qed.

Lemma match_sentences_from_nil fuel : match_sentences_from fuel [] = [].
Proof. now destruct fuel. Qed.

(** The fuel of [match_sentences] is enough: more fuel gives the same
    matches. *)
Lemma match_sentences_from_enough fuel1 : forall fuel2 s,
  length s <= fuel1 -> length s <= fuel2 ->
  match_sentences_from fuel1 s = match_sentences_from fuel2 s.
Proof.
  induction fuel1 as [| fuel1 IH]; intros fuel2 s H1 H2.
  - destruct s; [|cbn in H1; lia]. now rewrite !match_sentences_from_nil.
  - destruct s as [| c s']; [now rewrite !match_sentences_from_nil|].
    destruct fuel2 as [| fuel2]; [cbn in H2; lia|].
    cbn [match_sentences_from length] in *.
    destruct (sentence_match_at (c :: s')) as [n |] eqn:E.
    + destruct (sentence_match_at_shape _ _ E) as (core & ws & _ & _ & Hn & _ & Hc & _).
      f_equal. apply IH; rewrite length_skipn; cbn [length]; lia.
    + apply IH; lia.
Qed.

(** The weight of a list of pieces: their lengths and one separator each. *)
Fixpoint weight (l : list str) : nat :=
  match l with
  | [] => 0
  | u :: rest => S (length u) + weight rest
  end.

Lemma weight_app l1 l2 : weight (l1 ++ l2) = weight l1 + weight l2.
Proof. induction l1 as [| u l1 IH]; cbn [app weight]; lia. Qed.

Lemma weight_filter f l : weight (filter f l) <= weight l.
Proof.
  induction l as [| u l IH]; [reflexivity|].
  cbn [filter]. destruct (f u); cbn [weight]; lia.
Qed.

Lemma weight_skipn n l : weight (skipn n l) <= weight l.
Proof.
  revert l. induction n as [| n IH]; intros [| u l]; cbn [skipn weight]; try lia.
  specialize (IH l). lia.
Qed.

Lemma weight_in u l : In u l -> S (length u) <= weight l.
Proof.
  induction l as [| v l IH]; intros H; [contradiction|].
  destruct H as [-> | H]; cbn [weight]; [lia|]. specialize (IH H). lia.
Qed.

Lemma match_sentences_weight fuel : forall s,
  weight (map trim (match_sentences_from fuel s)) <= S (length s).
Proof.
  induction fuel as [| fuel IH]; intros s; [cbn; lia|].
  destruct s as [| c s']; [cbn; lia|].
  cbn [match_sentences_from].
  destruct (sentence_match_at (c :: s')) as [n |] eqn:E.
  - destruct (sentence_match_at_shape _ _ E) as (core & ws & Hm & Hws & Hn & Hle & Hc & Hend).
    cbn [map weight]. rewrite Hm, trim_app_spaces by assumption.
    pose proof (trim_length core) as Ht.
    destruct ws as [| w ws'].
    + rewrite Hend by reflexivity. rewrite match_sentences_from_nil.
      cbn [map weight length] in *. lia.
    + specialize (IH (skipn n (c :: s'))). rewrite length_skipn in IH.
      cbn [length] in *. lia.
  - specialize (IH s'). cbn [length]. lia.
Qed.

Lemma sentence_units_weight text : weight (sentence_units text) <= S (length text).
Proof.
  unfold sentence_units. etransitivity; [apply weight_filter|].
  destruct (length (match_sentences text) =? 0).
  - cbn [map weight]. pose proof (trim_length text). lia.
  - apply match_sentences_weight.
Qed.

(** ** Word splitting *)

Lemma split_ws_weight s : forall b, weight (split_ws b s) <= S (length s).
Proof.
  induction s as [| c s IH]; intros b; [cbn; lia|].
  cbn [split_ws]. destruct (is_space c).
  - destruct b; cbn [weight length]; [specialize (IH true) | specialize (IH true)]; lia.
  - specialize (IH false). destruct (split_ws false s) as [| w ws];
      cbn [weight length] in *; lia.
Qed.

Definition cost (cur : str) : nat :=
  match cur with
  | [] => 0
  | _ => S (length cur)
  end.

Lemma cost_le cur : cost cur <= S (length cur).
Proof. destruct cur; cbn; lia. Qed.

Lemma word_fold_weight maxChunkSize words : forall subChunks cur,
  let '(subChunks', cur') :=
    fold_left (word_step maxChunkSize) words (subChunks, cur) in
  (forall p, In p subChunks' ->
             In p subChunks \/ S (length p) <= cost cur + weight words) /\
  cost cur' <= cost cur + weight words.
Proof.
  induction words as [| w words IH]; intros subChunks cur.
  - cbn. split; [auto | lia].
  - cbn [fold_left]. unfold word_step at 2.
    set (test := match cur with [] => w | _ :: _ => cur ++ SP :: w end).
    assert (Htest : cost test <= cost cur + S (length w)).
    { unfold test. destruct cur as [| c cur']; [apply cost_le|].
      cbn [cost app]. cbn [length]. rewrite length_app. cbn [length]. lia. }
    destruct ((maxChunkSize <? len test)%Z && negb (length cur =? 0)) eqn:Eif.
    + specialize (IH (subChunks ++ [trim cur]) w).
      destruct (fold_left _ words _) as [subChunks' cur'].
      destruct IH as [IH1 IH2].
      assert (Hcur : cost cur = S (length cur)).
      { destruct cur; [|reflexivity]. now rewrite andb_false_r in Eif. }
      pose proof (cost_le w). pose proof (trim_length cur).
      cbn [weight]. split; [|lia].
      intros p Hp. destruct (IH1 p Hp) as [Hin | Hle].
      * apply in_app_or in Hin. destruct Hin as [Hin | [<- | []]]; [now left | right; lia].
      * right. lia.
    + specialize (IH subChunks test).
      destruct (fold_left _ words _) as [subChunks' cur'].
      destruct IH as [IH1 IH2]. cbn [weight]. split; [|lia].
      intros p Hp. destruct (IH1 p Hp) as [Hin | Hle]; [now left | right; lia].
Qed.

Lemma splitLongSentenceByWords_length sentence maxChunkSize p :
  In p (splitLongSentenceByWords sentence maxChunkSize) ->
  length p <= length sentence.
Proof.
  unfold splitLongSentenceByWords.
  pose proof (word_fold_weight maxChunkSize (split_ws false sentence) [] []) as H.
  pose proof (split_ws_weight sentence false) as Hw.
  destruct (fold_left _ _ _) as [subChunks cur]. destruct H as [H1 H2].
  cbn [cost] in *.
  assert (Hsub : forall q, In q subChunks -> length q <= length sentence).
  { intros q Hq. destruct (H1 q Hq) as [[] | Hle]. lia. }
  destruct (0 <? len (trim cur))%Z eqn:E; [|now apply Hsub].
  intros Hp. apply in_app_or in Hp. destruct Hp as [Hp | [<- | []]]; [now apply Hsub|].
  pose proof (trim_length cur). destruct cur as [| c cur'].
  - cbn. lia.
  - cbn [cost] in H2. lia.
Qed.

(** ** The grouping loop *)

Lemma join_weight g : g <> [] -> S (length (join g)) = weight g.
Proof.
  induction g as [| p g IH]; intros H; [now contradiction H|].
  destruct g as [| q g]; [cbn; lia|].
  change (join (p :: q :: g)) with (p ++ SP :: join (q :: g)).
  rewrite length_app. cbn [length]. cbn [weight] in *.
  specialize (IH ltac:(discriminate)). lia.
Qed.

Lemma nonempty_length {A} (l : list A) : (0 <? length l) = true -> l <> [].
Proof. destruct l; [discriminate | discriminate]. Qed.

Lemma slice_from_skipn {A} start (l : list A) : exists n, slice_from start l = skipn n l.
Proof. unfold slice_from. eauto. Qed.

Lemma chunk_step_weight M O st sentence K :
  (forall c, In c (chunks st) -> S (length c) <= K) ->
  weight (currentChunk st) + S (length sentence) <= K ->
  let st' := chunk_step M O st sentence in
  (forall c, In c (chunks st') -> S (length c) <= K) /\
  weight (currentChunk st') <= weight (currentChunk st) + S (length sentence).
Proof.
  intros Hc Hw. unfold chunk_step.
  assert (Hjoin : (0 <? length (currentChunk st)) = true ->
                  S (length (join (currentChunk st))) <= K).
  { intros H. rewrite join_weight by now apply nonempty_length. lia. }
  destruct (M <? len sentence)%Z.
  - destruct (0 <? length (currentChunk st)) eqn:E; cbn [chunks currentChunk].
    + split; [|cbn; lia]. intros c Hin.
      apply in_app_or in Hin. destruct Hin as [Hin | Hin].
      * apply in_app_or in Hin. destruct Hin as [Hin | [<- | []]]; [now apply Hc | now apply Hjoin].
      * apply splitLongSentenceByWords_length in Hin. lia.
    + split; [|lia]. intros c Hin.
      apply in_app_or in Hin. destruct Hin as [Hin | Hin]; [now apply Hc|].
      apply splitLongSentenceByWords_length in Hin. lia.
  - destruct ((M <? currentSize st + len sentence)%Z && (0 <? length (currentChunk st))) eqn:E.
    + apply andb_prop in E. destruct E as [_ E].
      assert (Hc' : forall c, In c (chunks st ++ [join (currentChunk st)]) -> S (length c) <= K).
      { intros c Hin. apply in_app_or in Hin.
        destruct Hin as [Hin | [<- | []]]; [now apply Hc | now apply Hjoin]. }
      destruct ((0 <? O)%Z && (O <? Z.of_nat (length (currentChunk st)))%Z);
        cbn [chunks currentChunk]; (split; [exact Hc'|]);
        rewrite weight_app; cbn [weight]; [|lia].
      destruct (slice_from_skipn (- O) (currentChunk st)) as [n ->].
      pose proof (weight_skipn n (currentChunk st)). lia.
    + cbn [chunks currentChunk]. split; [exact Hc|].
      rewrite weight_app. cbn [weight]. lia.
Qed.

Lemma chunk_fold_weight M O sentences : forall st K,
  (forall c, In c (chunks st) -> S (length c) <= K) ->
  weight (currentChunk st) + weight sentences <= K ->
  let st' := fold_left (chunk_step M O) sentences st in
  (forall c, In c (chunks st') -> S (length c) <= K) /\
  weight (currentChunk st') <= K.
Proof.
  induction sentences as [| s sentences IH]; intros st K Hc Hw.
  - cbn [fold_left weight] in *. split; [exact Hc | lia].
  - cbn [fold_left weight] in *.
    destruct (chunk_step_weight M O st s K Hc ltac:(lia)) as [H1 H2].
    apply IH; [exact H1 | lia].
Qed.

Lemma group_units_length sentences M O c :
  In c (group_units sentences M O) -> S (length c) <= weight sentences.
Proof.
  unfold group_units.
  destruct (chunk_fold_weight M O sentences
              {| chunks := []; currentChunk := []; currentSize := 0 |}
              (weight sentences)) as [H1 H2].
  { intros ? []. }
  { cbn [currentChunk weight]. lia. }
  cbv zeta in H1, H2.
  destruct (0 <? length (currentChunk _)) eqn:E; [|now apply H1].
  intros Hin. apply in_app_or in Hin. destruct Hin as [Hin | [<- | []]]; [now apply H1|].
  rewrite join_weight by now apply nonempty_length. exact H2.
Qed.

(** No assembled fragment is longer than the text it comes from. *)
Lemma assembledChunks_length text M O c :
  In c (assembledChunks text M O) -> length c <= length text.
Proof.
  unfold assembledChunks.
  destruct (length (normalize text) =? 0); [intros []|].
  intros Hin. apply group_units_length in Hin.
  pose proof (sentence_units_weight (normalize text)).
  pose proof (normalize_length text). lia.
Qed.

Lemma splitIntoSemanticChunks_assembled text M O :
  splitIntoSemanticChunks text M O = postprocess (assembledChunks text M O).
Proof.
  unfold splitIntoSemanticChunks, assembledChunks.
  now destruct (length (normalize text) =? 0).
Qed.

Lemma postprocess_short chunks :
  Forall (fun c => length c <= MIN_CHUNK_LENGTH) chunks -> postprocess chunks = [].
Proof.
  intros H. unfold postprocess. induction H as [| c chunks Hc H IH]; [reflexivity|].
  cbn [map filter]. rewrite IH.
  destruct (Nat.ltb_spec MIN_CHUNK_LENGTH (length (trim c))); [|reflexivity].
  pose proof (trim_length c). lia.
Qed.

(** C10. The length floor is 20 characters: every returned fragment is
    longer than 20; a text whose assembled fragments all have at most 20
    characters, in particular any text of at most 20 characters, yields
    no fragment. *)
Theorem length_floor (text : str) (maxChunkSize overlapSentences : Z) :
  MIN_CHUNK_LENGTH = 20 /\
  Forall (fun fragment => 20 < length fragment)
    (splitIntoSemanticChunks text maxChunkSize overlapSentences) /\
  (Forall (fun c => length c <= 20)
     (assembledChunks text maxChunkSize overlapSentences) ->
   splitIntoSemanticChunks text maxChunkSize overlapSentences = []) /\
  (length text <= 20 ->
   splitIntoSemanticChunks text maxChunkSize overlapSentences = []).
Proof.
  rewrite splitIntoSemanticChunks_assembled.
  split; [reflexivity | split; [|split]].
  - rewrite Forall_forall. intros f Hf. unfold postprocess in Hf.
    apply filter_In in Hf. destruct Hf as [_ Hf]. now apply Nat.ltb_lt in Hf.
  - apply postprocess_short.
  - intros Ht. apply postprocess_short. rewrite Forall_forall. intros c Hc.
    apply assembledChunks_length in Hc. unfold MIN_CHUNK_LENGTH. lia.
Qed.

(** C7 (amended). With a maximum of 20 the second sentence (21
    characters) is split at a word boundary, and all three assembled
    fragments fall under the length floor: the answer is empty. *)
Theorem cats_and_dogs_below_floor :
  assembledChunks (lit "Cats are mammals. Dogs are mammals too.") 20 0 =
    [lit "Cats are mammals."; lit "Dogs are mammals"; lit "too."] /\
  splitIntoSemanticChunks (lit "Cats are mammals. Dogs are mammals too.") 20 0 = [].
Proof. split; vm_compute; reflexivity. Qed.

(** C7 as stated fails: the two sentences are not the answer. *)
Lemma cats_and_dogs_counterexample :
  splitIntoSemanticChunks (lit "Cats are mammals. Dogs are mammals too.") 20 0 <>
    [lit "Cats are mammals."; lit "Dogs are mammals too."].
Proof. vm_compute. discriminate. Qed.

(** ** Words and trimmed text *)

(** A text without whitespace at either end. *)
Definition clean (t : str) : Prop :=
  drop_while is_space t = t /\ drop_while is_space (rev t) = rev t.

Lemma clean_trim t : clean t -> trim t = t.
Proof. intros [H1 H2]. unfold trim. rewrite H1, H2. apply rev_involutive. Qed.

Lemma drop_while_idem p s : drop_while p (drop_while p s) = drop_while p s.
Proof.
  induction s as [| c s IH]; [reflexivity|].
  cbn [drop_while]. destruct (p c) eqn:E; [exact IH|]. cbn [drop_while]. now rewrite E.
Qed.

Lemma drop_while_fixed_prefix p x y :
  drop_while p (x ++ y) = x ++ y -> x <> [] -> drop_while p x = x.
Proof.
  intros H Hx. destruct x as [| c x]; [now contradiction Hx|].
  cbn [app drop_while] in *. destruct (p c); [|reflexivity].
  exfalso. pose proof (drop_while_length p (x ++ y)) as Hl.
  rewrite H in Hl. cbn [length] in Hl. lia.
Qed.

Lemma trim_clean s : clean (trim s).
Proof.
  unfold clean, trim. rewrite rev_involutive.
  set (a := drop_while is_space s).
  set (b := drop_while is_space (rev a)).
  split; [|apply drop_while_idem].
  destruct (rev b) as [| c r] eqn:E; [reflexivity|]. rewrite <- E.
  apply drop_while_fixed_prefix with (y := rev (take_while is_space (rev a))).
  - rewrite <- rev_app_distr. unfold b. rewrite take_drop_while, rev_involutive.
    apply drop_while_idem.
  - rewrite E. discriminate.
Qed.

Lemma word_drop_while w : is_word w = true -> drop_while is_space w = w.
Proof.
  destruct w as [| c w]; [reflexivity|]. cbn [is_word forallb drop_while].
  intros H. apply andb_prop in H. destruct H as [H _].
  now destruct (is_space c).
Qed.

Lemma word_clean w : is_word w = true -> clean w.
Proof.
  intros H. split; apply word_drop_while; [exact H|].
  unfold is_word in *. rewrite forallb_forall in *. intros c Hc. apply H. now apply in_rev.
Qed.

Lemma split_ws_words s : forall b w, In w (split_ws b s) -> is_word w = true.
Proof.
  induction s as [| c s IH]; intros b w Hw.
  - destruct Hw as [<- | []]. reflexivity.
  - cbn [split_ws] in Hw. destruct (is_space c) eqn:Ec.
    + destruct b; [now apply (IH true)|].
      destruct Hw as [<- | Hw]; [reflexivity | now apply (IH true)].
    + pose proof (IH false) as IHf.
      destruct (split_ws false s) as [| w0 ws].
      * destruct Hw as [<- | []]. cbn. now rewrite Ec.
      * destruct Hw as [<- | Hw].
        -- cbn [is_word forallb]. rewrite Ec. cbn. apply IHf. now left.
        -- apply IHf. now right.
Qed.

(** ** The pieces of a long sentence *)

Section WordPieces.

Variable maxChunkSize : Z.
Variable W : list str.
Hypothesis W_words : forall w, In w W -> is_word w = true.

Definition piece_ok (p : str) : Prop := (len p <= maxChunkSize)%Z \/ In p W.

Definition pending_ok (cur : str) : Prop := cur = [] \/ piece_ok cur.

Lemma piece_ok_trim cur : piece_ok cur -> piece_ok (trim cur).
Proof.
  intros [H | H].
  - left. pose proof (trim_length cur). unfold len in *. lia.
  - right. rewrite clean_trim; [exact H | now apply word_clean, W_words].
Qed.

Lemma word_fold_pieces words : forall subChunks cur,
  incl words W ->
  Forall piece_ok subChunks -> pending_ok cur ->
  let '(subChunks', cur') :=
    fold_left (word_step maxChunkSize) words (subChunks, cur) in
  Forall piece_ok subChunks' /\ pending_ok cur'.
Proof.
  induction words as [| w words IH]; intros subChunks cur Hw Hs Hc; [now split|].
  cbn [fold_left]. unfold word_step at 2.
  assert (HwW : In w W) by (apply Hw; now left).
  assert (Hw' : incl words W) by (intros x Hx; apply Hw; now right).
  set (test := match cur with [] => w | _ :: _ => cur ++ SP :: w end).
  destruct ((maxChunkSize <? len test)%Z && negb (length cur =? 0)) eqn:Eif.
  - apply IH; [exact Hw' | | right; now right].
    apply Forall_app. split; [exact Hs|]. constructor; [|constructor].
    apply piece_ok_trim. destruct Hc as [-> | Hc]; [|exact Hc].
    now rewrite andb_false_r in Eif.
  - apply IH; [exact Hw' | exact Hs|].
    apply andb_false_iff in Eif. destruct Eif as [E | E].
    + right. left. apply Z.ltb_ge in E. exact E.
    + right. right. unfold test. destruct cur; [exact HwW | discriminate].
Qed.

End WordPieces.

Lemma splitLongSentenceByWords_pieces sentence maxChunkSize :
  Forall (fun p => (len p <= maxChunkSize)%Z \/
                   (is_word p = true /\ In p (split_ws false sentence)))
    (splitLongSentenceByWords sentence maxChunkSize).
Proof.
  unfold splitLongSentenceByWords.
  pose proof (word_fold_pieces maxChunkSize (split_ws false sentence)
                (split_ws_words sentence false) (split_ws false sentence) [] []
                (incl_refl _) (Forall_nil _) (or_introl eq_refl)) as H.
  destruct (fold_left _ _ _) as [subChunks cur]. destruct H as [H1 H2].
  assert (Hok : forall p, piece_ok maxChunkSize (split_ws false sentence) p ->
                (len p <= maxChunkSize)%Z \/
                (is_word p = true /\ In p (split_ws false sentence))).
  { intros p [Hp | Hp]; [now left | right].
    split; [eapply split_ws_words; eauto | exact Hp]. }
  assert (Hsub : Forall (fun p => (len p <= maxChunkSize)%Z \/
                   (is_word p = true /\ In p (split_ws false sentence))) subChunks).
  { eapply Forall_impl; [|exact H1]. exact Hok. }
  destruct (0 <? len (trim cur))%Z eqn:E; [|exact Hsub].
  apply Forall_app. split; [exact Hsub|]. constructor; [|constructor].
  apply Hok. apply piece_ok_trim; [apply split_ws_words|].
  destruct H2 as [-> | H2]; [discriminate | exact H2].
Qed.

(** ** What the fragments are made of *)

Section Fragments.

Variable maxChunkSize overlapSentences : Z.
Variable U : list str.

Lemma join_fits_ok g : g <> [] -> Forall (fits maxChunkSize U) g -> (fragment_ok maxChunkSize U) (join g).
Proof.
  intros Hg Hf. destruct g as [| u [| v g]]; [now contradiction Hg | |].
  - left. inversion Hf as [| ? ? [_ Hu] _]; subst. exact Hu.
  - right. right. exists (u :: v :: g). split; [cbn; lia | split; [exact Hf | reflexivity]].
Qed.

Lemma Forall_skipn {A} (P : A -> Prop) n l : Forall P l -> Forall P (skipn n l).
Proof.
  intros H. rewrite Forall_forall in *. intros x Hx. apply H.
  rewrite <- (firstn_skipn n l). apply in_or_app. now right.
Qed.

Lemma chunk_step_ok st sentence :
  In sentence U ->
  Forall (fragment_ok maxChunkSize U) (chunks st) -> Forall (fits maxChunkSize U) (currentChunk st) ->
  let st' := chunk_step maxChunkSize overlapSentences st sentence in
  Forall (fragment_ok maxChunkSize U) (chunks st') /\ Forall (fits maxChunkSize U) (currentChunk st').
Proof.
  intros Hs Hc Hg. unfold chunk_step.
  assert (Hjoin : (0 <? length (currentChunk st)) = true ->
                  Forall (fragment_ok maxChunkSize U) (chunks st ++ [join (currentChunk st)])).
  { intros H. apply Forall_app. split; [exact Hc|]. constructor; [|constructor].
    apply join_fits_ok; [now apply nonempty_length | exact Hg]. }
  destruct (maxChunkSize <? len sentence)%Z eqn:Elong.
  - apply Z.ltb_lt in Elong.
    assert (Hp : Forall (fragment_ok maxChunkSize U) (splitLongSentenceByWords sentence maxChunkSize)).
    { eapply Forall_impl; [|apply splitLongSentenceByWords_pieces].
      intros p [Hp | [Hw Hp]]; [now left | right; left].
      split; [exact Hw | exists sentence; auto]. }
    destruct (0 <? length (currentChunk st)) eqn:E; cbn [chunks currentChunk].
    + split; [|constructor]. apply Forall_app. split; [now apply Hjoin | exact Hp].
    + split; [|exact Hg]. apply Forall_app. now split.
  - apply Z.ltb_ge in Elong.
    assert (Hfit : Forall (fits maxChunkSize U) [sentence]) by (constructor; [now split | constructor]).
    destruct ((maxChunkSize <? currentSize st + len sentence)%Z
              && (0 <? length (currentChunk st))) eqn:E.
    + apply andb_prop in E. destruct E as [_ E].
      destruct ((0 <? overlapSentences)%Z
                && (overlapSentences <? Z.of_nat (length (currentChunk st)))%Z);
        cbn [chunks currentChunk]; (split; [now apply Hjoin|]);
        apply Forall_app; (split; [|exact Hfit]); [|constructor].
      destruct (slice_from_skipn (- overlapSentences) (currentChunk st)) as [n ->].
      now apply Forall_skipn.
    + cbn [chunks currentChunk]. split; [exact Hc|].
      apply Forall_app. now split.
Qed.

Lemma chunk_fold_ok sentences : forall st,
  incl sentences U ->
  Forall (fragment_ok maxChunkSize U) (chunks st) -> Forall (fits maxChunkSize U) (currentChunk st) ->
  let st' := fold_left (chunk_step maxChunkSize overlapSentences) sentences st in
  Forall (fragment_ok maxChunkSize U) (chunks st') /\ Forall (fits maxChunkSize U) (currentChunk st').
Proof.
  induction sentences as [| s sentences IH]; intros st Hi Hc Hg; [now split|].
  cbn [fold_left].
  destruct (chunk_step_ok st s) as [H1 H2]; [apply Hi; now left | exact Hc | exact Hg|].
  apply IH; [intros x Hx; apply Hi; now right | exact H1 | exact H2].
Qed.

Lemma group_units_ok :
  Forall (fragment_ok maxChunkSize U) (group_units U maxChunkSize overlapSentences).
Proof.
  unfold group_units.
  destruct (chunk_fold_ok U {| chunks := []; currentChunk := []; currentSize := 0 |}
              (incl_refl _) (Forall_nil _) (Forall_nil _)) as [H1 H2].
  cbv zeta in H1, H2.
  destruct (0 <? length (currentChunk _)) eqn:E; [|exact H1].
  apply Forall_app. split; [exact H1|]. constructor; [|constructor].
  apply join_fits_ok; [now apply nonempty_length | exact H2].
Qed.

End Fragments.

(** The sentence units are trimmed and not empty. *)
Lemma sentence_units_clean text u :
  In u (sentence_units text) -> clean u /\ u <> [].
Proof.
  unfold sentence_units. intros H. apply filter_In in H. destruct H as [H Hn].
  apply in_map_iff in H. destruct H as (s & <- & _).
  split; [apply trim_clean | now apply nonempty_length].
Qed.

Lemma join_clean us :
  us <> [] -> Forall (fun u => clean u /\ u <> []) us ->
  clean (join us) /\ join us <> [].
Proof.
  induction us as [| u us IH]; intros Hn Hf; [now contradiction Hn|].
  inversion Hf as [| ? ? [[Hu1 Hu2] Hu] Hf']; subst.
  destruct us as [| v us]; [now repeat split|].
  destruct (IH ltac:(discriminate) Hf') as [[_ Hj] Hjn].
  change (join (u :: v :: us)) with (u ++ SP :: join (v :: us)).
  split; [split|].
  - rewrite drop_while_app_keep by (rewrite Hu1; exact Hu). now rewrite Hu1.
  - rewrite rev_app_distr. cbn [rev]. rewrite <- app_assoc.
    rewrite drop_while_app_keep; [now rewrite Hj|].
    rewrite Hj. intros Hr. apply Hjn. now rewrite <- (rev_involutive (join _)), Hr.
  - destruct u; [now contradiction Hu | discriminate].
Qed.

(** C2 (amended). Every returned fragment has a length within the
    maximum, unless it is a single word, longer than the maximum, of a
    sentence unit that exceeds the maximum; this leaves aside the fragments
    that join two or more sentence units, each of which fits. *)
Theorem fragment_length_bound (text : str) (maxChunkSize overlapSentences : Z) :
  Forall (fragment_ok maxChunkSize (sentence_units (normalize text)))
    (splitIntoSemanticChunks text maxChunkSize overlapSentences).
Proof.
  unfold splitIntoSemanticChunks.
  destruct (length (normalize text) =? 0); [constructor|].
  set (U := sentence_units (normalize text)).
  pose proof (group_units_ok maxChunkSize overlapSentences U) as H.
  unfold postprocess. rewrite Forall_forall in *. intros f Hf.
  apply filter_In in Hf. destruct Hf as [Hf _].
  apply in_map_iff in Hf. destruct Hf as (c & <- & Hc).
  destruct (H c Hc) as [Hle | [[Hw Hu] | (us & Hn & Hus & ->)]].
  - left. pose proof (trim_length c). unfold len in *. lia.
  - right. left. rewrite clean_trim by now apply word_clean. now split.
  - right. right. exists us. split; [exact Hn | split; [exact Hus|]].
    apply clean_trim. apply join_clean; [destruct us; [cbn in Hn; lia | discriminate]|].
    eapply Forall_impl; [|exact Hus].
    intros u [Hu _]. now apply (sentence_units_clean (normalize text)).
Qed.

(** C2 as stated fails.  A sentence that is one long word is returned
    whole, above the maximum, after word splitting; and two units of 15
    characters are joined into a fragment of 31 under a maximum of 30. *)
Lemma fragment_length_counterexample :
  map (@length char)
    (splitIntoSemanticChunks
       (lit "Pneumonoultramicroscopicsilicovolcanoconiosis.") 30 0) = [46] /\
  map (@length char) (sentence_units (normalize (lit "Aaaaaaaaaaaaaa. Bbbbbbbbbbbbbb."))) =
    [15; 15] /\
  map (@length char)
    (splitIntoSemanticChunks (lit "Aaaaaaaaaaaaaa. Bbbbbbbbbbbbbb.") 30 0) = [31].
Proof. repeat split; vm_compute; reflexivity. Qed.

(** ** Overlap between consecutive fragments *)

(** The grouping loop on units that all fit, keeping the groups apart. *)
Fixpoint grouping (maxChunkSize overlapSentences : Z) (sentences : list str)
  (current : list str) (size : Z) : list (list str) :=
  match sentences with
  | [] => if 0 <? length current then [current] else []
  | s :: rest =>
      if ((maxChunkSize <? size + len s)%Z && (0 <? length current))
      then
        let kept := overlap_seed overlapSentences current in
        current :: grouping maxChunkSize overlapSentences rest
                     (kept ++ [s]) (total_length kept + len s)
      else grouping maxChunkSize overlapSentences rest (current ++ [s]) (size + len s)%Z
  end.

Definition pending (st : loop_state) : list str :=
  if 0 <? length (currentChunk st) then [join (currentChunk st)] else [].

Lemma slice_from_seed O (current : list str) :
  ((0 <? O) && (O <? Z.of_nat (length current)))%Z = true ->
  slice_from (- O) current = overlap_seed O current.
Proof.
  intros H. unfold overlap_seed. rewrite H.
  apply andb_prop in H. destruct H as [H1 H2].
  apply Z.ltb_lt in H1, H2. unfold slice_from.
  destruct (Z.ltb_spec (- O) 0); [|lia]. f_equal. lia.
Qed.

Lemma chunk_fold_grouping M O sentences : forall st,
  Forall (fun u => (len u <= M)%Z) sentences ->
  let st' := fold_left (chunk_step M O) sentences st in
  chunks st' ++ pending st' =
  chunks st ++ map join (grouping M O sentences (currentChunk st) (currentSize st)).
Proof.
  induction sentences as [| s sentences IH]; intros st Hfit.
  - cbn [fold_left grouping]. unfold pending.
    now destruct (0 <? length (currentChunk st)).
  - inversion Hfit as [| ? ? Hs Hfit']; subst.
    cbn [fold_left grouping]. rewrite IH by assumption. clear IH.
    unfold chunk_step. destruct (Z.ltb_spec M (len s)) as [Hlt | _]; [lia|].
    destruct ((M <? currentSize st + len s)%Z && (0 <? length (currentChunk st))) eqn:E.
    + destruct ((0 <? O)%Z && (O <? Z.of_nat (length (currentChunk st)))%Z) eqn:EO;
        cbn [chunks currentChunk currentSize map].
      * rewrite slice_from_seed by assumption. now rewrite <- app_assoc.
      * unfold overlap_seed. rewrite EO. now rewrite <- app_assoc.
    + reflexivity.
Qed.

Lemma overlap_seed_nil O : overlap_seed O [] = [].
Proof. unfold overlap_seed. destruct (_ && _)%Z; [apply skipn_nil | reflexivity]. Qed.

Lemma grouping_overlapped M O sentences : forall closed fresh size,
  (fresh = [] -> closed = []) ->
  exists parts,
    concat parts = fresh ++ sentences /\
    Forall (fun part => part <> []) parts /\
    grouping M O sentences (overlap_seed O closed ++ fresh) size =
    overlapped O closed parts.
Proof.
  induction sentences as [| s sentences IH]; intros closed fresh size Hinv.
  - cbn [grouping]. destruct fresh as [| u fresh].
    + rewrite (Hinv eq_refl), overlap_seed_nil. exists []. now repeat split.
    + exists [u :: fresh]. cbn [concat overlapped]. rewrite !app_nil_r.
      split; [reflexivity | split; [repeat constructor; discriminate|]].
      rewrite length_app. cbn [length].
      now destruct (Nat.ltb_spec 0 (length (overlap_seed O closed) + S (length fresh))); [|lia].
  - cbn [grouping].
    set (current := overlap_seed O closed ++ fresh).
    destruct ((M <? size + len s)%Z && (0 <? length current)) eqn:E.
    + apply andb_prop in E. destruct E as [_ E].
      assert (Hfresh : fresh <> []).
      { intros ->. unfold current in E.
        rewrite (Hinv eq_refl), overlap_seed_nil in E. discriminate. }
      destruct (IH current [s] (total_length (overlap_seed O current) + len s)%Z)
        as (parts & Hc & Hn & Hg); [discriminate|].
      exists (fresh :: parts). cbn [concat overlapped]. fold current.
      split; [now rewrite Hc | split; [now constructor | now rewrite Hg]].
    + destruct (IH closed (fresh ++ [s]) (size + len s)%Z) as (parts & Hc & Hn & Hg).
      { intros H. now apply app_eq_nil in H. }
      exists parts. split; [now rewrite Hc, <- app_assoc | split; [exact Hn|]].
      rewrite <- Hg. unfold current. now rewrite app_assoc.
Qed.

Lemma overlap_seed_incl O closed : incl (overlap_seed O closed) closed.
Proof.
  unfold overlap_seed. destruct (_ && _)%Z; [|intros x []].
  intros x Hx. rewrite <- (firstn_skipn (length closed - Z.to_nat O) closed).
  apply in_or_app. now right.
Qed.

Lemma overlapped_groups (U : list str) O fresh : forall closed,
  incl closed U ->
  Forall (fun part => part <> [] /\ incl part U) fresh ->
  Forall (fun group => group <> [] /\ incl group U) (overlapped O closed fresh).
Proof.
  induction fresh as [| part fresh IH]; intros closed Hc Hf; [constructor|].
  inversion Hf as [| ? ? [Hn Hp] Hf']; subst. cbn [overlapped].
  assert (Hg : incl (overlap_seed O closed ++ part) U).
  { apply incl_app; [|exact Hp]. intros x Hx. apply Hc. exact (overlap_seed_incl O closed x Hx). }
  constructor; [split; [|exact Hg] | now apply IH].
  intros H. apply app_eq_nil in H. tauto.
Qed.

Lemma group_units_pending sentences M O :
  group_units sentences M O =
  (let st := fold_left (chunk_step M O) sentences
               {| chunks := []; currentChunk := []; currentSize := 0 |} in
   chunks st ++ pending st).
Proof.
  unfold group_units, pending. cbv zeta.
  destruct (0 <? length (currentChunk _)); [reflexivity | now rewrite app_nil_r].
Qed.

Lemma sentence_units_nil : sentence_units [] = [].
Proof. reflexivity. Qed.

(** C3 (amended). When every sentence unit fits the maximum, the
    assembled fragments are the joins of groups of units that follow
    [overlapped]: each fragment after the first starts with the last
    [overlapSentences] units of the fragment before it when that fragment
    has more units than [overlapSentences] (and [overlapSentences] is
    positive), and with no repeated unit otherwise; after them it holds
    the next units of the text, at least one.  The returned fragments are
    those joins that pass the length floor. *)
Theorem overlap_between_fragments (text : str) (maxChunkSize overlapSentences : Z) :
  Forall (fun u => (len u <= maxChunkSize)%Z) (sentence_units (normalize text)) ->
  exists fresh,
    concat fresh = sentence_units (normalize text) /\
    Forall (fun part => part <> []) fresh /\
    assembledChunks text maxChunkSize overlapSentences =
      map join (overlapped overlapSentences [] fresh) /\
    splitIntoSemanticChunks text maxChunkSize overlapSentences =
      filter (fun c => 20 <? length c)
        (map join (overlapped overlapSentences [] fresh)).
Proof.
  intros Hfit. set (U := sentence_units (normalize text)) in *.
  destruct (grouping_overlapped maxChunkSize overlapSentences U [] [] 0 (fun _ => eq_refl))
    as (fresh & Hc & Hn & Hg).
  rewrite overlap_seed_nil in Hg. cbn [app] in Hc, Hg.
  assert (Ha : assembledChunks text maxChunkSize overlapSentences =
               map join (overlapped overlapSentences [] fresh)).
  { unfold assembledChunks. fold U.
    destruct (length (normalize text)) eqn:El; cbn [Nat.eqb].
    - apply length_zero_iff_nil in El. unfold U in Hc. rewrite El, sentence_units_nil in Hc.
      destruct fresh as [| part fresh]; [reflexivity|].
      inversion Hn; subst. cbn [concat] in Hc. apply app_eq_nil in Hc. tauto.
    - rewrite group_units_pending. cbv zeta.
      rewrite chunk_fold_grouping by exact Hfit. cbn [chunks currentChunk currentSize app].
      now rewrite Hg. }
  exists fresh. split; [exact Hc | split; [exact Hn | split; [exact Ha|]]].
  rewrite splitIntoSemanticChunks_assembled, Ha. unfold postprocess. f_equal.
  rewrite map_map. apply map_ext_in. intros g Hg'.
  assert (Hgroups : Forall (fun group => group <> [] /\ incl group U)
                      (overlapped overlapSentences [] fresh)).
  { apply overlapped_groups; [intros x [] |].
    rewrite Forall_forall in *. intros part Hp. split; [now apply Hn|].
    intros x Hx. rewrite <- Hc. apply in_concat. eauto. }
  rewrite Forall_forall in Hgroups. destruct (Hgroups g Hg') as [Hne Hin].
  apply clean_trim. apply join_clean; [exact Hne|].
  rewrite Forall_forall. intros u Hu.
  apply (sentence_units_clean (normalize text)). now apply Hin.
Qed.

Lemma overlap_between_fragments_witness :
  Forall (fun u => (len u <= 40)%Z)
    (sentence_units (normalize
       (lit "Cats are mammals. Dogs are mammals too. And birds! Yes."))) /\
  exists fresh,
    concat fresh =
      sentence_units (normalize
        (lit "Cats are mammals. Dogs are mammals too. And birds! Yes.")) /\
    Forall (fun part => part <> []) fresh /\
    assembledChunks (lit "Cats are mammals. Dogs are mammals too. And birds! Yes.") 40 1 =
      map join (overlapped 1 [] fresh) /\
    splitIntoSemanticChunks
      (lit "Cats are mammals. Dogs are mammals too. And birds! Yes.") 40 1 =
      filter (fun c => 20 <? length c) (map join (overlapped 1 [] fresh)).
Proof.
  assert (H : Forall (fun u => (len u <= 40)%Z)
    (sentence_units (normalize
       (lit "Cats are mammals. Dogs are mammals too. And birds! Yes.")))).
  { vm_compute. repeat constructor; discriminate. }
  split; [exact H|].
  exact (overlap_between_fragments
           (lit "Cats are mammals. Dogs are mammals too. And birds! Yes.") 40 1 H).
Defined.

(** C3 as stated fails: with an overlap of 1 a fragment of exactly one
    unit is not repeated at the start of the next fragment. *)
Lemma overlap_counterexample :
  let a := lit "Aaaaaaaaaaaaaaaaaaaaaaaa." in
  let b := lit "Bbbbbbbbbbbbbbbbbbbbbbbb." in
  sentence_units (normalize (a ++ SP :: b)) = [a; b] /\
  splitIntoSemanticChunks (a ++ SP :: b) 30 1 = [a; b] /\
  firstn (length a) b <> a.
Proof. cbv zeta. split; [|split]; vm_compute; [reflexivity | reflexivity | discriminate]. Qed.

End ChunkingFacts.

(* ================================================================== *)
(** * Properties of the fixed-size chunking and of the statistics *)
(* ================================================================== *)

Module FixedChunkingFacts.
Import Js Chunking Notions.

Local Open Scope Z_scope.

(** A slice that starts inside the text and has a length that is not
    negative. *)
Lemma slice_window {A} (i size : Z) (l : list A) :
  0 <= i -> 0 <= size ->
  slice i (i + size) l = firstn (Z.to_nat size) (skipn (Z.to_nat i) l).
Proof.
  intros Hi Hs. unfold slice.
  destruct (Z.ltb_spec i 0) as [|_]; [lia|].
  destruct (Z.ltb_spec (i + size) 0) as [|_]; [lia|].
  destruct (Z_le_gt_dec i (Z.of_nat (length l))) as [Hin | Hout].
  - rewrite (Z.min_l i) by lia.
    destruct (Z_le_gt_dec (i + size) (Z.of_nat (length l))) as [H1 | H1].
    + rewrite Z.min_l by lia. f_equal. lia.
    + rewrite Z.min_r by lia.
      rewrite !firstn_all2; [reflexivity | |]; rewrite length_skipn; lia.
  - rewrite !Z.min_r by lia.
    rewrite !skipn_all2 by lia. now rewrite !firstn_nil.
Qed.

(** The chunks that the loop pushes from the counter value [i] when at
    most [rounds] rounds are left. *)
Fixpoint chunks_from (text : str) (chunkSize step : Z) (rounds : nat) (i : Z)
  : list str :=
  match rounds with
  | O => []
  | S rounds' =>
      if i <? len text
      then slice i (i + chunkSize) text
             :: chunks_from text chunkSize step rounds' (i + step)
      else []
  end.

Lemma fixed_loop_chunks_from text chunkSize overlap rounds :
  forall fuel i acc,
  0 < chunkSize - overlap ->
  len text <= i + Z.of_nat rounds * (chunkSize - overlap) ->
  (rounds < fuel)%nat ->
  fixed_loop fuel text chunkSize overlap i acc =
  Some (acc ++ chunks_from text chunkSize (chunkSize - overlap) rounds i).
Proof.
  induction rounds as [| rounds IH]; intros fuel i acc Hstep Hlen Hfuel;
    (destruct fuel as [| fuel]; [lia|]); cbn [fixed_loop chunks_from].
  - destruct (Z.ltb_spec i (len text)); [lia|]. now rewrite app_nil_r.
  - destruct (Z.ltb_spec i (len text)); [|now rewrite app_nil_r].
    rewrite IH by lia. now rewrite <- app_assoc.
Qed.

(** The number of chunks from [i]. *)
Lemma chunks_from_count text chunkSize step rounds : forall i,
  0 < step -> 0 <= i ->
  len text <= i + Z.of_nat rounds * step ->
  Z.of_nat (length (chunks_from text chunkSize step rounds i)) =
  Z.max 0 ((len text - i + step - 1) / step).
Proof.
  induction rounds as [| rounds IH]; intros i Hstep Hi Hlen; cbn [chunks_from].
  - cbn [length]. assert ((len text - i + step - 1) / step <= 0); [|lia].
    apply Z.lt_succ_r. apply Z.div_lt_upper_bound; lia.
  - destruct (Z.ltb_spec i (len text)) as [Hlt | Hge].
    + cbn [length]. rewrite Nat2Z.inj_succ, IH by lia.
      replace (len text - i + step - 1) with ((len text - (i + step) + step - 1) + 1 * step) by lia.
      rewrite Z.div_add by lia.
      assert (0 <= (len text - (i + step) + step - 1) / step)
        by (apply Z.div_pos; lia).
      lia.
    + cbn [length]. assert ((len text - i + step - 1) / step <= 0); [|lia].
      apply Z.lt_succ_r. apply Z.div_lt_upper_bound; lia.
Qed.

Lemma chunks_from_bounds text chunkSize step rounds : forall i,
  0 < chunkSize -> 0 <= step -> 0 <= i ->
  Forall (fun c => 0 < len c <= chunkSize) (chunks_from text chunkSize step rounds i).
Proof.
  induction rounds as [| rounds IH]; intros i Hsize Hstep Hi; cbn [chunks_from];
    [constructor|].
  destruct (Z.ltb_spec i (len text)) as [Hlt | Hge]; [|constructor].
  constructor; [|apply IH; lia].
  rewrite slice_window by lia. unfold len in *.
  rewrite length_firstn, length_skipn. lia.
Qed.

Lemma firstn_skipn_window {A} (k m : nat) (u : list A) :
  (k <= m)%nat -> skipn k (firstn m u) ++ skipn m u = skipn k u.
Proof.
  intros H. rewrite skipn_firstn_comm.
  replace (skipn m u) with (skipn (m - k) (skipn k u))
    by (rewrite skipn_skipn; f_equal; lia).
  apply firstn_skipn.
Qed.

(** Without the first [overlap] characters of each of them, the chunks
    from [i] are the text from [i + overlap]. *)
Lemma chunks_from_cover text chunkSize overlap rounds : forall i,
  0 <= overlap < chunkSize -> 0 <= i ->
  len text <= i + Z.of_nat rounds * (chunkSize - overlap) ->
  concat (map (skipn (Z.to_nat overlap))
            (chunks_from text chunkSize (chunkSize - overlap) rounds i)) =
  skipn (Z.to_nat (i + overlap)) text.
Proof.
  induction rounds as [| rounds IH]; intros i Hov Hi Hlen; cbn [chunks_from].
  - cbn [map concat]. rewrite skipn_all2; [reflexivity | unfold len in *; lia].
  - destruct (Z.ltb_spec i (len text)) as [Hlt | Hge].
    + cbn [map concat]. rewrite IH by lia.
      rewrite slice_window by lia.
      replace (Z.to_nat (i + (chunkSize - overlap) + overlap))
        with (Z.to_nat chunkSize + Z.to_nat i)%nat by lia.
      replace (Z.to_nat (i + overlap)) with (Z.to_nat overlap + Z.to_nat i)%nat by lia.
      rewrite <- !skipn_skipn. apply firstn_skipn_window. lia.
    + cbn [map concat]. rewrite skipn_all2; [reflexivity | unfold len in *; lia].
Qed.

Lemma chunks_from_adjacent text chunkSize overlap rounds : forall i j c c',
  0 <= overlap < chunkSize -> 0 <= i ->
  nth_error (chunks_from text chunkSize (chunkSize - overlap) rounds i) j = Some c ->
  nth_error (chunks_from text chunkSize (chunkSize - overlap) rounds i) (S j) = Some c' ->
  firstn (Z.to_nat overlap) c' = skipn (Z.to_nat (chunkSize - overlap)) c.
Proof.
  induction rounds as [| rounds IH]; intros i j c c' Hov Hi Hc Hc'; cbn [chunks_from] in *.
  - now destruct j.
  - destruct (Z.ltb_spec i (len text)) as [Hlt | Hge]; [|now destruct j].
    destruct j as [| j]; cbn [nth_error] in Hc, Hc'.
    + injection Hc as <-.
      destruct rounds as [| rounds]; cbn [chunks_from nth_error] in Hc'; [discriminate|].
      destruct (Z.ltb_spec (i + (chunkSize - overlap)) (len text)); [|discriminate].
      injection Hc' as <-.
      rewrite !slice_window by lia.
      rewrite firstn_firstn, Nat.min_l by lia.
      rewrite skipn_firstn_comm, skipn_skipn.
      f_equal; [lia | f_equal; lia].
    + apply (IH (i + (chunkSize - overlap)) j c c'); [exact Hov | lia | exact Hc | exact Hc'].
Qed.

Lemma fixed_loop_stuck text chunkSize overlap fuel : forall i acc,
  chunkSize <= overlap -> i < len text ->
  fixed_loop fuel text chunkSize overlap i acc = None.
Proof.
  induction fuel as [| fuel IH]; intros i acc Hstep Hi; cbn [fixed_loop]; [reflexivity|].
  destruct (Z.ltb_spec i (len text)); [|lia]. apply IH; lia.
Qed.

Lemma splitIntoFixedChunks_closed text chunkSize overlap fuel :
  overlap < chunkSize -> (length text < fuel)%nat ->
  splitIntoFixedChunks fuel text chunkSize overlap =
  Some (chunks_from text chunkSize (chunkSize - overlap) (length text) 0).
Proof.
  intros Hov Hfuel. unfold splitIntoFixedChunks.
  rewrite (fixed_loop_chunks_from text chunkSize overlap (length text)); try lia.
  - reflexivity.
  - unfold len. nia.
Qed.

(** X1. With an overlap that is not negative and smaller than the chunk
    size, [splitIntoFixedChunks] returns after at most one test of the
    loop condition per character and one more; it returns the text length
    divided by the step [chunkSize - overlap], rounded up, many chunks,
    and each chunk has at least one and at most [chunkSize] characters. *)
Theorem splitIntoFixedChunks_returns
  (text : str) (chunkSize overlap : Z) (fuel : nat) :
  0 <= overlap < chunkSize -> (length text < fuel)%nat ->
  exists chunks,
    splitIntoFixedChunks fuel text chunkSize overlap = Some chunks /\
    Z.of_nat (length chunks) =
      (len text + (chunkSize - overlap) - 1) / (chunkSize - overlap) /\
    Forall (fun c => 0 < len c <= chunkSize) chunks.
Proof.
  intros Hov Hfuel. eexists. split; [|split].
  - apply splitIntoFixedChunks_closed; lia.
  - rewrite chunks_from_count; try lia.
    + rewrite Z.sub_0_r. apply Z.max_r. apply Z.div_pos; unfold len; lia.
    + unfold len. nia.
  - apply chunks_from_bounds; lia.
Qed.

Lemma splitIntoFixedChunks_returns_witness :
  (0 <= 2 < 5) /\ (length (lit "abcdefghij") < 11)%nat /\
  exists chunks,
    splitIntoFixedChunks 11 (lit "abcdefghij") 5 2 = Some chunks /\
    Z.of_nat (length chunks) = (len (lit "abcdefghij") + (5 - 2) - 1) / (5 - 2) /\
    Forall (fun c => 0 < len c <= 5) chunks.
Proof.
  split; [lia|]. split; [cbn; lia|].
  apply (splitIntoFixedChunks_returns (lit "abcdefghij") 5 2 11); [lia | cbn; lia].
Defined.

(** X2. The chunks of [splitIntoFixedChunks] lose nothing of the text:
    the first chunk followed by the other chunks, each without its first
    [overlap] characters, is the text. *)
Theorem splitIntoFixedChunks_covers
  (text : str) (chunkSize overlap : Z) (fuel : nat) :
  0 <= overlap < chunkSize -> (length text < fuel)%nat ->
  exists chunks,
    splitIntoFixedChunks fuel text chunkSize overlap = Some chunks /\
    text = hd [] chunks ++ concat (map (skipn (Z.to_nat overlap)) (tl chunks)).
Proof.
  intros Hov Hfuel. eexists. split; [apply splitIntoFixedChunks_closed; lia|].
  destruct text as [| c text]; [reflexivity|].
  cbn [length chunks_from]. change (0 <? len (c :: text)) with true. cbv iota.
  cbn [hd tl].
  rewrite chunks_from_cover; try lia.
  - rewrite slice_window by lia. cbn [Z.to_nat skipn].
    replace (Z.to_nat (0 + (chunkSize - overlap) + overlap)) with (Z.to_nat chunkSize) by lia.
    symmetry. apply firstn_skipn.
  - unfold len. cbn [length]. nia.
Qed.

Lemma splitIntoFixedChunks_covers_witness :
  (0 <= 2 < 5) /\ (length (lit "abcdefghij") < 11)%nat /\
  exists chunks,
    splitIntoFixedChunks 11 (lit "abcdefghij") 5 2 = Some chunks /\
    lit "abcdefghij" = hd [] chunks ++ concat (map (skipn (Z.to_nat 2)) (tl chunks)).
Proof.
  split; [lia|]. split; [cbn; lia|].
  apply (splitIntoFixedChunks_covers (lit "abcdefghij") 5 2 11); [lia | cbn; lia].
Defined.

(** X3. Consecutive chunks of [splitIntoFixedChunks] overlap: the first
    [overlap] characters of a chunk are the characters of the chunk before
    it from position [chunkSize - overlap] on. *)
Theorem splitIntoFixedChunks_overlap
  (text : str) (chunkSize overlap : Z) (fuel : nat) :
  0 <= overlap < chunkSize -> (length text < fuel)%nat ->
  exists chunks,
    splitIntoFixedChunks fuel text chunkSize overlap = Some chunks /\
    forall j c c',
      nth_error chunks j = Some c -> nth_error chunks (S j) = Some c' ->
      firstn (Z.to_nat overlap) c' = skipn (Z.to_nat (chunkSize - overlap)) c.
Proof.
  intros Hov Hfuel. eexists. split; [apply splitIntoFixedChunks_closed; lia|].
  intros j c c'. apply chunks_from_adjacent; lia.
Qed.

Lemma splitIntoFixedChunks_overlap_witness :
  (0 <= 2 < 5) /\ (length (lit "abcdefghij") < 11)%nat /\
  exists chunks,
    splitIntoFixedChunks 11 (lit "abcdefghij") 5 2 = Some chunks /\
    forall j c c',
      nth_error chunks j = Some c -> nth_error chunks (S j) = Some c' ->
      firstn (Z.to_nat 2) c' = skipn (Z.to_nat (5 - 2)) c.
Proof.
  split; [lia|]. split; [cbn; lia|].
  apply (splitIntoFixedChunks_overlap (lit "abcdefghij") 5 2 11); [lia | cbn; lia].
Defined.

(** X4. With an overlap of [chunkSize] or more the counter of the loop of
    [splitIntoFixedChunks] does not advance: on a text that is not empty
    the loop never ends, whatever the number of rounds granted. *)
Theorem splitIntoFixedChunks_never_returns
  (text : str) (chunkSize overlap : Z) (fuel : nat) :
  text <> [] -> chunkSize <= overlap ->
  splitIntoFixedChunks fuel text chunkSize overlap = None.
Proof.
  intros Htext Hov. apply fixed_loop_stuck; [exact Hov|].
  destruct text; [contradiction | unfold len; cbn [length]; lia].
Qed.

Lemma splitIntoFixedChunks_never_returns_witness :
  lit "abc" <> [] /\ 50 <= 50 /\ splitIntoFixedChunks 1000 (lit "abc") 50 50 = None.
Proof.
  split; [discriminate|]. split; [lia|].
  apply (splitIntoFixedChunks_never_returns (lit "abc") 50 50 1000); [discriminate | lia].
Defined.

Example splitIntoFixedChunks_example :
  splitIntoFixedChunks 11 (lit "abcdefghij") 5 2 =
    Some [lit "abcde"; lit "defgh"; lit "ghij"; lit "j"].
Proof. reflexivity. Qed.

(** ** Statistics *)

Lemma fold_min_spec rest : forall s,
  (forall x, In x (s :: rest) -> fold_left Z.min rest s <= x) /\
  In (fold_left Z.min rest s) (s :: rest).
Proof.
  induction rest as [| y rest IH]; intros s; cbn [fold_left].
  - split; [intros x [<- | []]; lia | now left].
  - destruct (IH (Z.min s y)) as [Hle Hin]. split.
    + intros x [<- | [<- | Hx]].
      * specialize (Hle (Z.min s y) (or_introl eq_refl)). lia.
      * specialize (Hle (Z.min s y) (or_introl eq_refl)). lia.
      * apply Hle. now right.
    + destruct Hin as [Hin | Hin]; [|now right; right].
      rewrite <- Hin. destruct (Z.min_spec s y) as [[_ ->] | [_ ->]];
        [now left | now right; left].
Qed.

Lemma fold_max_spec rest : forall s,
  (forall x, In x (s :: rest) -> x <= fold_left Z.max rest s) /\
  In (fold_left Z.max rest s) (s :: rest).
Proof.
  induction rest as [| y rest IH]; intros s; cbn [fold_left].
  - split; [intros x [<- | []]; lia | now left].
  - destruct (IH (Z.max s y)) as [Hle Hin]. split.
    + intros x [<- | [<- | Hx]].
      * specialize (Hle (Z.max s y) (or_introl eq_refl)). lia.
      * specialize (Hle (Z.max s y) (or_introl eq_refl)). lia.
      * apply Hle. now right.
    + destruct Hin as [Hin | Hin]; [|now right; right].
      rewrite <- Hin. destruct (Z.max_spec s y) as [[_ ->] | [_ ->]];
        [now right; left | now left].
Qed.

Lemma fold_sum_bounds (l : list Z) lo hi : forall a,
  (forall x, In x l -> lo <= x <= hi) ->
  a + Z.of_nat (length l) * lo <= fold_left (fun sum size => sum + size) l a
    <= a + Z.of_nat (length l) * hi.
Proof.
  induction l as [| x l IH]; intros a H; cbn [fold_left length]; [lia|].
  assert (Hx : lo <= x <= hi) by (apply H; now left).
  assert (Hl : forall y, In y l -> lo <= y <= hi) by (intros y Hy; apply H; now right).
  specialize (IH (a + x) Hl). lia.
Qed.

(** X5. [getChunkStatistics] counts the chunks.  For no chunks every
    number of the answer is 0.  Otherwise the smallest and the largest
    size are the sizes of chunks, every chunk has a size between them,
    and the total lies between the count times the smallest and the count
    times the largest size. *)
Theorem getChunkStatistics_bounds (rounded_quotient : Z -> Z -> Z) (chunks : list str) :
  let s := getChunkStatistics rounded_quotient chunks in
  count s = Z.of_nat (length chunks) /\
  (chunks = [] ->
   avgSize s = 0 /\ minSize s = 0 /\ maxSize s = 0 /\ totalChars s = 0 /\
   sizes s = None) /\
  (chunks <> [] ->
   Forall (fun c => minSize s <= len c <= maxSize s) chunks /\
   Exists (fun c => len c = minSize s) chunks /\
   Exists (fun c => len c = maxSize s) chunks /\
   count s * minSize s <= totalChars s <= count s * maxSize s).
Proof.
  unfold getChunkStatistics. destruct chunks as [| c chunks].
  - cbn. split; [reflexivity|].
    split; [intros _; repeat split | intros H; now contradiction H].
  - cbn [length Nat.eqb map min_of max_of count avgSize minSize maxSize totalChars sizes].
    destruct (fold_min_spec (map len chunks) (len c)) as [Hmin Hmin_in].
    destruct (fold_max_spec (map len chunks) (len c)) as [Hmax Hmax_in].
    change (len c :: map len chunks) with (map len (c :: chunks)) in *.
    set (lo := fold_left Z.min (map len chunks) (len c)) in *.
    set (hi := fold_left Z.max (map len chunks) (len c)) in *.
    split; [reflexivity|]. split; [discriminate|]. intros _.
    assert (Hall : forall x, In x (map len (c :: chunks)) -> lo <= x <= hi)
      by (intros x Hx; split; [now apply Hmin | now apply Hmax]).
    split; [|split; [|split]].
    + rewrite Forall_forall. intros d Hd. apply Hall. now apply in_map.
    + apply in_map_iff in Hmin_in. destruct Hmin_in as [d [Hd Hin]].
      apply Exists_exists. now exists d.
    + apply in_map_iff in Hmax_in. destruct Hmax_in as [d [Hd Hin]].
      apply Exists_exists. now exists d.
    + pose proof (fold_sum_bounds (map len (c :: chunks)) lo hi 0 Hall) as H.
      rewrite length_map in H. cbn [length] in H. lia.
Qed.

(** ** The comparison of the two methods *)

(** X6. [compareChunkingMethods] calls the fixed-size chunking with an
    overlap of 50.  With a maximum size of 50 or less it never returns on
    a text that is not empty.  With a larger maximum size it returns, and
    it recommends the fixed-size method exactly when the semantic chunking
    yields no fragment. *)
Theorem compareChunkingMethods_returns
  (rounded_quotient : Z -> Z -> Z) (percentage : Z -> Z -> string)
  (text : str) (maxSize : Z) (fuel : nat) :
  (text <> [] -> maxSize <= 50 ->
   compareChunkingMethods rounded_quotient percentage fuel text maxSize = None) /\
  (50 < maxSize -> (length text < fuel)%nat ->
   exists answer,
     compareChunkingMethods rounded_quotient percentage fuel text maxSize =
       Some answer /\
     (recommendation answer = "fixed"%string <->
      splitIntoSemanticChunks text maxSize 1 = []) /\
     (recommendation answer = "semantic"%string <->
      splitIntoSemanticChunks text maxSize 1 <> [])).
Proof.
  unfold compareChunkingMethods. split.
  - intros Htext Hmax.
    unfold splitIntoFixedChunks.
    rewrite (fixed_loop_stuck text maxSize 50 fuel 0 []); [reflexivity | lia |].
    destruct text; [contradiction | unfold len; cbn [length]; lia].
  - intros Hmax Hfuel. rewrite splitIntoFixedChunks_closed by lia.
    eexists. split; [reflexivity|]. cbn [recommendation semantic report_of report].
    unfold getChunkStatistics.
    destruct (splitIntoSemanticChunks text maxSize 1) as [| c l]; cbn.
    + split; split; intros H; try reflexivity; try discriminate. now contradiction H.
    + split; split; intros H; try reflexivity; try discriminate.
Qed.

End FixedChunkingFacts.

(* ================================================================== *)
(** * Normal form of the text and what the segmenter keeps of it *)
(* ================================================================== *)

Module SegmenterFacts.
Import Js Chunking Notions ChunkingFacts.

(** ** Single-spaced text *)

(** The only whitespace is the space character. *)
Definition plain_spaces (t : str) : Prop :=
  Forall (fun c => is_space c = true -> c = SP) t.

(** No whitespace character follows another one; [after_space] tells
    whether the character before [t] is one. *)
Fixpoint no_double (after_space : bool) (t : str) : bool :=
  match t with
  | [] => true
  | c :: t' =>
      if is_space c then negb after_space && no_double true t'
      else no_double false t'
  end.

(** A text in normal form: single spaces between words and no
    whitespace at either end. *)
Definition single_spaced (t : str) : Prop :=
  clean t /\ plain_spaces t /\ no_double false t = true.

Lemma no_double_weaken b t : no_double b t = true -> no_double false t = true.
Proof.
  destruct t as [| c t]; [reflexivity|]. cbn [no_double].
  destruct (is_space c); [|auto]. now destruct b.
Qed.

Lemma no_double_app b x y :
  no_double b (x ++ y) = true -> no_double b x = true /\ no_double false y = true.
Proof.
  revert b. induction x as [| c x IH]; intros b H; cbn [app no_double] in *.
  - split; [reflexivity | eapply no_double_weaken; eauto].
  - destruct (is_space c).
    + apply andb_prop in H. destruct H as [Hb H]. apply IH in H. rewrite Hb. tauto.
    + now apply IH.
Qed.

Lemma plain_spaces_app x y : plain_spaces (x ++ y) <-> plain_spaces x /\ plain_spaces y.
Proof. apply Forall_app. Qed.

(** [replace(/\s+/g, ' ')] *)
Lemma replace_runs_plain s : forall b, plain_spaces (replace_runs is_space SP b s).
Proof.
  induction s as [| c s IH]; intros b; cbn [replace_runs]; [constructor|].
  destruct (is_space c) eqn:E.
  - destruct b; [apply IH|]. constructor; [reflexivity | apply IH].
  - constructor; [|apply IH]. intros H. congruence.
Qed.

Lemma replace_runs_no_double s : forall b,
  no_double b (replace_runs is_space SP b s) = true.
Proof.
  induction s as [| c s IH]; intros b; cbn [replace_runs]; [reflexivity|].
  destruct (is_space c) eqn:E.
  - destruct b; [apply IH|]. cbn [no_double]. change (is_space SP) with true.
    cbn. apply IH.
  - cbn [no_double]. rewrite E. apply IH.
Qed.

Lemma replace_runs_fixed s : forall b,
  plain_spaces s -> no_double b s = true -> replace_runs is_space SP b s = s.
Proof.
  induction s as [| c s IH]; intros b Hp Hn; [reflexivity|].
  inversion Hp as [| ? ? Hc Hs]; subst. cbn [replace_runs no_double] in *.
  destruct (is_space c) eqn:E.
  - apply andb_prop in Hn. destruct Hn as [Hb Hn].
    destruct b; [discriminate|]. rewrite (Hc eq_refl). f_equal. now apply IH.
  - f_equal. now apply IH.
Qed.

(** After the first replacement no line break is left for the second. *)
Lemma replace_nl_fixed s : forall b,
  plain_spaces s -> replace_runs is_nl NL b s = s.
Proof.
  induction s as [| c s IH]; intros b Hp; [reflexivity|].
  inversion Hp as [| ? ? Hc Hs]; subst. cbn [replace_runs].
  destruct (is_nl c) eqn:E.
  - exfalso. unfold is_nl in E. apply N.eqb_eq in E. subst c.
    specialize (Hc eq_refl). discriminate.
  - f_equal. now apply IH.
Qed.

(** What [trim] removes. *)
Lemma trim_decompose s :
  exists l r, s = l ++ trim s ++ r /\
              forallb is_space l = true /\ forallb is_space r = true.
Proof.
  exists (take_while is_space s),
         (rev (take_while is_space (rev (drop_while is_space s)))).
  split; [|split].
  - unfold trim. rewrite <- rev_app_distr, take_drop_while, rev_involutive.
    symmetry. apply take_drop_while.
  - apply take_while_all.
  - rewrite forallb_forall. intros c Hc. apply in_rev in Hc.
    pose proof (take_while_all is_space (rev (drop_while is_space s))) as H.
    rewrite forallb_forall in H. now apply H.
Qed.

Lemma trim_single_spaced s :
  plain_spaces s -> no_double false s = true -> single_spaced (trim s).
Proof.
  intros Hp Hn. destruct (trim_decompose s) as [l [r [Hs _]]].
  rewrite Hs in Hp, Hn. split; [apply trim_clean | split].
  - apply plain_spaces_app in Hp. destruct Hp as [_ Hp].
    now apply plain_spaces_app in Hp.
  - apply no_double_app in Hn. destruct Hn as [_ Hn].
    now apply no_double_app in Hn.
Qed.

Lemma normalize_replace text :
  normalize text = trim (replace_runs is_space SP false text).
Proof.
  unfold normalize. now rewrite replace_nl_fixed by apply replace_runs_plain.
Qed.

Lemma normalize_single_spaced text : single_spaced (normalize text).
Proof.
  rewrite normalize_replace. apply trim_single_spaced;
    [apply replace_runs_plain | apply replace_runs_no_double].
Qed.

Lemma single_spaced_normalize t : single_spaced t -> normalize t = t.
Proof.
  intros [Hc [Hp Hn]]. rewrite normalize_replace.
  rewrite replace_runs_fixed by assumption. now apply clean_trim.
Qed.

(** X7. The first step of [splitIntoSemanticChunks] puts the text in a
    normal form: no whitespace at either end, no whitespace character but
    the space, and no two spaces in a row.  The replacement of line breaks
    that follows the replacement of whitespace finds none.  A text in
    normal form is left as it is, so normalising twice is normalising
    once, and the fragments of a text are those of its normal form. *)
Theorem normalize_idempotent (text : str) (maxChunkSize overlapSentences : Z) :
  single_spaced (normalize text) /\
  replace_runs is_nl NL false (replace_runs is_space SP false text) =
    replace_runs is_space SP false text /\
  normalize (normalize text) = normalize text /\
  splitIntoSemanticChunks (normalize text) maxChunkSize overlapSentences =
    splitIntoSemanticChunks text maxChunkSize overlapSentences.
Proof.
  assert (H : normalize (normalize text) = normalize text)
    by apply single_spaced_normalize, normalize_single_spaced.
  split; [apply normalize_single_spaced | split; [|split]].
  - apply replace_nl_fixed, replace_runs_plain.
  - exact H.
  - unfold splitIntoSemanticChunks. now rewrite H.
Qed.

(** ** Text that is only whitespace *)

Lemma replace_runs_spaces s : forall b,
  forallb is_space s = true ->
  forallb is_space (replace_runs is_space SP b s) = true.
Proof.
  induction s as [| c s IH]; intros b H; cbn [replace_runs forallb] in *; [reflexivity|].
  apply andb_prop in H. destruct H as [Hc Hs]. rewrite Hc.
  destruct b; [now apply IH|]. cbn [forallb]. now rewrite IH.
Qed.

Lemma trim_spaces w : forallb is_space w = true -> trim w = [].
Proof. intros H. now rewrite <- (app_nil_l w), trim_app_spaces. Qed.

(** X8. A text made of whitespace only has an empty normal form, and
    [splitIntoSemanticChunks] returns no fragment for it, whatever its
    length. *)
Theorem whitespace_only_text (text : str) (maxChunkSize overlapSentences : Z) :
  forallb is_space text = true ->
  normalize text = [] /\
  splitIntoSemanticChunks text maxChunkSize overlapSentences = [].
Proof.
  intros H.
  assert (Hn : normalize text = []).
  { rewrite normalize_replace. now apply trim_spaces, replace_runs_spaces. }
  split; [exact Hn|]. unfold splitIntoSemanticChunks. now rewrite Hn.
Qed.

Lemma whitespace_only_text_witness :
  forallb is_space (repeat SP 30 ++ [NL; 9; 160; 8232]%N) = true /\
  normalize (repeat SP 30 ++ [NL; 9; 160; 8232]%N) = [] /\
  splitIntoSemanticChunks (repeat SP 30 ++ [NL; 9; 160; 8232]%N) 500 1 = [].
Proof.
  split; [reflexivity|].
  apply (whitespace_only_text (repeat SP 30 ++ [NL; 9; 160; 8232]%N) 500 1).
  reflexivity.
Defined.

(** ** Text without a sentence terminator *)

Lemma drop_while_whole p s : forallb p s = true -> drop_while p s = [].
Proof. intros H. now rewrite <- (app_nil_r s), drop_while_all. Qed.

Lemma take_while_whole p s : forallb p s = true -> take_while p s = s.
Proof.
  intros H. pose proof (take_drop_while p s) as E.
  rewrite drop_while_whole, app_nil_r in E; assumption.
Qed.

Lemma sentence_match_at_no_mark s :
  forallb not_punct s = true -> sentence_match_at s = None.
Proof.
  intros H. unfold sentence_match_at.
  rewrite take_while_whole, drop_while_whole by assumption.
  now destruct s.
Qed.

Lemma match_sentences_from_no_mark fuel : forall s,
  forallb not_punct s = true -> match_sentences_from fuel s = [].
Proof.
  induction fuel as [| fuel IH]; intros s H; cbn [match_sentences_from]; [reflexivity|].
  destruct s as [| c s]; [reflexivity|].
  rewrite sentence_match_at_no_mark by assumption.
  apply IH. cbn [forallb] in H. now apply andb_prop in H.
Qed.

Lemma replace_runs_in p r s c : forall b,
  In c (replace_runs p r b s) -> c = r \/ In c s.
Proof.
  induction s as [| d s IH]; intros b H; cbn [replace_runs] in H; [contradiction|].
  destruct (p d).
  - destruct b; [|destruct H as [<- | H]; [now left|]];
      (apply IH in H; destruct H; [now left | right; now right]).
  - destruct H as [<- | H]; [right; now left|].
    apply IH in H; destruct H; [now left | right; now right].
Qed.

Lemma trim_in s c : In c (trim s) -> In c s.
Proof.
  intros H. destruct (trim_decompose s) as [l [r [E _]]]. rewrite E.
  apply in_or_app. right. apply in_or_app. now left.
Qed.

Lemma normalize_no_mark text :
  forallb not_punct text = true -> forallb not_punct (normalize text) = true.
Proof.
  intros H. rewrite forallb_forall in *. intros c Hc.
  rewrite normalize_replace in Hc. apply trim_in, replace_runs_in in Hc.
  destruct Hc as [-> | Hc]; [reflexivity | now apply H].
Qed.

Lemma splitLongSentenceByWords_nil M : splitLongSentenceByWords [] M = [].
Proof.
  unfold splitLongSentenceByWords. cbn [split_ws fold_left word_step].
  now rewrite andb_false_r.
Qed.

Lemma group_units_single t M O :
  group_units [t] M O =
  if (len t <=? M)%Z then [t] else splitLongSentenceByWords t M.
Proof.
  unfold group_units. cbn [fold_left]. unfold chunk_step.
  cbn [currentChunk chunks currentSize length Nat.ltb Nat.leb].
  rewrite Z.leb_antisym. destruct (M <? len t)%Z; cbn [negb].
  - cbn [chunks currentChunk length Nat.ltb Nat.leb app]. reflexivity.
  - rewrite andb_false_r. reflexivity.
Qed.

(** X9. A text without [.], [!] or [?] has no sentence match: its normal
    form is taken as one single unit.  It is returned as the only fragment
    when it has more than 20 and at most [maxChunkSize] characters, and it
    is split at word boundaries when it is longer than [maxChunkSize]. *)
Theorem text_without_terminator (text : str) (maxChunkSize overlapSentences : Z) :
  forallb not_punct text = true ->
  let t := normalize text in
  match_sentences t = [] /\
  splitIntoSemanticChunks text maxChunkSize overlapSentences =
    postprocess (if (len t <=? maxChunkSize)%Z then [t]
                 else splitLongSentenceByWords t maxChunkSize) /\
  (20 < length t -> (len t <= maxChunkSize)%Z ->
   splitIntoSemanticChunks text maxChunkSize overlapSentences = [t]).
Proof.
  intros H t.
  assert (Hm : match_sentences t = [])
    by (apply match_sentences_from_no_mark, normalize_no_mark, H).
  assert (Ht : trim t = t)
    by (apply clean_trim; destruct (normalize_single_spaced text) as [Hc _]; exact Hc).
  assert (E : splitIntoSemanticChunks text maxChunkSize overlapSentences =
              postprocess (if (len t <=? maxChunkSize)%Z then [t]
                           else splitLongSentenceByWords t maxChunkSize)).
  { unfold splitIntoSemanticChunks. fold t. clearbody t.
    destruct t as [| c t'].
    - cbn [length Nat.eqb]. rewrite splitLongSentenceByWords_nil.
      destruct (len [] <=? maxChunkSize)%Z; reflexivity.
    - cbn [length Nat.eqb]. unfold sentence_units.
      rewrite Hm. cbn [length Nat.eqb map filter]. rewrite Ht.
      cbn [length Nat.ltb Nat.leb].
      now rewrite group_units_single. }
  split; [exact Hm | split; [exact E|]].
  intros Hlong Hfit. rewrite E.
  destruct (Z.leb_spec (len t) maxChunkSize) as [_ | Hgt]; [|lia].
  unfold postprocess. cbn [map filter]. rewrite Ht.
  destruct (Nat.ltb_spec MIN_CHUNK_LENGTH (length t)) as [_ | Hle]; [reflexivity|].
  unfold MIN_CHUNK_LENGTH in Hle. lia.
Qed.

Lemma text_without_terminator_witness :
  forallb not_punct (lit "no final mark  in this   line") = true /\
  let t := normalize (lit "no final mark  in this   line") in
  match_sentences t = [] /\
  splitIntoSemanticChunks (lit "no final mark  in this   line") 500 1 =
    postprocess (if (len t <=? 500)%Z then [t] else splitLongSentenceByWords t 500) /\
  (20 < length t -> (len t <= 500)%Z ->
   splitIntoSemanticChunks (lit "no final mark  in this   line") 500 1 = [t]).
Proof.
  split; [reflexivity|].
  apply (text_without_terminator (lit "no final mark  in this   line") 500 1).
  reflexivity.
Defined.

(** ** Joining and splitting at whitespace *)

Lemma split_ws_not_nil s : forall b, split_ws b s <> [].
Proof.
  induction s as [| c s IH]; intros b; cbn [split_ws]; [discriminate|].
  destruct (is_space c); [destruct b; [apply IH | discriminate]|].
  destruct (split_ws false s); discriminate.
Qed.

Lemma join_cons p rest : rest <> [] -> join (p :: rest) = p ++ SP :: join rest.
Proof. destruct rest; [contradiction | reflexivity]. Qed.

Lemma join_snoc X w : X <> [] -> join (X ++ [w]) = join X ++ SP :: w.
Proof.
  induction X as [| p X IH]; intros H; [contradiction|].
  destruct X as [| q X]; [reflexivity|].
  change ((p :: q :: X) ++ [w]) with (p :: ((q :: X) ++ [w])).
  rewrite join_cons by (destruct X; discriminate).
  rewrite IH by discriminate. rewrite (join_cons p (q :: X)) by discriminate.
  now rewrite <- app_assoc.
Qed.

Lemma join_app X Y : X <> [] -> Y <> [] -> join (X ++ Y) = join X ++ SP :: join Y.
Proof.
  intros HX. revert X HX. induction Y as [| w Y IH]; intros X HX HY; [contradiction|].
  destruct Y as [| v Y]; [now apply join_snoc|].
  change (X ++ w :: v :: Y) with (X ++ [w] ++ v :: Y). rewrite app_assoc.
  rewrite IH by (try discriminate; destruct X; discriminate).
  rewrite join_snoc by assumption. rewrite (join_cons w (v :: Y)) by discriminate.
  now rewrite <- app_assoc.
Qed.

Lemma join_last_app X a b : join (X ++ [a ++ b]) = join (X ++ [a]) ++ b.
Proof.
  destruct X as [| p X]; [reflexivity|].
  rewrite !join_snoc by discriminate. now rewrite <- !app_assoc.
Qed.

(** Joining the words of a text with single spaces collapses its
    whitespace runs. *)
Lemma join_split_ws s : forall b,
  join (split_ws b s) = replace_runs is_space SP b s.
Proof.
  induction s as [| c s IH]; intros b; cbn [split_ws replace_runs]; [reflexivity|].
  destruct (is_space c).
  - destruct b; [apply IH|].
    rewrite join_cons by apply split_ws_not_nil. now rewrite IH.
  - specialize (IH false). destruct (split_ws false s) as [| w ws] eqn:E.
    + now apply split_ws_not_nil in E.
    + rewrite <- IH. destruct ws; reflexivity.
Qed.

(** The words of a text that does not end with whitespace. *)
Lemma split_ws_nonempty s : forall b,
  drop_while is_space (rev s) = rev s ->
  Forall (fun w => w <> []) (tl (split_ws b s)) /\
  (s <> [] -> b = true \/ drop_while is_space s = s -> hd [] (split_ws b s) <> []).
Proof.
  induction s as [| c s IH]; intros b Hend; cbn [split_ws].
  - split; [constructor | intros H; now contradiction H].
  - assert (Hs : s <> [] -> drop_while is_space (rev s) = rev s).
    { intros Hne. cbn [rev] in Hend.
      apply drop_while_fixed_prefix in Hend; [exact Hend|].
      intros E. apply Hne. apply (f_equal (@rev char)) in E.
      now rewrite rev_involutive in E. }
    destruct (is_space c) eqn:Ec.
    + assert (Hne : s <> []).
      { intros ->. cbn [rev app drop_while] in Hend. rewrite Ec in Hend. discriminate. }
      destruct (IH true (Hs Hne)) as [Htl Hhd].
      specialize (Hhd Hne (or_introl eq_refl)).
      destruct (split_ws true s) as [| w ws] eqn:E; [now apply split_ws_not_nil in E|].
      cbn [hd tl] in *.
      destruct b; cbn [hd tl].
      * split; [exact Htl | intros _ _; exact Hhd].
      * split; [constructor; assumption|].
        intros _ [H | H]; [discriminate|].
        cbn [drop_while] in H. rewrite Ec in H.
        pose proof (drop_while_length is_space s) as Hl. rewrite H in Hl.
        cbn [length] in Hl. lia.
    + destruct (split_ws false s) as [| w ws] eqn:E; [now apply split_ws_not_nil in E|].
      cbn [hd tl]. split; [|intros _ _; discriminate].
      destruct s as [| d s'].
      * cbn [split_ws] in E. injection E as <- <-. constructor.
      * destruct (IH false (Hs ltac:(discriminate))) as [Htl _].
        rewrite E in Htl. exact Htl.
Qed.

Lemma clean_words s :
  clean s -> s <> [] -> Forall (fun w => w <> []) (split_ws false s).
Proof.
  intros [Hstart Hend] Hne.
  destruct (split_ws_nonempty s false Hend) as [Htl Hhd].
  specialize (Hhd Hne (or_intror Hstart)).
  destruct (split_ws false s) as [| w ws]; [constructor|].
  constructor; assumption.
Qed.

(** The sub-chunks pushed so far together with the one being built. *)
Definition pieces (st : list str * str) : list str :=
  match snd st with
  | [] => fst st
  | cur => fst st ++ [cur]
  end.

Lemma word_step_join M st done w :
  w <> [] -> is_word w = true ->
  (snd st = [] -> fst st = [] /\ done = []) ->
  (snd st <> [] -> clean (snd st) /\ done <> []) ->
  join (pieces st) = join done ->
  let st' := word_step M st w in
  snd st' <> [] /\ clean (snd st') /\
  join (pieces st') = join (done ++ [w]).
Proof.
  destruct st as [subChunks cur]. cbn [fst snd]. intros Hw Hword Hnil Hcur Hjoin.
  unfold word_step. destruct cur as [| c cur].
  - destruct (Hnil eq_refl) as [-> ->].
    rewrite andb_false_r. cbn [fst snd pieces app].
    split; [exact Hw | split; [now apply word_clean|]].
    unfold pieces. cbn [fst snd]. now destruct w.
  - destruct (Hcur ltac:(discriminate)) as [Hclean Hdone].
    assert (Hboth : clean ((c :: cur) ++ SP :: w) /\ (c :: cur) ++ SP :: w <> []).
    { apply (join_clean [c :: cur; w]); [discriminate|].
      constructor; [split; [exact Hclean | discriminate]|].
      constructor; [split; [now apply word_clean | exact Hw] | constructor]. }
    unfold pieces in Hjoin. cbn [fst snd] in Hjoin.
    destruct ((M <? len ((c :: cur) ++ SP :: w))%Z
              && negb (length (c :: cur) =? 0)); cbn [fst snd].
    + split; [exact Hw | split; [now apply word_clean|]].
      unfold pieces. cbn [fst snd]. rewrite (clean_trim _ Hclean).
      destruct w as [| d w]; [contradiction|].
      rewrite join_snoc by (destruct subChunks; discriminate).
      transitivity (join done ++ SP :: d :: w);
        [now rewrite <- Hjoin | now rewrite join_snoc].
    + split; [now destruct Hboth | split; [now destruct Hboth|]].
      unfold pieces. cbn [fst snd app].
      change (c :: cur ++ SP :: w) with ((c :: cur) ++ SP :: w).
      rewrite join_last_app.
      transitivity (join done ++ SP :: w);
        [now rewrite <- Hjoin | now rewrite join_snoc].
Qed.

Lemma word_fold_join M words : forall st done,
  Forall (fun w => w <> [] /\ is_word w = true) words ->
  (snd st = [] -> fst st = [] /\ done = []) ->
  (snd st <> [] -> clean (snd st) /\ done <> []) ->
  join (pieces st) = join done ->
  let st' := fold_left (word_step M) words st in
  (snd st' <> [] -> clean (snd st')) /\
  join (pieces st') = join (done ++ words).
Proof.
  induction words as [| w words IH]; intros st done Hwords Hnil Hcur Hjoin;
    cbn [fold_left].
  - rewrite app_nil_r. split; [|exact Hjoin]. intros H. now apply Hcur.
  - inversion Hwords as [| ? ? [Hw Hword] Hrest]; subst.
    destruct (word_step_join M st done w Hw Hword Hnil Hcur Hjoin) as [H1 [H2 H3]].
    specialize (IH (word_step M st w) (done ++ [w]) Hrest).
    cbv zeta. rewrite <- app_assoc in IH. apply IH.
    + intros E. now contradiction H1.
    + intros _. split; [exact H2 | destruct done; discriminate].
    + exact H3.
Qed.

Lemma splitLongSentenceByWords_pieces_of sentence M :
  splitLongSentenceByWords sentence M =
  (let st := fold_left (word_step M) (split_ws false sentence) ([], []) in
   if (0 <? len (trim (snd st)))%Z then fst st ++ [trim (snd st)] else fst st).
Proof.
  unfold splitLongSentenceByWords.
  now destruct (fold_left (word_step M) (split_ws false sentence) ([], [])).
Qed.

Lemma splitLongSentenceByWords_join sentence M :
  clean sentence ->
  join (splitLongSentenceByWords sentence M) = join (split_ws false sentence).
Proof.
  intros Hclean. destruct sentence as [| c sentence].
  - now rewrite splitLongSentenceByWords_nil.
  - rewrite splitLongSentenceByWords_pieces_of.
    assert (Hwords : Forall (fun w => w <> [] /\ is_word w = true)
                       (split_ws false (c :: sentence))).
    { pose proof (clean_words _ Hclean ltac:(discriminate)) as H.
      rewrite Forall_forall in *. intros w Hw. split; [now apply H|].
      eapply split_ws_words; eauto. }
    destruct (word_fold_join M (split_ws false (c :: sentence)) ([], []) []
                Hwords) as [H1 H2]; cbn [fst snd]; try tauto; try reflexivity.
    cbv zeta in *. cbn [app] in H2. rewrite <- H2.
    destruct (fold_left (word_step M) (split_ws false (c :: sentence)) ([], []))
      as [subChunks cur].
    cbn [fst snd] in *. unfold pieces. cbn [fst snd].
    destruct cur as [| d cur]; [reflexivity|].
    rewrite (clean_trim _ (H1 ltac:(discriminate))). reflexivity.
Qed.

(** The sub-chunks of a sentence in normal form, joined again. *)
Lemma splitLongSentenceByWords_rejoin (sentence : str) (maxChunkSize : Z) :
  single_spaced sentence ->
  join (splitLongSentenceByWords sentence maxChunkSize) = sentence.
Proof.
  intros [Htrim [Hp Hn]].
  rewrite splitLongSentenceByWords_join by assumption.
  rewrite join_split_ws. now apply replace_runs_fixed.
Qed.

(** X10. [splitLongSentenceByWords] loses no word and adds none: for a
    sentence without whitespace at either end, the sub-chunks joined with
    single spaces are the sentence with each whitespace run replaced by
    one space, whatever the maximum size; for a sentence in normal form
    they are the sentence itself. *)
Theorem splitLongSentenceByWords_round_trip (sentence : str) (maxChunkSize : Z) :
  trim sentence = sentence ->
  join (splitLongSentenceByWords sentence maxChunkSize) =
    replace_runs is_space SP false sentence /\
  (single_spaced sentence ->
   join (splitLongSentenceByWords sentence maxChunkSize) = sentence).
Proof.
  intros Htrim.
  assert (Hclean : clean sentence) by (rewrite <- Htrim; apply trim_clean).
  assert (E : join (splitLongSentenceByWords sentence maxChunkSize) =
              replace_runs is_space SP false sentence)
    by (rewrite splitLongSentenceByWords_join by assumption; apply join_split_ws).
  split; [exact E|]. intros [_ [Hp Hn]]. rewrite E. now apply replace_runs_fixed.
Qed.

Lemma splitLongSentenceByWords_round_trip_witness :
  trim (lit "alpha  beta gamma delta.") = lit "alpha  beta gamma delta." /\
  join (splitLongSentenceByWords (lit "alpha  beta gamma delta.") 11) =
    replace_runs is_space SP false (lit "alpha  beta gamma delta.") /\
  (single_spaced (lit "alpha  beta gamma delta.") ->
   join (splitLongSentenceByWords (lit "alpha  beta gamma delta.") 11) =
     lit "alpha  beta gamma delta.").
Proof.
  split; [reflexivity|].
  apply (splitLongSentenceByWords_round_trip (lit "alpha  beta gamma delta.") 11).
  reflexivity.
Defined.

(** ** The sentence units of a text in normal form *)

Lemma match_sentences_from_segment fuel : forall s m,
  In m (match_sentences_from fuel s) -> exists before after, s = before ++ m ++ after.
Proof.
  induction fuel as [| fuel IH]; intros s m H; cbn [match_sentences_from] in H;
    [contradiction|].
  destruct s as [| c s]; [contradiction|].
  destruct (sentence_match_at (c :: s)) as [n |].
  - destruct H as [<- | H].
    + exists [], (skipn n (c :: s)). cbn [app]. symmetry. apply firstn_skipn.
    + apply IH in H. destruct H as [before [after E]].
      exists (firstn n (c :: s) ++ before), after.
      rewrite <- app_assoc, <- E. symmetry. apply firstn_skipn.
  - apply IH in H. destruct H as [before [after ->]]. now exists (c :: before), after.
Qed.

Lemma segment_single_spaced before m after :
  single_spaced (before ++ m ++ after) -> single_spaced (trim m).
Proof.
  intros [_ [Hp Hn]]. apply trim_single_spaced.
  - apply plain_spaces_app in Hp. destruct Hp as [_ Hp].
    now apply plain_spaces_app in Hp.
  - apply no_double_app in Hn. destruct Hn as [_ Hn].
    now apply no_double_app in Hn.
Qed.

Lemma sentence_units_single_spaced t u :
  single_spaced t -> In u (sentence_units t) -> single_spaced u /\ u <> [].
Proof.
  intros Ht Hu. split; [|now apply sentence_units_clean in Hu].
  unfold sentence_units in Hu. apply filter_In in Hu. destruct Hu as [Hu _].
  apply in_map_iff in Hu. destruct Hu as [m [<- Hm]].
  destruct (length (match_sentences t) =? 0).
  - destruct Hm as [<- | []]. apply (segment_single_spaced [] t []).
    now rewrite app_nil_r.
  - apply match_sentences_from_segment in Hm. destruct Hm as [before [after E]].
    apply (segment_single_spaced before m after). now rewrite <- E.
Qed.

(** ** Grouping without overlap *)

(** The fragments closed so far together with the one being built. *)
Definition assembled (st : loop_state) : list str := chunks st ++ pending st.

Lemma join_one_more X done u :
  (done = [] <-> X = []) -> join X = join done ->
  join (X ++ [u]) = join (done ++ [u]).
Proof.
  intros Hnil Hjoin. destruct X as [| x X].
  - pose proof (proj2 Hnil eq_refl) as Hd. subst done. reflexivity.
  - assert (done <> []) by (intros E; apply Hnil in E; discriminate).
    rewrite !join_snoc by (assumption || discriminate).
    transitivity (join done ++ SP :: u); [now rewrite <- Hjoin | reflexivity].
Qed.

Lemma chunk_step_concat M O st done u :
  (O <= 0)%Z -> single_spaced u -> u <> [] ->
  (done = [] <-> assembled st = []) ->
  join (assembled st) = join done ->
  let st' := chunk_step M O st u in
  assembled st' <> [] /\ join (assembled st') = join (done ++ [u]).
Proof.
  intros HO Hu Hne Hnil Hjoin. unfold chunk_step, assembled, pending in *.
  destruct (Z.ltb_spec 0 O) as [|_]; [lia|]. cbn [andb].
  destruct (M <? len u)%Z.
  - assert (Hp : join (splitLongSentenceByWords u M) = u).
    { now apply splitLongSentenceByWords_rejoin. }
    assert (Hpne : splitLongSentenceByWords u M <> []).
    { intros E. rewrite E in Hp. cbn in Hp. now apply Hne. }
    set (X := chunks st ++
              (if 0 <? length (currentChunk st) then [join (currentChunk st)] else []))
      in *.
    assert (E : (X ++ splitLongSentenceByWords u M) ++ [] <> [] /\
                join ((X ++ splitLongSentenceByWords u M) ++ []) =
                join (done ++ [u])).
    { rewrite app_nil_r. split.
      - intros E. apply app_eq_nil in E. now destruct E.
      - destruct X as [| x X].
        + pose proof (proj2 Hnil eq_refl) as Hd. subst done. exact Hp.
        + assert (done <> []) by (intros E; apply Hnil in E; discriminate).
          rewrite join_app by (assumption || discriminate).
          rewrite join_snoc by assumption.
          transitivity (join done ++ SP :: join (splitLongSentenceByWords u M));
            [now rewrite <- Hjoin | now rewrite Hp]. }
    subst X. destruct (0 <? length (currentChunk st)) eqn:Ecur;
      cbn [chunks currentChunk].
    + cbn [length Nat.ltb Nat.leb]. exact E.
    + rewrite Ecur. rewrite (app_nil_r (chunks st)) in E. exact E.
  - destruct ((M <? currentSize st + len u)%Z && (0 <? length (currentChunk st)))
      eqn:Eclose.
    + apply andb_prop in Eclose. destruct Eclose as [_ Ecur]. rewrite Ecur in *.
      cbn [chunks currentChunk app length Nat.ltb Nat.leb join].
      split; [intros E; apply app_eq_nil in E; now destruct E|].
      now apply join_one_more.
    + cbn [chunks currentChunk].
      replace (0 <? length (currentChunk st ++ [u])) with true
        by (rewrite length_app; cbn [length]; symmetry; apply Nat.ltb_lt; lia).
      split; [intros E; apply app_eq_nil in E; now destruct E|].
      destruct (currentChunk st) as [| v cur] eqn:Ecur;
        cbn [length Nat.ltb Nat.leb] in *.
      * cbn [app join]. rewrite app_nil_r in Hnil, Hjoin. now apply join_one_more.
      * rewrite (join_snoc (v :: cur) u) by discriminate. rewrite join_last_app.
        assert (done <> []).
        { intros E. apply Hnil in E. apply app_eq_nil in E. now destruct E. }
        rewrite (join_snoc done) by assumption.
        transitivity (join done ++ SP :: u); [now rewrite <- Hjoin | reflexivity].
Qed.

Lemma chunk_fold_concat M O units : forall st done,
  (O <= 0)%Z -> Forall (fun u => single_spaced u /\ u <> []) units ->
  (done = [] <-> assembled st = []) ->
  join (assembled st) = join done ->
  join (assembled (fold_left (chunk_step M O) units st)) = join (done ++ units).
Proof.
  induction units as [| u units IH]; intros st done HO Hunits Hnil Hjoin;
    cbn [fold_left]; [now rewrite app_nil_r|].
  inversion Hunits as [| ? ? [Hu Hne] Hrest]; subst.
  destruct (chunk_step_concat M O st done u HO Hu Hne Hnil Hjoin) as [H1 H2].
  cbv zeta in H1, H2.
  rewrite (IH (chunk_step M O st u) (done ++ [u])); try assumption.
  - now rewrite <- app_assoc.
  - split; [intros E; now destruct done | intros E; now contradiction H1].
Qed.

(** X11. Without overlap ([overlapSentences] at most 0) grouping and
    word-splitting lose nothing, repeat nothing and keep the order: the
    assembled fragments joined with single spaces are the sentence units of
    the normalised text joined with single spaces. *)
Theorem no_overlap_keeps_units (text : str) (maxChunkSize overlapSentences : Z) :
  (overlapSentences <= 0)%Z ->
  join (assembledChunks text maxChunkSize overlapSentences) =
  join (sentence_units (normalize text)).
Proof.
  intros HO. unfold assembledChunks.
  destruct (length (normalize text) =? 0) eqn:E.
  - apply Nat.eqb_eq in E. destruct (normalize text); [reflexivity | discriminate].
  - rewrite group_units_pending. cbv zeta.
    apply (chunk_fold_concat maxChunkSize overlapSentences
             (sentence_units (normalize text))
             {| chunks := []; currentChunk := []; currentSize := 0 |} []); try assumption.
    + rewrite Forall_forall. intros u Hu.
      apply sentence_units_single_spaced in Hu; [exact Hu|].
      apply normalize_single_spaced.
    + split; reflexivity.
    + reflexivity.
Qed.

Lemma no_overlap_keeps_units_witness :
  (0 <= 0)%Z /\
  join (assembledChunks (lit "Cats are mammals. Dogs are mammals too.") 20 0) =
  join (sentence_units (normalize (lit "Cats are mammals. Dogs are mammals too."))).
Proof.
  split; [lia|].
  apply (no_overlap_keeps_units (lit "Cats are mammals. Dogs are mammals too.") 20 0).
  lia.
Defined.

(** ** The form of the fragments *)

(** Whitespace inside a text is made of single spaces. *)
Definition inner_spaces (t : str) : Prop :=
  plain_spaces t /\ no_double false t = true.

Lemma starts_with_word y :
  drop_while is_space y = y -> y <> [] ->
  exists d y', y = d :: y' /\ is_space d = false.
Proof.
  intros H Hne. destruct y as [| d y']; [contradiction|].
  exists d, y'. split; [reflexivity|].
  destruct (is_space d) eqn:E; [|reflexivity].
  cbn [drop_while] in H. rewrite E in H.
  pose proof (drop_while_length is_space y') as Hl. rewrite H in Hl.
  cbn [length] in Hl. lia.
Qed.

Lemma no_double_join x : forall b y,
  no_double b x = true -> no_double false y = true ->
  x <> [] -> drop_while is_space (rev x) = rev x ->
  y <> [] -> drop_while is_space y = y ->
  no_double b (x ++ SP :: y) = true.
Proof.
  induction x as [| c x IH]; intros b y Hx Hy Hne Hend Hyne Hstart; [contradiction|].
  destruct x as [| c' x].
  - cbn [rev app drop_while] in Hend.
    destruct (is_space c) eqn:Ec; [discriminate|].
    cbn [app no_double]. rewrite Ec. change (is_space SP) with true. cbn [negb andb].
    destruct (starts_with_word y Hstart Hyne) as [d [y' [-> Ed]]].
    cbn [no_double] in *. now rewrite Ed in *.
  - assert (Hend' : drop_while is_space (rev (c' :: x)) = rev (c' :: x)).
    { change (rev (c :: c' :: x)) with (rev (c' :: x) ++ [c]) in Hend.
      apply drop_while_fixed_prefix in Hend; [exact Hend|].
      intros E. apply (f_equal (@rev char)) in E.
      rewrite rev_involutive in E. discriminate. }
    change ((c :: c' :: x) ++ SP :: y) with (c :: ((c' :: x) ++ SP :: y)).
    cbn [no_double] in Hx |- *.
    destruct (is_space c).
    + apply andb_prop in Hx. destruct Hx as [-> Hx]. cbn [andb].
      apply IH; (assumption || discriminate).
    + apply IH; (assumption || discriminate).
Qed.

Lemma join_inner_spaces us :
  us <> [] -> Forall (fun u => single_spaced u /\ u <> []) us ->
  inner_spaces (join us).
Proof.
  induction us as [| u us IH]; intros Hne H; [contradiction|].
  inversion H as [| ? ? [[Hclean [Hp Hn]] Hu] Hrest]; subst.
  destruct us as [| v us]; [now split|].
  destruct (IH ltac:(discriminate) Hrest) as [Hp' Hn'].
  assert (Hjoin : clean (join (v :: us)) /\ join (v :: us) <> []).
  { apply join_clean; [discriminate|].
    eapply Forall_impl; [|exact Hrest]. intros a [[Ha _] Hb]. now split. }
  rewrite join_cons by discriminate. split.
  - apply plain_spaces_app. split; [exact Hp|]. constructor; [reflexivity | exact Hp'].
  - destruct Hclean as [_ Hend]. destruct Hjoin as [[Hstart _] Hjne].
    now apply no_double_join.
Qed.

Lemma join_segment p l :
  In p l -> exists before after, join l = before ++ p ++ after.
Proof.
  induction l as [| q l IH]; intros H; [contradiction|].
  destruct l as [| q' l].
  - destruct H as [<- | []]. exists [], []. cbn [join app]. now rewrite app_nil_r.
  - rewrite join_cons by discriminate. destruct H as [<- | H].
    + now exists [], (SP :: join (q' :: l)).
    + destruct (IH H) as [before [after E]]. rewrite E.
      exists (q ++ SP :: before), after. now rewrite <- app_assoc.
Qed.

Lemma splitLongSentenceByWords_inner_spaces u M :
  single_spaced u -> Forall inner_spaces (splitLongSentenceByWords u M).
Proof.
  intros Hu. rewrite Forall_forall. intros p Hp.
  apply join_segment in Hp. destruct Hp as [before [after E]].
  assert (Hj : join (splitLongSentenceByWords u M) = u).
  { now apply splitLongSentenceByWords_rejoin. }
  rewrite Hj in E. destruct Hu as [_ [Hp Hn]]. rewrite E in Hp, Hn. split.
  - apply plain_spaces_app in Hp. destruct Hp as [_ Hp].
    now apply plain_spaces_app in Hp.
  - apply no_double_app in Hn. destruct Hn as [_ Hn].
    now apply no_double_app in Hn.
Qed.

Section Invariant.

Variable maxChunkSize overlapSentences : Z.
Variable on_chunk : str -> Prop.
Variable on_unit : str -> Prop.

Hypothesis on_join :
  forall g, g <> [] -> Forall on_unit g -> on_chunk (join g).
Hypothesis on_pieces :
  forall u, on_unit u -> Forall on_chunk (splitLongSentenceByWords u maxChunkSize).

Lemma chunk_step_invariant st u :
  on_unit u -> Forall on_chunk (chunks st) -> Forall on_unit (currentChunk st) ->
  let st' := chunk_step maxChunkSize overlapSentences st u in
  Forall on_chunk (chunks st') /\ Forall on_unit (currentChunk st').
Proof.
  intros Hu Hc Hg. unfold chunk_step.
  assert (Hclose : (0 <? length (currentChunk st)) = true ->
                   Forall on_chunk (chunks st ++ [join (currentChunk st)])).
  { intros H. apply Forall_app. split; [exact Hc|]. constructor; [|constructor].
    apply on_join; [now apply nonempty_length | exact Hg]. }
  destruct (maxChunkSize <? len u)%Z.
  - destruct (0 <? length (currentChunk st)) eqn:E; cbn [chunks currentChunk].
    + split; [|constructor]. apply Forall_app. split; [now apply Hclose | now apply on_pieces].
    + split; [|exact Hg]. apply Forall_app. split; [exact Hc | now apply on_pieces].
  - assert (Hone : Forall on_unit [u]) by (constructor; [exact Hu | constructor]).
    destruct ((maxChunkSize <? currentSize st + len u)%Z
              && (0 <? length (currentChunk st))) eqn:E.
    + apply andb_prop in E. destruct E as [_ E].
      destruct ((0 <? overlapSentences)%Z
                && (overlapSentences <? Z.of_nat (length (currentChunk st)))%Z);
        cbn [chunks currentChunk]; (split; [now apply Hclose|]);
        apply Forall_app; (split; [|exact Hone]); [|constructor].
      destruct (slice_from_skipn (- overlapSentences) (currentChunk st)) as [n ->].
      now apply Forall_skipn.
    + cbn [chunks currentChunk]. split; [exact Hc|]. apply Forall_app. now split.
Qed.

Lemma chunk_fold_invariant units : forall st,
  Forall on_unit units ->
  Forall on_chunk (chunks st) -> Forall on_unit (currentChunk st) ->
  let st' := fold_left (chunk_step maxChunkSize overlapSentences) units st in
  Forall on_chunk (chunks st') /\ Forall on_unit (currentChunk st').
Proof.
  induction units as [| u units IH]; intros st Hunits Hc Hg; [now split|].
  cbn [fold_left]. inversion Hunits as [| ? ? Hu Hrest]; subst.
  destruct (chunk_step_invariant st u Hu Hc Hg) as [H1 H2].
  now apply IH.
Qed.

Lemma group_units_invariant units :
  Forall on_unit units ->
  Forall on_chunk (group_units units maxChunkSize overlapSentences).
Proof.
  intros Hunits. unfold group_units.
  destruct (chunk_fold_invariant units
              {| chunks := []; currentChunk := []; currentSize := 0 |}
              Hunits (Forall_nil _) (Forall_nil _)) as [H1 H2].
  cbv zeta in H1, H2.
  destruct (0 <? length (currentChunk _)) eqn:E; [|exact H1].
  apply Forall_app. split; [exact H1|]. constructor; [|constructor].
  apply on_join; [now apply nonempty_length | exact H2].
Qed.

End Invariant.

(** X12. Every fragment returned by [splitIntoSemanticChunks] is in
    normal form, with overlap or without: it has no whitespace at either
    end, no whitespace character but the space (so no line break and no
    tab) and no two spaces in a row; and it is not longer than the text. *)
Theorem fragments_in_normal_form (text : str) (maxChunkSize overlapSentences : Z) :
  Forall (fun fragment => single_spaced fragment /\ length fragment <= length text)
    (splitIntoSemanticChunks text maxChunkSize overlapSentences).
Proof.
  rewrite splitIntoSemanticChunks_assembled.
  assert (H : Forall inner_spaces (assembledChunks text maxChunkSize overlapSentences)).
  { unfold assembledChunks. destruct (length (normalize text) =? 0); [constructor|].
    apply group_units_invariant with (on_unit := fun u => single_spaced u /\ u <> []).
    - intros g. apply join_inner_spaces.
    - intros u [Hu _]. now apply splitLongSentenceByWords_inner_spaces.
    - rewrite Forall_forall. intros u Hu.
      apply sentence_units_single_spaced in Hu; [exact Hu|].
      apply normalize_single_spaced. }
  rewrite Forall_forall in *. intros f Hf. unfold postprocess in Hf.
  apply filter_In in Hf. destruct Hf as [Hf _].
  apply in_map_iff in Hf. destruct Hf as [c [<- Hc]]. split.
  - destruct (H c Hc). now apply trim_single_spaced.
  - pose proof (trim_length c). apply assembledChunks_length in Hc. lia.
Qed.

(** ** Text after the last sentence terminator *)

Lemma take_while_app_all p u v :
  forallb p u = true -> take_while p (u ++ v) = u ++ take_while p v.
Proof.
  induction u as [| c u IH]; intros H; [reflexivity|].
  cbn [forallb] in H. apply andb_prop in H. destruct H as [Hc Hu].
  cbn [app take_while]. now rewrite Hc, IH.
Qed.

Lemma take_while_app_keep p u v :
  drop_while p u <> [] -> take_while p (u ++ v) = take_while p u.
Proof.
  induction u as [| c u IH]; intros H; [now contradiction H|].
  cbn [app take_while drop_while] in *. destruct (p c); [|reflexivity].
  now rewrite IH.
Qed.

Section Tail.

(** A tail: a space, then text without terminator that does not start
    with whitespace. *)
Variable t : str.
Hypothesis t_no_mark : forallb not_punct t = true.
Hypothesis t_start : take_while is_space t = [].

Let tail : str := SP :: t.

Lemma tail_no_mark : forallb not_punct tail = true.
Proof. unfold tail. cbn [forallb]. now rewrite t_no_mark. Qed.

Lemma tail_spaces : take_while is_space tail = [SP].
Proof. unfold tail. cbn [take_while]. change (is_space SP) with true. now rewrite t_start. Qed.

(** The attempt at the start of [s] when the tail follows [s]: a match
    that ends where [s] ends takes the space of the tail. *)
Lemma sentence_match_at_tail s :
  sentence_match_at (s ++ tail) =
  match sentence_match_at s with
  | Some n => Some (if n =? length s then S n else n)
  | None => None
  end.
Proof.
  destruct (drop_while not_punct s) as [| m d1'] eqn:E1.
  - apply drop_while_nil_all in E1.
    rewrite (sentence_match_at_no_mark s E1).
    apply sentence_match_at_no_mark. rewrite forallb_app, E1. apply tail_no_mark.
  - assert (Hs : length s = length (take_while not_punct s) + length (m :: d1'))
      by (rewrite <- E1, <- length_app; now rewrite take_drop_while).
    unfold sentence_match_at.
    rewrite take_while_app_keep by (rewrite E1; discriminate).
    rewrite drop_while_app_keep by (rewrite E1; discriminate).
    rewrite E1. set (body := take_while not_punct s) in *.
    destruct body as [| b0 body'] eqn:Eb; [reflexivity|]. rewrite <- Eb in *. clear Eb.
    destruct (drop_while is_punct (m :: d1')) as [| c d2'] eqn:E2.
    + apply drop_while_nil_all in E2.
      rewrite take_while_app_all by exact E2.
      rewrite drop_while_all by exact E2.
      rewrite (take_while_whole is_punct (m :: d1') E2).
      assert (Hp : take_while is_punct tail = [] /\ drop_while is_punct tail = tail)
        by (unfold tail; cbn; auto).
      destruct Hp as [-> ->]. rewrite app_nil_r.
      unfold tail at 1. change (is_space SP) with true. cbv iota. rewrite tail_spaces.
      cbn [app]. f_equal.
      replace (length body + length (m :: d1') =? length s) with true.
      * cbn [length]. lia.
      * symmetry. apply Nat.eqb_eq. now rewrite Hs.
    + assert (Hd1 : length (m :: d1') =
                    length (take_while is_punct (m :: d1')) + length (c :: d2'))
        by (rewrite <- E2, <- length_app; now rewrite take_drop_while).
      rewrite take_while_app_keep by (rewrite E2; discriminate).
      rewrite drop_while_app_keep by (rewrite E2; discriminate).
      rewrite E2. set (marks := take_while is_punct (m :: d1')) in *.
      destruct marks as [| m0 marks'] eqn:Em; [reflexivity|]. rewrite <- Em in *. clear Em.
      cbn [app]. destruct (is_space c) eqn:Ec; [|reflexivity].
      f_equal.
      assert (Hlen : length s = length body + length marks + length (c :: d2')).
      { rewrite Hs, Hd1. lia. }
      change (c :: d2' ++ tail) with ((c :: d2') ++ tail).
      destruct (drop_while is_space (c :: d2')) as [| e d3'] eqn:E3.
      * apply drop_while_nil_all in E3.
        rewrite take_while_app_all by exact E3.
        rewrite (take_while_whole is_space (c :: d2') E3).
        rewrite tail_spaces, length_app. cbn [length].
        replace (_ =? length s) with true by (symmetry; apply Nat.eqb_eq; cbn [length] in *; lia).
        lia.
      * rewrite take_while_app_keep by (rewrite E3; discriminate).
        assert (Hd2 : length (c :: d2') =
                      length (take_while is_space (c :: d2')) + length (e :: d3')).
        { rewrite <- E3, <- length_app. now rewrite take_drop_while. }
        replace (_ =? length s) with false; [reflexivity|].
        symmetry. apply Nat.eqb_neq. cbn [length] in *. lia.
Qed.

Lemma match_sentences_from_tail bound : forall s fuel1 fuel2,
  length s <= bound -> length (s ++ tail) <= fuel1 -> length s <= fuel2 ->
  map trim (match_sentences_from fuel1 (s ++ tail)) =
  map trim (match_sentences_from fuel2 s).
Proof.
  induction bound as [| bound IH]; intros s fuel1 fuel2 Hb H1 H2.
  - destruct s; [|cbn [length] in Hb; lia]. cbn [app].
    rewrite match_sentences_from_no_mark by apply tail_no_mark.
    now rewrite match_sentences_from_nil.
  - destruct s as [| c s].
    + cbn [app]. rewrite match_sentences_from_no_mark by apply tail_no_mark.
      now rewrite match_sentences_from_nil.
    + destruct fuel1 as [| fuel1]; [rewrite length_app in H1; cbn [length] in H1; lia|].
      destruct fuel2 as [| fuel2]; [cbn [length] in H2; lia|].
      change ((c :: s) ++ tail) with (c :: (s ++ tail)) at 1.
      cbn [match_sentences_from].
      change (c :: (s ++ tail)) with ((c :: s) ++ tail).
      rewrite sentence_match_at_tail.
      rewrite length_app in H1. cbn [length] in Hb, H1, H2.
      destruct (sentence_match_at (c :: s)) as [n |] eqn:Em.
      * destruct (sentence_match_at_shape _ _ Em)
          as (core & ws & Hfirst & Hws & Hn & Hle & Hcore & _).
        destruct (Nat.eqb_spec n (length (c :: s))) as [Hend | Hmid].
        -- cbn [map]. f_equal.
           ++ rewrite Hend. unfold tail.
              replace (S (length (c :: s))) with (length ((c :: s) ++ [SP]))
                by (rewrite length_app; cbn [length]; lia).
              change ((c :: s) ++ SP :: t) with ((c :: s) ++ [SP] ++ t).
              rewrite app_assoc, firstn_app, firstn_all, Nat.sub_diag, firstn_O, app_nil_r.
              rewrite firstn_all. now apply trim_app_spaces.
           ++ rewrite Hend. rewrite skipn_all.
              rewrite match_sentences_from_nil.
              unfold tail.
              replace (S (length (c :: s))) with (length ((c :: s) ++ [SP]))
                by (rewrite length_app; cbn [length]; lia).
              change ((c :: s) ++ SP :: t) with ((c :: s) ++ [SP] ++ t).
              rewrite app_assoc, skipn_app, skipn_all, Nat.sub_diag. cbn [skipn app].
              now rewrite match_sentences_from_no_mark by exact t_no_mark.
        -- cbn [map]. cbn [length] in Hle, Hmid. f_equal.
           ++ rewrite firstn_app.
              replace (n - length (c :: s)) with 0 by (cbn [length]; lia).
              now rewrite firstn_O, app_nil_r.
           ++ rewrite skipn_app.
              replace (n - length (c :: s)) with 0 by (cbn [length]; lia).
              cbn [skipn]. apply IH.
              ** rewrite length_skipn. cbn [length]. lia.
              ** rewrite length_app, length_skipn. cbn [length]. lia.
              ** rewrite length_skipn. cbn [length]. lia.
      * apply IH; try lia. rewrite length_app. lia.
Qed.

Lemma match_sentences_tail s :
  map trim (match_sentences (s ++ tail)) = map trim (match_sentences s).
Proof. unfold match_sentences. now apply (match_sentences_from_tail (length s)). Qed.

Lemma sentence_units_tail s :
  match_sentences s <> [] -> sentence_units (s ++ tail) = sentence_units s.
Proof.
  intros H. unfold sentence_units.
  pose proof (match_sentences_tail s) as E.
  destruct (match_sentences s) as [| a l]; [contradiction|].
  destruct (match_sentences (s ++ tail)) as [| a' l']; [discriminate|].
  cbn [length Nat.eqb]. now rewrite E.
Qed.

End Tail.

Lemma no_double_after_space t :
  no_double true t = true -> take_while is_space t = [].
Proof.
  destruct t as [| c t]; [reflexivity|]. cbn [no_double take_while].
  now destruct (is_space c).
Qed.

(** X13. Text after the last sentence terminator is dropped: when a text
    in normal form is a part [s] with at least one sentence match, then a
    space, then a part [t] without [.], [!] or [?], its sentence units and
    its fragments are those of [s] alone, so no fragment holds the words
    of [t]. *)
Theorem trailing_text_is_dropped (s t : str) (maxChunkSize overlapSentences : Z) :
  normalize (s ++ SP :: t) = s ++ SP :: t ->
  forallb not_punct t = true ->
  match_sentences s <> [] ->
  sentence_units (s ++ SP :: t) = sentence_units s /\
  splitIntoSemanticChunks (s ++ SP :: t) maxChunkSize overlapSentences =
    splitIntoSemanticChunks s maxChunkSize overlapSentences.
Proof.
  intros Hnorm Ht Hs.
  pose proof (normalize_single_spaced (s ++ SP :: t)) as Hform.
  rewrite Hnorm in Hform. destruct Hform as [[Hstart Hend] [Hp Hn]].
  assert (Hsne : s <> []) by (intros ->; now apply Hs).
  apply no_double_app in Hn. destruct Hn as [Hn1 Hn2].
  assert (Hs_form : single_spaced s).
  { split; [split|split].
    - now apply drop_while_fixed_prefix in Hstart.
    - destruct (rev s) as [| c r] eqn:Er.
      + reflexivity.
      + cbn [drop_while]. destruct (is_space c) eqn:Ec; [|reflexivity]. exfalso.
        assert (E : s = rev r ++ [c])
          by (rewrite <- (rev_involutive s), Er; reflexivity).
        pose proof (normalize_single_spaced (s ++ SP :: t)) as [_ [_ H]].
        rewrite Hnorm, E, <- app_assoc in H.
        apply no_double_app in H. destruct H as [_ H].
        cbn [app no_double] in H. rewrite Ec in H.
        change (is_space SP) with true in H. cbn in H. discriminate.
    - apply plain_spaces_app in Hp. now destruct Hp.
    - exact Hn1. }
  assert (Hunits : sentence_units (s ++ SP :: t) = sentence_units s).
  { apply sentence_units_tail; [exact Ht | | exact Hs].
    apply no_double_after_space. cbn [no_double] in Hn2.
    now change (is_space SP) with true in Hn2. }
  split; [exact Hunits|].
  unfold splitIntoSemanticChunks.
  rewrite Hnorm, (single_spaced_normalize s Hs_form), Hunits.
  rewrite length_app. cbn [length].
  destruct s; [contradiction|].
  replace (length (c :: s) + S (length t) =? 0) with false
    by (symmetry; apply Nat.eqb_neq; cbn [length]; lia).
  reflexivity.
Qed.

Lemma trailing_text_is_dropped_witness :
  let s := lit "A cat is a small mammal." in
  let t := lit "and then some words that never end" in
  normalize (s ++ SP :: t) = s ++ SP :: t /\
  forallb not_punct t = true /\
  match_sentences s <> [] /\
  sentence_units (s ++ SP :: t) = sentence_units s /\
  splitIntoSemanticChunks (s ++ SP :: t) 500 1 = splitIntoSemanticChunks s 500 1.
Proof.
  cbv zeta. split; [reflexivity|]. split; [reflexivity|]. split; [discriminate|].
  apply (trailing_text_is_dropped (lit "A cat is a small mammal.")
           (lit "and then some words that never end") 500 1);
    [reflexivity | reflexivity | discriminate].
Defined.

Example trailing_text_example :
  splitIntoSemanticChunks
    (lit "A cat is a small mammal. and then some words that never end") 500 1 =
  [lit "A cat is a small mammal."].
Proof. vm_compute. reflexivity. Qed.

End SegmenterFacts.

(* ================================================================== *)
(** * The table of the vector index: statistics, deletion, filters *)
(* ================================================================== *)

Module StoreFacts.
Import Js VectorStore Notions FloatFacts SortFacts VectorStoreFacts.

(** ** Per-file counts *)

Definition name_before (a b : string * nat) : Prop :=
  String.compare (fst a) (fst b) = Lt.

(** The count recorded for [f] in a list of counts. *)
Definition counted (f : string) (acc : list (string * nat)) : nat :=
  list_sum (map snd (filter (fun e => String.eqb (fst e) f) acc)).

Lemma sum_cons a l : list_sum (a :: l) = a + list_sum l.
Proof. reflexivity. Qed.

Lemma compare_refl s : String.compare s s = Eq.
Proof.
  pose proof (String.compare_antisym s s) as H.
  destruct (String.compare s s); [reflexivity | discriminate | discriminate].
Qed.

Lemma compare_lt_trans a b c :
  String.compare a b = Lt -> String.compare b c = Lt -> String.compare a c = Lt.
Proof.
  intros H1 H2. apply OrderedTypeEx.String_as_OT.cmp_lt.
  apply OrderedTypeEx.String_as_OT.cmp_lt in H1, H2.
  eapply OrderedTypeEx.String_as_OT.lt_trans; eauto.
Qed.

Lemma compare_gt_lt a b : String.compare a b = Gt -> String.compare b a = Lt.
Proof. intros H. rewrite String.compare_antisym, H. reflexivity. Qed.

Lemma count_in_names f acc e :
  In e (count_in f acc) -> fst e = f \/ exists e', In e' acc /\ fst e' = fst e.
Proof.
  induction acc as [| [g n] acc IH]; cbn [count_in]; intros H.
  - destruct H as [<- | []]. now left.
  - destruct (String.compare f g) eqn:E.
    + apply String.compare_eq_iff in E. subst g.
      destruct H as [<- | H]; [now left|]. right. exists e. split; [now right | reflexivity].
    + destruct H as [<- | H]; [now left|]. right. now exists e.
    + destruct H as [<- | H]; [right; exists (g, n); split; [now left | reflexivity]|].
      destruct (IH H) as [Hf | [e' [He' Hn]]]; [now left|].
      right. exists e'. split; [now right | exact Hn].
Qed.

Lemma count_in_ascending f acc :
  StronglySorted name_before acc -> StronglySorted name_before (count_in f acc).
Proof.
  intros Hs. induction Hs as [| [g n] acc Hs IH Hg]; cbn [count_in].
  - constructor; constructor.
  - destruct (String.compare f g) eqn:E.
    + constructor; assumption.
    + constructor; [now constructor|]. constructor; [exact E|].
      rewrite Forall_forall in *. intros x Hx. specialize (Hg x Hx).
      unfold name_before in *. cbn [fst] in *. eapply compare_lt_trans; eauto.
    + constructor; [exact IH|].
      rewrite Forall_forall in *. intros x Hx.
      destruct (count_in_names f acc x Hx) as [Hf | [e' [He' Hn]]].
      * unfold name_before. cbn [fst]. rewrite Hf. now apply compare_gt_lt.
      * specialize (Hg e' He'). unfold name_before in *. now rewrite <- Hn.
Qed.

Lemma count_in_counted f g acc :
  counted g (count_in f acc) = counted g acc + (if String.eqb f g then 1 else 0).
Proof.
  unfold counted. induction acc as [| [h n] acc IH]; cbn [count_in].
  - cbn [filter fst]. destruct (String.eqb f g); reflexivity.
  - destruct (String.compare f h) eqn:E.
    + apply String.compare_eq_iff in E. subst h. cbn [filter fst].
      destruct (String.eqb f g); cbn [map snd]; rewrite ?sum_cons; lia.
    + cbn [filter fst]. destruct (String.eqb f g), (String.eqb h g);
        cbn [map snd]; rewrite ?sum_cons; lia.
    + cbn [filter fst]. destruct (String.eqb h g); cbn [map snd]; rewrite ?sum_cons;
        rewrite IH; lia.
Qed.

Lemma count_in_sum f acc :
  list_sum (map snd (count_in f acc)) = S (list_sum (map snd acc)).
Proof.
  induction acc as [| [h n] acc IH]; cbn [count_in]; [reflexivity|].
  destruct (String.compare f h); cbn [map snd] in *; rewrite ?sum_cons in *; lia.
Qed.

Lemma count_in_positive f acc :
  Forall (fun e => 1 <= snd e) acc -> Forall (fun e => 1 <= snd e) (count_in f acc).
Proof.
  intros H. induction H as [| [h n] acc Hh H IH]; cbn [count_in].
  - constructor; [cbn [snd]; lia | constructor].
  - cbn [snd] in Hh. destruct (String.compare f h).
    + constructor; [cbn [snd]; lia | exact H].
    + constructor; [cbn [snd]; lia|]. now constructor.
    + now constructor.
Qed.

Lemma group_fold db : forall acc,
  let files := fold_left (fun acc x => count_in (filename x) acc) db acc in
  (StronglySorted name_before acc -> StronglySorted name_before files) /\
  (Forall (fun e => 1 <= snd e) acc -> Forall (fun e => 1 <= snd e) files) /\
  list_sum (map snd files) = list_sum (map snd acc) + length db /\
  forall f, counted f files = counted f acc + getChunkCount f db.
Proof.
  induction db as [| x db IH]; intros acc; cbn [fold_left].
  - cbn [length]. unfold getChunkCount. cbn [filter length].
    repeat split; auto; intros; lia.
  - destruct (IH (count_in (filename x) acc)) as (H1 & H2 & H3 & H4).
    cbv zeta in *. split; [|split; [|split]].
    + intros H. now apply H1, count_in_ascending.
    + intros H. now apply H2, count_in_positive.
    + rewrite H3, count_in_sum. cbn [length]. lia.
    + intros f. rewrite H4, count_in_counted. unfold getChunkCount.
      cbn [filter]. destruct (String.eqb (filename x) f); cbn [length]; lia.
Qed.

Lemma ascending_counted f n acc :
  StronglySorted name_before acc -> In (f, n) acc -> counted f acc = n.
Proof.
  intros Hs. induction Hs as [| [g m] acc Hs IH Hg]; intros H; [contradiction|].
  unfold counted in *. cbn [filter fst]. destruct H as [H | H].
  - injection H as -> ->. rewrite String.eqb_refl. cbn [map snd]; rewrite ?sum_cons.
    rewrite filter_none_in; [cbn; lia|].
    intros e He. rewrite Forall_forall in Hg. specialize (Hg e He).
    unfold name_before in Hg. cbn [fst] in Hg.
    destruct (String.eqb_spec (fst e) f) as [E |]; [|reflexivity].
    rewrite E, compare_refl in Hg. discriminate.
  - rewrite Forall_forall in Hg. specialize (Hg (f, n) H).
    unfold name_before in Hg. cbn [fst] in Hg.
    destruct (String.eqb_spec g f) as [E |]; [|now apply IH].
    rewrite E, compare_refl in Hg. discriminate.
Qed.

Lemma counted_entry f acc :
  0 < counted f acc -> exists n, In (f, n) acc.
Proof.
  unfold counted. induction acc as [| [g m] acc IH]; cbn [filter fst]; intros H.
  - cbn in H. lia.
  - destruct (String.eqb_spec g f) as [-> | Hgf].
    + exists m. now left.
    + destruct (IH H) as [k Hk]. exists k. now right.
Qed.

(** ** The object of the per-file counts *)

(** The rows of the grouped query: one row per file that has a row in the
    table, with the number of its rows, in ascending order of the names. *)
Lemma grouped_rows (db : table) :
  let rows := group_by_filename db in
  StronglySorted name_before rows /\
  list_sum (map snd rows) = length db /\
  (forall f, counted f rows = getChunkCount f db) /\
  (forall f n, In (f, n) rows -> n = getChunkCount f db /\ 1 <= n) /\
  (forall x, In x db -> In (filename x, getChunkCount (filename x) db) rows).
Proof.
  cbv zeta. unfold group_by_filename.
  destruct (group_fold db []) as (H1 & H2 & H3 & H4). cbv zeta in *.
  specialize (H1 (SSorted_nil _)). specialize (H2 (Forall_nil _)).
  set (fs := fold_left (fun acc x => count_in (filename x) acc) db []) in *.
  assert (Hcount : forall f n, In (f, n) fs -> n = getChunkCount f db).
  { intros f n Hin. rewrite <- (ascending_counted f n fs H1 Hin). apply H4. }
  split; [exact H1 | split; [exact H3 | split; [exact H4 | split]]].
  - intros f n Hin. split; [now apply Hcount|].
    rewrite Forall_forall in H2. apply (H2 (f, n) Hin).
  - intros x Hx.
    assert (Hpos : 0 < getChunkCount (filename x) db).
    { unfold getChunkCount.
      assert (Hin : In x (filter (fun y => String.eqb (filename y) (filename x)) db))
        by (apply filter_In; split; [exact Hx | apply String.eqb_refl]).
      destruct (filter _ db); [contradiction | cbn [length]; lia]. }
    pose proof (H4 (filename x)) as E.
    change (counted (filename x) []) with 0 in E. cbn [Nat.add] in E.
    rewrite <- E in Hpos.
    destruct (counted_entry _ _ Hpos) as [n Hn].
    now rewrite <- (Hcount _ _ Hn).
Qed.

(** The order in which the properties of an object are listed. *)
Definition enumerated_before (a b : string * nat) : Prop :=
  match array_index (fst a), array_index (fst b) with
  | Some i, Some j => (i < j)%N
  | Some _, None => True
  | None, Some _ => False
  | None, None => String.compare (fst a) (fst b) = Lt
  end.

(** The property that is not made. *)
Definition settable (e : string * nat) : bool := negb (String.eqb (fst e) "__proto__").

Lemma array_index_name key i :
  array_index key = Some i ->
  key = DecimalString.NilZero.string_of_uint (N.to_uint i).
Proof.
  unfold array_index.
  destruct (DecimalString.NilZero.uint_of_string key) as [d |]; [|discriminate].
  cbv zeta.
  destruct (String.eqb_spec
              (DecimalString.NilZero.string_of_uint (N.to_uint (N.of_uint d))) key)
    as [E |]; [|discriminate].
  destruct (N.of_uint d <? 4294967295)%N; [|discriminate].
  cbn [andb]. intros H. injection H as <-. now symmetry.
Qed.

Lemma define_index_perm i key value o :
  Permutation ((key, value) :: o) (define_index i key value o).
Proof.
  induction o as [| [k v] o IH]; cbn [define_index]; [reflexivity|].
  destruct (array_index k) as [j |]; [|reflexivity].
  destruct (j <? i)%N; [|reflexivity].
  etransitivity; [apply perm_swap|]. now constructor.
Qed.

Lemma define_index_sorted i key value o :
  array_index key = Some i ->
  StronglySorted enumerated_before o ->
  Forall (fun a => fst a <> key) o ->
  StronglySorted enumerated_before (define_index i key value o).
Proof.
  intros Hkey Hs. induction Hs as [| [k v] o Hs IH Hk]; intros Hne; cbn [define_index].
  - constructor; constructor.
  - inversion Hne as [| ? ? Hhead Hrest]; subst. cbn [fst] in Hhead.
    pose proof Hk as Hall. rewrite Forall_forall in Hk.
    destruct (array_index k) as [j |] eqn:Ej.
    + destruct (N.ltb_spec j i) as [Hlt | Hge].
      * constructor; [now apply IH|].
        rewrite Forall_forall. intros a Ha.
        apply (Permutation_in _ (Permutation_sym (define_index_perm i key value o))) in Ha.
        destruct Ha as [<- | Ha]; [|now apply Hk].
        unfold enumerated_before. cbn [fst]. now rewrite Ej, Hkey.
      * assert (Hij : (i < j)%N).
        { destruct (N.eq_dec i j) as [-> |]; [|lia]. exfalso. apply Hhead.
          now rewrite (array_index_name _ _ Ej), (array_index_name _ _ Hkey). }
        constructor; [now constructor|]. rewrite Forall_forall. intros a Ha.
        destruct Ha as [<- | Ha].
        -- unfold enumerated_before. cbn [fst]. now rewrite Ej, Hkey.
        -- specialize (Hk a Ha). unfold enumerated_before in *. cbn [fst] in *.
           rewrite Ej in Hk. rewrite Hkey.
           destruct (array_index (fst a)); [lia | exact I].
    + constructor; [now constructor|]. rewrite Forall_forall. intros a Ha.
      destruct Ha as [<- | Ha].
      * unfold enumerated_before. cbn [fst]. now rewrite Ej, Hkey.
      * specialize (Hk a Ha). unfold enumerated_before in *. cbn [fst] in *.
        rewrite Ej in Hk. rewrite Hkey.
        destruct (array_index (fst a)); [contradiction | exact I].
Qed.

Lemma sorted_snoc {A} (R : A -> A -> Prop) l x :
  StronglySorted R l -> Forall (fun a => R a x) l -> StronglySorted R (l ++ [x]).
Proof.
  intros Hs. induction Hs as [| a l Hs IH Ha]; intros Hx; cbn [app].
  - constructor; constructor.
  - inversion Hx; subst. constructor; [now apply IH|].
    apply Forall_app. split; [exact Ha | now constructor].
Qed.

Lemma sorted_snoc_inv {A} (R : A -> A -> Prop) l x :
  StronglySorted R (l ++ [x]) -> StronglySorted R l /\ Forall (fun a => R a x) l.
Proof.
  induction l as [| a l IH]; cbn [app]; intros H.
  - split; constructor.
  - inversion H as [| ? ? Hs Ha]; subst. destruct (IH Hs) as [H1 H2].
    apply Forall_app in Ha. destruct Ha as [Ha Hx]. inversion Hx; subst.
    split; constructor; assumption.
Qed.

(** One assignment of the loop, for a name greater than the names set so
    far. *)
Lemma set_property_next key value o :
  StronglySorted enumerated_before o ->
  Forall (fun a => String.compare (fst a) key = Lt) o ->
  let o' := set_property key value o in
  Permutation o' (o ++ filter settable [(key, value)]) /\
  StronglySorted enumerated_before o'.
Proof.
  intros Hs Hlt. cbv zeta. unfold set_property, settable. cbn [filter fst].
  destruct (String.eqb key "__proto__"); cbn [negb].
  - rewrite app_nil_r. split; [reflexivity | exact Hs].
  - assert (Hne : Forall (fun a => fst a <> key) o).
    { rewrite Forall_forall in *. intros a Ha E. specialize (Hlt a Ha).
      rewrite E, compare_refl in Hlt. discriminate. }
    assert (Hno : existsb (fun p => String.eqb (fst p) key) o = false).
    { apply not_true_iff_false. intros H. apply existsb_exists in H.
      destruct H as [a [Ha E]]. apply String.eqb_eq in E.
      rewrite Forall_forall in Hne. now apply (Hne a Ha). }
    rewrite Hno. destruct (array_index key) as [i |] eqn:Ei.
    + split; [|now apply define_index_sorted].
      etransitivity; [apply Permutation_sym, define_index_perm|].
      apply Permutation_cons_append.
    + split; [reflexivity|]. apply sorted_snoc; [exact Hs|].
      rewrite Forall_forall in *. intros a Ha. specialize (Hlt a Ha).
      unfold enumerated_before. cbn [fst]. rewrite Ei.
      destruct (array_index (fst a)); [exact I | exact Hlt].
Qed.

(** The loop over rows in ascending order of the names: every row but
    the one of [__proto__] makes one property. *)
Lemma set_property_loop rows :
  StronglySorted name_before rows ->
  let o := fold_left (fun files stat => set_property (fst stat) (snd stat) files)
             rows [] in
  Permutation o (filter settable rows) /\ StronglySorted enumerated_before o.
Proof.
  cbv zeta. induction rows as [| [key value] rows IH] using rev_ind; intros Hs.
  - split; [reflexivity | constructor].
  - apply sorted_snoc_inv in Hs. destruct Hs as [Hs Hx].
    destruct (IH Hs) as [Hperm Hsorted].
    rewrite fold_left_app. cbn [fold_left fst snd].
    destruct (set_property_next key value _ Hsorted) as [H1 H2].
    + rewrite Forall_forall in *. intros a Ha.
      apply (Permutation_in _ Hperm) in Ha. apply filter_In in Ha.
      apply (Hx a (proj1 Ha)).
    + split; [|exact H2]. rewrite filter_app.
      etransitivity; [exact H1|]. now apply Permutation_app_tail.
Qed.

Lemma sum_filter_split {A} (p : A -> bool) (w : A -> nat) l :
  list_sum (map w l) =
  list_sum (map w (filter p l)) + list_sum (map w (filter (fun a => negb (p a)) l)).
Proof.
  induction l as [| a l IH]; [reflexivity|].
  cbn [filter map]. destruct (p a); cbn [negb map]; rewrite ?sum_cons; lia.
Qed.

Lemma enumerated_before_irrefl a b :
  enumerated_before a b -> fst a <> fst b.
Proof.
  unfold enumerated_before. intros H E. rewrite E in H.
  destruct (array_index (fst b)); [lia | now rewrite compare_refl in H].
Qed.

Lemma enumerated_NoDup o :
  StronglySorted enumerated_before o -> NoDup (map fst o).
Proof.
  intros Hs. induction Hs as [| a o Hs IH Ha]; cbn [map]; constructor; [|exact IH].
  intros Hin. apply in_map_iff in Hin. destruct Hin as [b [E Hb]].
  rewrite Forall_forall in Ha. apply (enumerated_before_irrefl a b (Ha b Hb)).
  now symmetry.
Qed.

(** X14. [getDocumentStats] against the table.  The total is the number
    of rows.  The object [files] has one property per file that has a row,
    except for a file named [__proto__], for which the assignment makes no
    property; the value of a property is the number of rows of the file,
    which is what [getChunkCount] answers, and is at least 1.  So the sum
    of the counts is the total less the rows of [__proto__].  The
    properties are listed with the names that are array indices first, in
    numeric order, then the other names in ascending order. *)
Theorem getDocumentStats_consistent (db : table) :
  let s := getDocumentStats db in
  totalDocuments s = length db /\
  (forall f n, In (f, n) (files s) <->
     f <> "__proto__"%string /\ n = getChunkCount f db /\ 1 <= n) /\
  NoDup (map fst (files s)) /\
  list_sum (map snd (files s)) + getChunkCount "__proto__" db = totalDocuments s /\
  StronglySorted enumerated_before (files s).
Proof.
  cbn [getDocumentStats totalDocuments files].
  destruct (grouped_rows db) as (H1 & H2 & H3 & H4 & H5). cbv zeta in *.
  destruct (set_property_loop _ H1) as [Hperm Hsorted]. cbv zeta in *.
  set (o := fold_left (fun files stat => set_property (fst stat) (snd stat) files)
              (group_by_filename db) []) in *.
  split; [reflexivity | split; [|split; [|split]]].
  - intros f n. split.
    + intros Hin. apply (Permutation_in _ Hperm) in Hin. apply filter_In in Hin.
      destruct Hin as [Hin Hset]. unfold settable in Hset. cbn [fst] in Hset.
      split; [|now apply H4].
      apply negb_true_iff in Hset. now apply String.eqb_neq.
    + intros (Hf & Hn & Hpos).
      apply (Permutation_in _ (Permutation_sym Hperm)). apply filter_In. split.
      * assert (Hrow : exists x, In x db /\ filename x = f).
        { subst n. unfold getChunkCount in Hpos.
          destruct (filter _ db) as [| x l] eqn:E; [cbn in Hpos; lia|].
          assert (Hx : In x (filter (fun y => String.eqb (filename y) f) db))
            by (rewrite E; now left).
          apply filter_In in Hx. exists x. split; [tauto|].
          now apply String.eqb_eq. }
        destruct Hrow as [x [Hx <-]]. subst n. now apply H5.
      * unfold settable. cbn [fst]. apply negb_true_iff. now apply String.eqb_neq.
  - now apply enumerated_NoDup.
  - rewrite (Permutation_list_sum (Permutation_map snd Hperm)).
    rewrite <- H2, <- H3. unfold counted.
    rewrite (sum_filter_split settable snd (group_by_filename db)).
    f_equal. f_equal. f_equal. apply filter_ext. intros a. unfold settable.
    now rewrite negb_involutive.
  - exact Hsorted.
Qed.

(** A table with the files [10], [9], [__proto__] and [a.pdf]: the
    object has no property for [__proto__], and lists [9] before [10]
    although the query hands [10] out first. *)
Lemma getDocumentStats_object_example :
  let db := [sample_row "1" "a.pdf" []; sample_row "2" "10" [];
             sample_row "3" "__proto__" []; sample_row "4" "9" [];
             sample_row "5" "10" []] in
  group_by_filename db =
    [("10", 2); ("9", 1); ("__proto__", 1); ("a.pdf", 1)]%string /\
  getDocumentStats db =
    {| totalDocuments := 5;
       files := [("9", 1); ("10", 2); ("a.pdf", 1)]%string |}.
Proof. split; vm_compute; reflexivity. Qed.

(** ** Deleting a file *)

Lemma filter_cancel {A} (f : A -> bool) l :
  filter f (filter (fun x => negb (f x)) l) = [].
Proof.
  apply filter_none_in. intros x Hx. apply filter_In in Hx.
  destruct Hx as [_ Hx]. now destruct (f x).
Qed.

Lemma filter_all_in {A} (f : A -> bool) l :
  (forall x, In x l -> f x = true) -> filter f l = l.
Proof.
  induction l as [| x l IH]; intros H; cbn [filter]; [reflexivity|].
  rewrite (H x) by now left. f_equal. apply IH. intros y Hy. apply H. now right.
Qed.

Lemma filter_twice {A} (f : A -> bool) l : filter f (filter f l) = filter f l.
Proof.
  induction l as [| x l IH]; cbn [filter]; [reflexivity|].
  destruct (f x) eqn:E; cbn [filter]; [rewrite E; now f_equal | exact IH].
Qed.

Lemma filter_swap {A} (f g : A -> bool) l :
  filter f (filter g l) = filter g (filter f l).
Proof.
  rewrite !filter_filter_andb. apply filter_ext. intros x. apply andb_comm.
Qed.

(** X15. [deleteByFilename] answers the number of rows of the file, which
    is what [getChunkCount] answered before, and removes exactly these
    rows: the table shrinks by that number, the file has no row left
    ([getChunkCount] is 0, [hasFile] is false), the counts of the other
    files are unchanged, no search returns a fragment of the file any
    more, and deleting again removes nothing. *)
Theorem deleteByFilename_removes_file (f : string) (db : table) :
  let deleted := fst (deleteByFilename f db) in
  let db' := snd (deleteByFilename f db) in
  deleted = getChunkCount f db /\
  length db' + deleted = length db /\
  getChunkCount f db' = 0 /\
  hasFile f db' = false /\
  (forall g, g <> f -> getChunkCount g db' = getChunkCount g db) /\
  (forall queryEmbedding topK floor filenameFilter r,
     In r (searchSimilar queryEmbedding topK floor filenameFilter db') ->
     r_filename r <> f) /\
  deleteByFilename f db' = (0, db').
Proof.
  cbn [deleteByFilename fst snd]. unfold getChunkCount, hasFile.
  assert (Hnone : filter (fun x => String.eqb (filename x) f)
                    (filter (fun x => negb (String.eqb (filename x) f)) db) = [])
    by apply (filter_cancel (fun x => String.eqb (filename x) f)).
  split; [reflexivity | split; [|split; [|split; [|split; [|split]]]]].
  - pose proof (filter_length (fun x => String.eqb (filename x) f) db) as H.
    cbv beta in H. lia.
  - now rewrite Hnone.
  - now rewrite Hnone.
  - intros g Hg. rewrite filter_swap. f_equal. apply filter_all_in.
    intros x Hx. apply filter_In in Hx. destruct Hx as [_ Hx].
    destruct (String.eqb_spec (filename x) f) as [E |]; [|reflexivity].
    apply String.eqb_eq in Hx. congruence.
  - intros q k floor flt r Hr. apply searchSimilar_origin in Hr.
    destruct Hr as [doc [Hdoc [-> _]]]. apply filter_In in Hdoc.
    destruct Hdoc as [_ Hdoc]. cbn [score r_filename].
    intros E. rewrite E, String.eqb_refl in Hdoc. discriminate.
  - unfold deleteByFilename. rewrite Hnone. cbn [length]. f_equal.
    apply filter_twice.
Qed.

(** ** The file filter of the search *)

(** X16. The optional file filter of [searchSimilar]: an empty file name
    counts as no filter; any other name restricts the search to the rows of
    that file, so that every result is a fragment of the file and a file
    without rows gives no result. *)
Theorem searchSimilar_filename_filter
  (queryEmbedding : list float) (topK : Z) (floor : float) (f : string) (db : table) :
  searchSimilar queryEmbedding topK floor (Some ""%string) db =
    searchSimilar queryEmbedding topK floor None db /\
  (f <> ""%string ->
   searchSimilar queryEmbedding topK floor (Some f) db =
     searchSimilar queryEmbedding topK floor None
       (filter (fun x => String.eqb (filename x) f) db) /\
   Forall (fun r => r_filename r = f)
     (searchSimilar queryEmbedding topK floor (Some f) db) /\
   (hasFile f db = false ->
    searchSimilar queryEmbedding topK floor (Some f) db = [])).
Proof.
  split; [reflexivity|]. intros Hf.
  assert (E : searchSimilar queryEmbedding topK floor (Some f) db =
              searchSimilar queryEmbedding topK floor None
                (filter (fun x => String.eqb (filename x) f) db))
    by (destruct f; [contradiction | reflexivity]).
  split; [exact E | split].
  - rewrite E, Forall_forall. intros r Hr. apply searchSimilar_origin in Hr.
    destruct Hr as [doc [Hdoc [-> _]]]. apply filter_In in Hdoc.
    destruct Hdoc as [_ Hdoc]. now apply String.eqb_eq in Hdoc.
  - intros Hno. rewrite E. unfold hasFile in Hno.
    destruct (filter (fun x => String.eqb (filename x) f) db); [|discriminate].
    unfold searchSimilar, slice_to. cbn [select_documents map filter sort fold_right].
    now rewrite firstn_nil.
Qed.

(** ** The results of a search *)

Lemma NoDup_firstn {A} n (l : list A) : NoDup l -> NoDup (firstn n l).
Proof.
  intros H. rewrite <- (firstn_skipn n l) in H. now apply NoDup_app_remove_r in H.
Qed.

Lemma NoDup_map_filter {A B} (h : A -> B) (f : A -> bool) l :
  NoDup (map h l) -> NoDup (map h (filter f l)).
Proof.
  induction l as [| x l IH]; cbn [map filter]; intros H; [constructor|].
  inversion H as [| ? ? Hx Hl]; subst.
  destruct (f x); [|now apply IH]. cbn [map]. constructor; [|now apply IH].
  intros Hin. apply Hx. apply in_map_iff in Hin. destruct Hin as [y [E Hy]].
  apply filter_In in Hy. apply in_map_iff. exists y. tauto.
Qed.

Lemma select_documents_filter filenameFilter db :
  exists f, select_documents filenameFilter db = filter f db.
Proof.
  destruct filenameFilter as [[| a s] |].
  - exists (fun _ => true). cbn. symmetry. now apply filter_all.
  - now eexists.
  - exists (fun _ => true). cbn. symmetry. now apply filter_all.
Qed.

(** X17. When the ids of the table are distinct (the primary key),
    [searchSimilar] returns no fragment twice: the ids of its results are
    distinct. *)
Theorem searchSimilar_distinct
  (queryEmbedding : list float) (topK : Z) (floor : float)
  (filenameFilter : option string) (db : table) :
  NoDup (map id db) ->
  NoDup (map r_id (searchSimilar queryEmbedding topK floor filenameFilter db)).
Proof.
  intros H. unfold searchSimilar.
  destruct (select_documents_filter filenameFilter db) as [f ->].
  destruct (slice_to_firstn topK
              (sort by_similarity_desc
                 (filter (fun doc => (floor <=? similarity doc)%float)
                    (map (score queryEmbedding) (filter f db))))) as [n ->].
  rewrite <- firstn_map. apply NoDup_firstn.
  eapply Permutation_NoDup; [apply Permutation_map, sort_perm|].
  apply NoDup_map_filter. rewrite map_map. cbn [score r_id].
  now apply NoDup_map_filter.
Qed.

Lemma searchSimilar_distinct_witness :
  NoDup (map id [sample_row "a" "f" [0; 1]; sample_row "b" "f" [2; 0];
                 sample_row "c" "g" [1; 1]]%float) /\
  NoDup (map r_id
           (searchSimilar [1; 0]%float 10 0%float None
              [sample_row "a" "f" [0; 1]; sample_row "b" "f" [2; 0];
               sample_row "c" "g" [1; 1]]%float)).
Proof.
  assert (H : NoDup (map id [sample_row "a" "f" [0; 1]; sample_row "b" "f" [2; 0];
                             sample_row "c" "g" [1; 1]]%float)).
  { cbn [map sample_row id].
    repeat constructor; cbn [In]; intros H;
      repeat (destruct H as [H | H]; [discriminate|]); exact H. }
  split; [exact H|].
  apply (searchSimilar_distinct [1; 0]%float 10 0%float None
           [sample_row "a" "f" [0; 1]; sample_row "b" "f" [2; 0];
            sample_row "c" "g" [1; 1]]%float H).
Defined.

(** X18. A larger [topK] only adds results at the end: the answer for a
    count [k] is the first [k] results of the answer for any larger
    count. *)
Theorem searchSimilar_topK_prefix
  (queryEmbedding : list float) (k k' : Z) (floor : float)
  (filenameFilter : option string) (db : table) :
  (0 <= k <= k')%Z ->
  searchSimilar queryEmbedding k floor filenameFilter db =
  firstn (Z.to_nat k) (searchSimilar queryEmbedding k' floor filenameFilter db).
Proof.
  intros Hk. unfold searchSimilar, slice_to.
  destruct (Z.ltb_spec k 0); [lia|]. destruct (Z.ltb_spec k' 0); [lia|].
  rewrite firstn_firstn. f_equal. lia.
Qed.

Lemma searchSimilar_topK_prefix_witness :
  (0 <= 1 <= 3)%Z /\
  searchSimilar [1; 0]%float 1 0%float None
    [sample_row "a" "f" [0; 1]; sample_row "b" "f" [2; 0]]%float =
  firstn (Z.to_nat 1)
    (searchSimilar [1; 0]%float 3 0%float None
       [sample_row "a" "f" [0; 1]; sample_row "b" "f" [2; 0]]%float).
Proof.
  split; [lia|].
  apply (searchSimilar_topK_prefix [1; 0]%float 1 3 0%float None
           [sample_row "a" "f" [0; 1]; sample_row "b" "f" [2; 0]]%float).
  lia.
Defined.

(** ** Writing one chunk *)

(** X19. [insertChunk] leaves exactly one row with the given id, the row
    with the given values, at the end of the table, and keeps the rows of
    the other ids in their order; ids that were distinct stay distinct.
    It writes the optional values as given, whereas [insertChunksBatch]
    writes [NULL] for a value 0: a batch of one chunk is [insertChunk] on
    the values [page || null], [charStart || null] and [charEnd || null],
    so a page 0 is stored as 0 by the first and as [NULL] by the second. *)
Theorem insertChunk_stores
  (now : Z) (i f t : string) (e : list float) (p cs ce : option Z) (db : table) :
  let new := {| id := i; filename := f; text := t; embedding := e; page := p;
                char_start := cs; char_end := ce; created_at := now |} in
  let db' := insertChunk now i f t e p cs ce db in
  filter (fun x => String.eqb (id x) i) db' = [new] /\
  filter (fun x => negb (String.eqb (id x) i)) db' =
    filter (fun x => negb (String.eqb (id x) i)) db /\
  last db' new = new /\
  (NoDup (map id db) -> NoDup (map id db')) /\
  (forall c,
     insertChunksBatch now [c] db =
     insertChunk now (c_id c) (c_filename c) (c_text c) (c_embedding c)
       (or_null (c_page c)) (or_null (c_charStart c)) (or_null (c_charEnd c)) db) /\
  map page (filter (fun x => String.eqb (id x) i)
              (insertChunk now i f t e (Some 0%Z) cs ce db)) = [Some 0%Z] /\
  map page (filter (fun x => String.eqb (id x) i)
              (insertChunksBatch now
                 [{| c_id := i; c_filename := f; c_text := t; c_embedding := e;
                     c_page := Some 0%Z; c_charStart := cs; c_charEnd := ce |}] db)) =
    [None].
Proof.
  cbv zeta. unfold insertChunk, insertChunksBatch, insert_or_replace.
  cbn [fold_left row_of_chunk id c_id c_page or_null].
  assert (Hnone : filter (fun x => String.eqb (id x) i)
                    (filter (fun x => negb (String.eqb (id x) i)) db) = [])
    by apply (filter_cancel (fun x => String.eqb (id x) i)).
  split; [|split; [|split; [|split; [|split; [|split]]]]].
  - rewrite filter_app, Hnone. cbn [filter id app].
    now rewrite String.eqb_refl.
  - rewrite filter_app. cbn [filter id]. rewrite String.eqb_refl. cbn [negb].
    rewrite app_nil_r. apply filter_twice.
  - apply last_last.
  - intros H.
    apply (insert_or_replace_unique
             {| id := i; filename := f; text := t; embedding := e; page := p;
                char_start := cs; char_end := ce; created_at := now |} db H).
  - reflexivity.
  - rewrite filter_app, Hnone. cbn [filter id app].
    now rewrite String.eqb_refl.
  - rewrite filter_app, Hnone. cbn [filter id app].
    now rewrite String.eqb_refl.
Qed.

(** ** Symmetry of the cosine *)

Lemma SFmul_comm prec emax x y :
  SpecFloat.SFmul prec emax x y = SpecFloat.SFmul prec emax y x.
Proof.
  destruct x as [sx | sx | | sx mx ex], y as [sy | sy | | sy my ey];
    cbn [SpecFloat.SFmul]; try reflexivity;
    try (now rewrite xorb_comm).
  now rewrite xorb_comm, Pos.mul_comm, Z.add_comm.
Qed.

Lemma mul_comm (x y : float) : (x * y = y * x)%float.
Proof.
  apply Prim2SF_inj. rewrite !mul_spec. apply SFmul_comm.
Qed.

Lemma accumulate_swap a : forall b d ma mb,
  length a = length b ->
  accumulate b a (d, mb, ma) =
  (let '(x, y, z) := accumulate a b (d, ma, mb) in (x, z, y)).
Proof.
  induction a as [| ai a IH]; intros [| bi b] d ma mb Hlen; try discriminate.
  - reflexivity.
  - cbn [accumulate accumulate_step hd tl]. injection Hlen as Hlen.
    rewrite (mul_comm bi ai). now apply IH.
Qed.

(** X20. For two vectors of the same length [cosineSimilarity] does not
    depend on the order of its arguments, in binary64 arithmetic and
    whatever the components ([NaN] and infinities included). *)
Theorem cosineSimilarity_symmetric (a b : list float) :
  length a = length b -> cosineSimilarity a b = cosineSimilarity b a.
Proof.
  intros Hlen. rewrite !cosineSimilarity_accumulate.
  rewrite (accumulate_swap a b 0%float 0%float 0%float Hlen).
  destruct (accumulate a b (0, 0, 0)%float) as [[x y] z]. unfold finish.
  now rewrite (orb_comm (sqrt z =? 0)%float), (mul_comm (sqrt z)).
Qed.

Lemma cosineSimilarity_symmetric_witness :
  length [1; 2; 3]%float = length [0.5; 4; 7]%float /\
  cosineSimilarity [1; 2; 3]%float [0.5; 4; 7]%float =
  cosineSimilarity [0.5; 4; 7]%float [1; 2; 3]%float.
Proof.
  split; [reflexivity|].
  apply (cosineSimilarity_symmetric [1; 2; 3]%float [0.5; 4; 7]%float).
  reflexivity.
Defined.

End StoreFacts.

(* ================================================================== *)
(** * The routes of the queries: protocol, history, failures *)
(* ================================================================== *)

Module RouteFacts.
Import VectorStore RagService Notions SortFacts RagServiceFacts.

Local Open Scope string_scope.

(** The text made of the tokens. *)
Definition text_of (tokens : list string) : string := fold_right append "" tokens.


Section Protocol.

Variable formatResponseAsHTML : string -> string.
Variable cited : list source.



Lemma write_closed f r : ended r = true -> write f r = r.
Proof. intros H. unfold write. now rewrite H. Qed.

Lemma end_closed r : ended r = true -> end_ r = r.
Proof. intros H. destruct r as [w e]. cbn in *. now subst e. Qed.

Lemma on_line_closed st line :
  ended (res st) = true -> res (on_line formatResponseAsHTML st line) = res st.
Proof.
  intros H. destruct line as [| response done]; [reflexivity|].
  cbn [on_line].
  assert (H1 : res (match response with
                    | EmptyString => st
                    | String _ _ =>
                        {| fullResponse := fullResponse st ++ response;
                           res := write (Token response) (res st) |}
                    end) = res st)
    by (destruct response; [reflexivity | cbn [res]; now apply write_closed]).
  destruct done; [|exact H1].
  cbn [res]. rewrite H1.
  rewrite (write_closed (Done _ _) (res st)) by assumption.
  rewrite write_closed by assumption. now apply end_closed.
Qed.

Lemma on_lines_closed lines : forall st,
  ended (res st) = true ->
  res (fold_left (on_line formatResponseAsHTML) lines st) = res st.
Proof.
  induction lines as [| line lines IH]; intros st H; cbn [fold_left]; [reflexivity|].
  rewrite IH; rewrite on_line_closed by assumption; [reflexivity | assumption].
Qed.

Lemma on_event_closed st ev :
  ended (res st) = true -> res (on_event formatResponseAsHTML st ev) = res st.
Proof.
  intros H. destruct ev as [lines | message]; cbn [on_event].
  - now apply on_lines_closed.
  - cbn [res]. rewrite write_closed by assumption. now apply end_closed.
Qed.

Lemma on_events_closed events : forall st,
  ended (res st) = true ->
  res (fold_left (on_event formatResponseAsHTML) events st) = res st.
Proof.
  induction events as [| ev events IH]; intros st H; cbn [fold_left]; [reflexivity|].
  rewrite IH; rewrite on_event_closed by assumption; [reflexivity | assumption].
Qed.





End Protocol.

Section Routes.

Variable toFixed4 : float -> string.
Variable print_int : Z -> string.
Variable formatResponseAsHTML : string -> string.
Variable buildRAGPrompt : string -> string -> bool -> string.
Variable generateEmbedding : string -> outcome (list float).
Variable generateLLMResponse : string -> outcome string.
Variable generateLLMResponseStream : string -> generation.
Variable string_of_sources : list source -> string.



(** X22. Once the response is closed, the rest of the generation stream
    changes nothing: if the response is closed after the first [n] events
    of the stream, the response after all events is the same. *)
Theorem events_after_the_end_are_ignored
  (query : string) (topDocs : list result) (strict : bool) (n : nat) :
  ended (fst (handleStreamingRAGResponse toFixed4 print_int formatResponseAsHTML
                buildRAGPrompt (delivered generateLLMResponseStream n)
                query topDocs strict fresh)) = true ->
  fst (handleStreamingRAGResponse toFixed4 print_int formatResponseAsHTML
         buildRAGPrompt generateLLMResponseStream query topDocs strict fresh) =
  fst (handleStreamingRAGResponse toFixed4 print_int formatResponseAsHTML
         buildRAGPrompt (delivered generateLLMResponseStream n)
         query topDocs strict fresh).
Proof.
  unfold handleStreamingRAGResponse, delivered.
  destruct (generateLLMResponseStream _) as [e | events]; [reflexivity|].
  cbn [fst]. intros H.
  rewrite <- (firstn_skipn n events) at 1. rewrite fold_left_app.
  now apply on_events_closed.
Qed.

(** X23. The two modes agree: when the generation stream produces
    increments, none of them empty, and then completes, and the plain
    generation call returns their concatenation for the same prompt, the
    streamed response carries the sources, the answer and the raw answer of
    [generateRAGResponse], with the increments in between. *)
Theorem streaming_matches_answer
  (query : string) (topDocs : list result) (strict : bool) (incs : list string) :
  Forall (fun s => s <> "") incs ->
  generateLLMResponseStream
    (buildRAGPrompt (join_blank (map r_text topDocs)) query strict) =
    Stream (increments incs) ->
  generateLLMResponse
    (buildRAGPrompt (join_blank (map r_text topDocs)) query strict) =
    Returned (text_of incs) ->
  exists response,
    generateRAGResponse toFixed4 print_int formatResponseAsHTML buildRAGPrompt
      generateLLMResponse query topDocs strict = Returned response /\
    handleStreamingRAGResponse toFixed4 print_int formatResponseAsHTML
      buildRAGPrompt generateLLMResponseStream query topDocs strict fresh =
    ({| written := (Sources (sources response) :: map Token incs
                    ++ [Done (answer response) (rawAnswer response); Sentinel])%list;
        ended := true |},
     Returned tt).
Proof.
  intros Hne Hstream Hplain. unfold generateRAGResponse, handleStreamingRAGResponse.
  rewrite Hstream, Hplain. eexists. split; [reflexivity|].
  rewrite (relay_increments formatResponseAsHTML incs); [|reflexivity | exact Hne].
  reflexivity.
Qed.

(** X24. The route [POST /api/query] adds one row to the history when it
    answers, with the question and the formatted answer it sends, and
    leaves the history as it is when the search or the generation fails.
    An answer cites at least one source and, for a count [topK] that is
    not negative, at most [topK]. *)
Theorem query_route_history
  (userId : Z) (query : string) (strict : bool) (db : table) (topK : Z)
  (threshold : float) (history : list chat_message) :
  match query_route toFixed4 print_int formatResponseAsHTML buildRAGPrompt
          generateEmbedding generateLLMResponse userId query strict db topK threshold
          history with
  | (Body response, history') =>
      history' =
        (history ++ [{| user_id := userId; question := query;
                        saved_answer := answer response;
                        history_sources := Metadata (sources response) |}])%list /\
      answer response = formatResponseAsHTML (rawAnswer response) /\
      1 <= length (sources response) /\
      ((0 <= topK)%Z -> (Z.of_nat (length (sources response)) <= topK)%Z)
  | (Failed _, history') => history' = history
  end.
Proof.
  unfold query_route, performRAGSearch.
  destruct (generateEmbedding query) as [q | e]; [|reflexivity].
  destruct (length (searchSimilar q topK threshold None db) =? 0)%nat eqn:E;
    [reflexivity|].
  unfold generateRAGResponse. destruct (generateLLMResponse _) as [raw | e];
    [|reflexivity].
  cbn [answer rawAnswer sources].
  assert (Hlen : forall docs n,
            length (build_sources_from toFixed4 print_int n docs) = length docs).
  { induction docs as [| d docs IH]; intros n; cbn [build_sources_from length];
      [reflexivity | now rewrite IH]. }
  unfold buildSourcesMetadata. rewrite Hlen. apply Nat.eqb_neq in E.
  repeat split; try lia.
  intros HtopK. unfold searchSimilar. now apply slice_to_length.
Qed.

(** X25. The route [POST /api/query-stream] never adds a row to the
    history: its wrapper of [res.write] collects the events of type
    ['content'], and the events sent have the types ['sources'],
    ['token'], ['done'] and ['error'], so that the text it collects is
    empty whenever it is tested, whatever the stream delivers and however
    many events have been delivered by then. *)
Theorem streaming_route_saves_nothing
  (n : nat) (userId : Z) (query : string) (strict : bool) (db : table) (topK : Z)
  (threshold : float) (history : list chat_message) :
  snd (query_stream_authenticated toFixed4 print_int formatResponseAsHTML
         buildRAGPrompt generateEmbedding generateLLMResponseStream
         string_of_sources n userId query strict db topK threshold history) =
  history.
Proof.
  unfold query_stream_authenticated.
  destruct (performRAGSearch _ _ _ _ _) as [topDocs | e]; [|reflexivity].
  destruct (handleStreamingRAGResponse _ _ _ _ generateLLMResponseStream _ _ _ _)
    as [r [u | e]]; [|reflexivity].
  cbn [snd].
  assert (Hcapture : forall frames s, fold_left (capture string_of_sources) frames s = s).
  { induction frames as [| f frames IH]; intros s; cbn [fold_left]; [reflexivity|].
    rewrite IH. now destruct f. }
  now rewrite Hcapture.
Qed.

(** X26. When the search fails, the public streaming route sends the
    error event with the message and the sentinel, nothing before them,
    and closes the response; on an empty table every query whose embedding
    is computed ends this way, with the message that no document was
    found. *)
Theorem query_stream_search_failure
  (query : string) (strict : bool) (db : table) (topK : Z) (threshold : float) :
  (forall e,
     performRAGSearch generateEmbedding query db topK threshold = Thrown e ->
     query_stream toFixed4 print_int formatResponseAsHTML buildRAGPrompt
       generateEmbedding generateLLMResponseStream query strict db topK threshold =
     {| written := [Error e; Sentinel]; ended := true |}) /\
  (forall q,
     generateEmbedding query = Returned q ->
     query_stream toFixed4 print_int formatResponseAsHTML buildRAGPrompt
       generateEmbedding generateLLMResponseStream query strict [] topK threshold =
     {| written := [Error NO_DOCUMENTS; Sentinel]; ended := true |}).
Proof.
  split.
  - intros e H. unfold query_stream. now rewrite H.
  - intros q H. unfold query_stream, performRAGSearch. rewrite H.
    unfold searchSimilar, Js.slice_to.
    cbn [select_documents map filter Js.sort fold_right]. now rewrite firstn_nil.
Qed.

End Routes.

Lemma events_after_the_end_are_ignored_witness :
  let stream := fun _ : string =>
    Stream [Data [Json "Hi" true]; Data [Json "late" false]; StreamError "too late"] in
  let run g :=
    fst (handleStreamingRAGResponse (fun _ => "0.0000") (fun _ => "1") (fun s => s)
           (fun _ _ _ => "prompt") g "What are cats?" [] true fresh) in
  ended (run (delivered stream 1)) = true /\
  run stream = run (delivered stream 1).
Proof.
  cbv zeta. split; [reflexivity|].
  apply (events_after_the_end_are_ignored (fun _ => "0.0000") (fun _ => "1")
           (fun s => s) (fun _ _ _ => "prompt")
           (fun _ : string =>
              Stream [Data [Json "Hi" true]; Data [Json "late" false];
                      StreamError "too late"])
           "What are cats?" [] true 1).
  reflexivity.
Defined.

Lemma streaming_matches_answer_witness :
  Forall (fun s => s <> "") ["Hello"; " world"] /\
  (fun _ : string => Stream (increments ["Hello"; " world"])) "prompt" =
    Stream (increments ["Hello"; " world"]) /\
  (fun _ : string => @Returned string "Hello world") "prompt" =
    Returned (text_of ["Hello"; " world"]) /\
  exists response,
    generateRAGResponse (fun _ => "0.0000") (fun _ => "1") (fun s => s)
      (fun _ _ _ => "prompt") (fun _ => Returned "Hello world")
      "What are cats?" [] true = Returned response /\
    handleStreamingRAGResponse (fun _ => "0.0000") (fun _ => "1") (fun s => s)
      (fun _ _ _ => "prompt") (fun _ => Stream (increments ["Hello"; " world"]))
      "What are cats?" [] true fresh =
    ({| written := (Sources (sources response) :: map Token ["Hello"; " world"]
                    ++ [Done (answer response) (rawAnswer response); Sentinel])%list;
        ended := true |},
     Returned tt).
Proof.
  assert (H : Forall (fun s => s <> "") ["Hello"; " world"])
    by (repeat constructor; discriminate).
  split; [exact H|]. split; [reflexivity|]. split; [reflexivity|].
  apply (streaming_matches_answer (fun _ => "0.0000") (fun _ => "1") (fun s => s)
           (fun _ _ _ => "prompt") (fun _ => Returned "Hello world")
           (fun _ => Stream (increments ["Hello"; " world"]))
           "What are cats?" [] true ["Hello"; " world"] H);
    reflexivity.
Defined.

End RouteFacts.

(* ================================================================== *)
(** * Ingestion: page table, offsets, ids and stored rows *)
(* ================================================================== *)

Module IngestionFacts.
Import Js Chunking VectorStore RagService PdfProcessor DocumentProcessor Notions.
Import VectorStoreFacts StoreFacts.

Local Open Scope Z_scope.

(** ** The page table *)

(** The entries written for the pages from number [num] on, when the
    position counter is [pos]. *)
Fixpoint table_from (num : nat) (pos : Z) (texts : list str) : list page_info :=
  match texts with
  | [] => []
  | t :: rest =>
      {| pageNumber := Z.of_nat num; page_text := t;
         page_charStart := pos; page_charEnd := pos + len t |}
      :: table_from (S num) (pos + len t + 1) rest
  end.

Lemma page_fold texts : forall num acc pos,
  fst (fold_left page_step (combine (seq num (length texts)) texts) (acc, pos)) =
  acc ++ table_from num pos texts.
Proof.
  induction texts as [| t texts IH]; intros num acc pos;
    cbn [length seq combine fold_left table_from fst].
  - now rewrite app_nil_r.
  - cbn [page_step]. rewrite IH, <- app_assoc. reflexivity.
Qed.

Lemma pages_table texts :
  pages (extractTextFromPDFWithPages texts) = table_from 1 0 texts.
Proof. unfold extractTextFromPDFWithPages. cbn [pages]. apply (page_fold texts 1 [] 0). Qed.

Lemma slice_shift {A} (x y : list A) (a b : Z) :
  0 <= a -> 0 <= b ->
  slice (Z.of_nat (length x) + a) (Z.of_nat (length x) + b) (x ++ y) = slice a b y.
Proof.
  intros Ha Hb. unfold slice. rewrite length_app, Nat2Z.inj_add.
  destruct (Z.ltb_spec (Z.of_nat (length x) + a) 0); [lia|].
  destruct (Z.ltb_spec (Z.of_nat (length x) + b) 0); [lia|].
  destruct (Z.ltb_spec a 0); [lia|]. destruct (Z.ltb_spec b 0); [lia|].
  set (n := Z.of_nat (length x)). set (m := Z.of_nat (length y)).
  replace (Z.to_nat (Z.min (n + a) (n + m))) with (length x + Z.to_nat (Z.min a m))%nat
    by lia.
  rewrite skipn_app, skipn_all2 by lia.
  replace (length x + Z.to_nat (Z.min a m) - length x)%nat with (Z.to_nat (Z.min a m))
    by lia.
  cbn [app]. f_equal. lia.
Qed.

Lemma slice_prefix {A} (x y : list A) :
  slice 0 (Z.of_nat (length x)) (x ++ y) = x.
Proof.
  unfold slice. rewrite length_app, Nat2Z.inj_add. cbn [Z.ltb Z.compare].
  destruct (Z.ltb_spec (Z.of_nat (length x)) 0); [lia|].
  rewrite Z.min_l, Z.min_l by lia. cbn [Z.to_nat skipn].
  rewrite Z.sub_0_r, Nat2Z.id, firstn_app, firstn_all, Nat.sub_diag.
  cbn [firstn]. apply app_nil_r.
Qed.

(** The entry of the page at index [k], counted from 0. *)
Lemma table_from_entry texts : forall k text num pos charStart,
  nth_error texts k = Some text ->
  0 <= pos ->
  exists p,
    nth_error (table_from num pos texts) k = Some p /\
    pageNumber p = Z.of_nat (num + k) /\
    page_text p = text /\
    pos <= page_charStart p /\
    page_charEnd p = page_charStart p + len text /\
    slice (page_charStart p - pos) (page_charEnd p - pos) (join_lines texts) = text /\
    (page_charStart p <= charStart < page_charEnd p ->
     find_page charStart (table_from num pos texts) = Some (Z.of_nat (num + k))).
Proof.
  induction texts as [| t texts IH]; intros k text num pos charStart Hk Hpos;
    [now destruct k|].
  destruct k as [| k]; cbn [nth_error table_from] in *.
  - injection Hk as ->. eexists. split; [reflexivity|].
    cbn [pageNumber page_text page_charStart page_charEnd].
    rewrite Nat.add_0_r.
    split; [reflexivity | split; [reflexivity | split; [lia | split; [reflexivity|]]]].
    split.
    + replace (pos - pos) with 0 by lia. replace (pos + len text - pos) with (len text) by lia.
      unfold len. destruct texts as [| t' texts]; cbn [join_lines].
      * rewrite <- (app_nil_r text) at 2. apply slice_prefix.
      * apply slice_prefix.
    + intros H. cbn [find_page page_charStart page_charEnd pageNumber].
      destruct (Z.leb_spec pos charStart); [|lia].
      destruct (Z.ltb_spec charStart (pos + len text)); [reflexivity | lia].
  - assert (Hpos' : 0 <= pos + len t + 1) by (unfold len; lia).
    destruct (IH k text (S num) (pos + len t + 1) charStart Hk Hpos')
      as (p & Hp & Hnum & Htext & Hstart & Hend & Hslice & Hfind).
    exists p. split; [exact Hp|].
    split; [rewrite Hnum; f_equal; lia|].
    split; [exact Htext|]. split; [unfold len in *; lia|]. split; [exact Hend|].
    split.
    + destruct texts as [| t' texts]; [now destruct k|].
      change (join_lines (t :: t' :: texts))
        with (t ++ NL :: join_lines (t' :: texts)).
      change (t ++ NL :: join_lines (t' :: texts))
        with (t ++ [NL] ++ join_lines (t' :: texts)).
      rewrite app_assoc. etransitivity; [|exact Hslice].
      replace (page_charStart p - pos)
        with (Z.of_nat (length (t ++ [NL])) + (page_charStart p - (pos + len t + 1)))
        by (rewrite length_app; cbn [length]; unfold len; lia).
      replace (page_charEnd p - pos)
        with (Z.of_nat (length (t ++ [NL])) + (page_charEnd p - (pos + len t + 1)))
        by (rewrite length_app; cbn [length]; unfold len; lia).
      apply slice_shift; unfold len in *; lia.
    + intros H. cbn [find_page page_charStart page_charEnd pageNumber].
      destruct (Z.ltb_spec charStart (pos + len t)) as [Hlt | _]; [lia|].
      rewrite andb_false_r. rewrite Hfind by exact H. f_equal. lia.
Qed.

(** X27. The page table of [extractTextFromPDFWithPages]: the entry of
    the page at index [k] carries the number [k + 1] and the text of the
    page; its positions delimit that text inside the texts of the pages
    joined by line breaks; and [findPageForChunk] answers [k + 1] for
    every position inside these limits, without using its fallback. *)
Theorem page_table_lookup
  (approximate_page : Z -> Z -> Z -> Z) (texts : list str) (k : nat) (text : str)
  (charStart totalLength numPages : Z) :
  nth_error texts k = Some text ->
  let pdfData := extractTextFromPDFWithPages texts in
  exists p,
    nth_error (pages pdfData) k = Some p /\
    pageNumber p = Z.of_nat (k + 1) /\
    page_text p = text /\
    page_charEnd p = page_charStart p + len text /\
    slice (page_charStart p) (page_charEnd p) (join_lines texts) = text /\
    (page_charStart p <= charStart < page_charEnd p ->
     findPageForChunk approximate_page charStart (pages pdfData) totalLength numPages =
     Z.of_nat (k + 1)).
Proof.
  intros Hk pdfData. subst pdfData. rewrite pages_table.
  destruct (table_from_entry texts k text 1 0 charStart Hk ltac:(lia))
    as (p & Hp & Hnum & Htext & Hstart & Hend & Hslice & Hfind).
  exists p. rewrite !Z.sub_0_r in Hslice.
  split; [exact Hp|]. split; [rewrite Hnum; f_equal; lia|].
  split; [exact Htext | split; [exact Hend | split; [exact Hslice|]]].
  intros H. unfold findPageForChunk. rewrite (Hfind H). f_equal. lia.
Qed.

Lemma page_table_lookup_witness :
  nth_error [lit "first page"; lit "second"; lit "third one"] 1 = Some (lit "second") /\
  let pdfData :=
    extractTextFromPDFWithPages [lit "first page"; lit "second"; lit "third one"] in
  exists p,
    nth_error (pages pdfData) 1 = Some p /\
    pageNumber p = Z.of_nat (1 + 1) /\
    page_text p = lit "second" /\
    page_charEnd p = page_charStart p + len (lit "second") /\
    slice (page_charStart p) (page_charEnd p)
      (join_lines [lit "first page"; lit "second"; lit "third one"]) = lit "second" /\
    (page_charStart p <= 13 < page_charEnd p ->
     findPageForChunk (fun _ _ _ => 1) 13 (pages pdfData) 27 3 = Z.of_nat (1 + 1)).
Proof.
  split; [reflexivity|].
  apply (page_table_lookup (fun _ _ _ => 1)
           [lit "first page"; lit "second"; lit "third one"] 1 (lit "second") 13 27 3).
  reflexivity.
Defined.

(** ** Offsets and ids of the fragments *)

(** The start offsets that [mapChunksToPages] gives from the position
    [pos]: the running totals of the lengths. *)
Fixpoint starts_from (pos : Z) (chunks : list str) : list Z :=
  match chunks with
  | [] => []
  | c :: rest => pos :: starts_from (pos + len c) rest
  end.

Lemma starts_from_nth chunks : forall pos i c,
  nth_error chunks i = Some c ->
  nth_error (starts_from pos chunks) i = Some (pos + len (concat (firstn i chunks))).
Proof.
  induction chunks as [| d chunks IH]; intros pos i c H; [now destruct i|].
  destruct i as [| i]; cbn [nth_error starts_from firstn concat] in *.
  - f_equal. cbn. lia.
  - rewrite (IH _ _ _ H). f_equal. unfold len. rewrite length_app. lia.
Qed.

Section Mapped.

Variable approximate_page : Z -> Z -> Z -> Z.
Variable pdfData : pdf_data.

Lemma map_fold chunks : forall acc pos,
  let mapped := fst (fold_left (map_step approximate_page pdfData) chunks (acc, pos)) in
  exists rest,
    mapped = acc ++ rest /\
    map m_text rest = chunks /\
    map m_charStart rest = starts_from pos chunks /\
    map m_charEnd rest = map (fun m => m_charStart m + len (m_text m)) rest.
Proof.
  induction chunks as [| c chunks IH]; intros acc pos; cbn [fold_left fst].
  - exists []. now rewrite app_nil_r.
  - cbn [map_step].
    destruct (IH (acc ++ [{| m_text := c;
                             m_page := findPageForChunk approximate_page pos
                                         (pages pdfData) (len (fullText pdfData))
                                         (numPages pdfData);
                             m_charStart := pos; m_charEnd := pos + len c |}])
                 (pos + len c)) as [rest (H1 & H2 & H3 & H4)].
    cbv zeta in H1. eexists. split; [rewrite H1, <- app_assoc; reflexivity|].
    cbn [app map m_text m_charStart m_charEnd starts_from]. now rewrite H2, H3, H4.
Qed.

Lemma mapChunksToPages_maps chunks :
  let mapped := mapChunksToPages approximate_page chunks pdfData in
  map m_text mapped = chunks /\
  map m_charStart mapped = starts_from 0 chunks /\
  map m_charEnd mapped = map (fun m => m_charStart m + len (m_text m)) mapped.
Proof.
  unfold mapChunksToPages. destruct (map_fold chunks [] 0) as [rest (H1 & H2)].
  cbv zeta in *. now rewrite H1.
Qed.

End Mapped.

Lemma string_of_uint_inj d d' :
  DecimalString.NilEmpty.string_of_uint d = DecimalString.NilEmpty.string_of_uint d' ->
  d = d'.
Proof.
  intros H. apply (f_equal DecimalString.NilEmpty.uint_of_string) in H.
  rewrite !DecimalString.NilEmpty.usu in H. now injection H.
Qed.

Lemma print_index_inj i j : print_index i = print_index j -> i = j.
Proof.
  intros H. apply string_of_uint_inj in H. now apply DecimalNat.Unsigned.to_uint_inj.
Qed.

Lemma append_inj_l (a b c : string) : (a ++ b = a ++ c)%string -> b = c.
Proof.
  induction a as [| x a IH]; cbn [append]; intros H; [exact H|].
  injection H as H. now apply IH.
Qed.

Lemma chunk_id_inj filename i j : chunk_id filename i = chunk_id filename j -> i = j.
Proof.
  unfold chunk_id. intros H. now apply append_inj_l, append_inj_l, print_index_inj in H.
Qed.

Lemma chunk_ids_distinct filename n start :
  NoDup (map (chunk_id filename) (seq start n)).
Proof.
  apply Finite.Injective_map_NoDup; [|apply seq_NoDup].
  intros i j. apply chunk_id_inj.
Qed.

Section Embedding.

Variable generateEmbedding : str -> outcome (list float).
Variable stored_text : str -> string.
Variable filename : string.

Lemma embed_from_returned mapped : forall i chunks,
  embed_from generateEmbedding stored_text i mapped filename = Returned chunks ->
  map c_id chunks = map (chunk_id filename) (seq i (length mapped)) /\
  map c_text chunks = map (fun m => stored_text (m_text m)) mapped /\
  map c_charStart chunks = map (fun m => Some (m_charStart m)) mapped /\
  map c_charEnd chunks = map (fun m => Some (m_charEnd m)) mapped /\
  map c_filename chunks = map (fun _ => filename) mapped /\
  map (fun c => Returned (c_embedding c)) chunks =
    map (fun m => generateEmbedding (m_text m)) mapped.
Proof.
  induction mapped as [| m mapped IH]; intros i chunks H; cbn [embed_from] in H.
  - injection H as <-. repeat split.
  - destruct (generateEmbedding (m_text m)) as [e |] eqn:Ee; [|discriminate].
    destruct (embed_from generateEmbedding stored_text (S i) mapped filename)
      as [rest |] eqn:Er; [|discriminate].
    injection H as <-. destruct (IH _ _ Er) as (H1 & H2 & H3 & H4 & H5 & H6).
    cbn [map length seq c_id c_text c_charStart c_charEnd c_filename c_embedding].
    rewrite H1, H2, H3, H4, H5, H6, Ee. repeat split.
Qed.

Lemma embed_from_thrown mapped : forall i e,
  embed_from generateEmbedding stored_text i mapped filename = Thrown e ->
  exists m, In m mapped /\ generateEmbedding (m_text m) = Thrown e.
Proof.
  induction mapped as [| m mapped IH]; intros i e H; cbn [embed_from] in H;
    [discriminate|].
  destruct (generateEmbedding (m_text m)) as [v | e'] eqn:Ee.
  - destruct (embed_from generateEmbedding stored_text (S i) mapped filename)
      as [rest | e''] eqn:Er; [discriminate|].
    injection H as ->. destruct (IH _ _ Er) as [m' [Hin Hm']].
    exists m'. split; [now right | exact Hm'].
  - injection H as ->. exists m. split; [now left | exact Ee].
Qed.

End Embedding.

(** A batch with distinct ids into an empty table writes its rows in
    order. *)
Lemma insertChunksBatch_distinct now chunks : forall db,
  NoDup (map c_id chunks) ->
  (forall x, In x db -> ~ In (id x) (map c_id chunks)) ->
  insertChunksBatch now chunks db = (db ++ map (row_of_chunk now) chunks)%list.
Proof.
  induction chunks as [| c chunks IH]; intros db Hnd Hfresh.
  - cbn. now rewrite app_nil_r.
  - rewrite insertChunksBatch_cons. cbn [map] in *.
    inversion Hnd as [| ? ? Hc Hrest]; subst.
    unfold insert_or_replace. rewrite filter_all_in.
    + rewrite IH; [now rewrite <- app_assoc | exact Hrest |].
      intros x Hx. apply in_app_or in Hx. destruct Hx as [Hx | [<- | []]].
      * intros Hin. apply (Hfresh x Hx). now right.
      * exact Hc.
    + intros x Hx. cbn [row_of_chunk id].
      destruct (String.eqb_spec (id x) (c_id c)) as [E |]; [|reflexivity].
      exfalso. apply (Hfresh x Hx). now left.
Qed.

Lemma fragment_not_empty text M O c :
  In c (splitIntoSemanticChunks text M O) -> 0 < len c.
Proof.
  unfold splitIntoSemanticChunks. destruct (length (normalize text) =? 0)%nat;
    [contradiction|].
  unfold postprocess. intros H. apply filter_In in H. destruct H as [_ H].
  apply Nat.ltb_lt in H. unfold len. lia.
Qed.

Section Upload.

Variable generateEmbedding : str -> outcome (list float).
Variable approximate_page : Z -> Z -> Z -> Z.
Variable stored_text : str -> string.

Variable now : Z.
Variable texts : list str.
Variable filename : string.
Variable chunkSize chunkOverlap : Z.
Variable db : table.

Let fragments : list str :=
  splitIntoSemanticChunks (fullText (extractTextFromPDFWithPages texts))
    chunkSize chunkOverlap.

Let ids : list string := map (chunk_id filename) (seq 0 (length fragments)).

(** What a successful upload writes: the columns of its rows. *)
Lemma upload_pdf_body report db' :
  upload_pdf generateEmbedding approximate_page stored_text now texts filename
    chunkSize chunkOverlap db = (Body report, db') ->
  report_chunks report = length fragments /\
  embeddings_generated report = length fragments /\
  exists rows,
    db' = (filter (fun x => negb (existsb (String.eqb (id x)) ids)) db ++ rows)%list /\
    map id rows = ids /\
    map text rows = map stored_text fragments /\
    map VectorStore.filename rows = map (fun _ => filename) fragments /\
    map (fun r => Returned (embedding r)) rows = map generateEmbedding fragments /\
    map char_start rows = map (fun z => or_null (Some z)) (starts_from 0 fragments) /\
    map char_end rows =
      map (fun m => or_null (Some (m_charStart m + len (m_text m))))
        (mapChunksToPages approximate_page fragments
           (extractTextFromPDFWithPages texts)).
Proof.
  unfold upload_pdf, processPDFDocument, generateChunkEmbeddings. fold fragments.
  set (pd := extractTextFromPDFWithPages texts).
  destruct (mapChunksToPages_maps approximate_page pd fragments) as (M1 & M2 & M3).
  cbv zeta in M1, M2, M3.
  set (mapped := mapChunksToPages approximate_page fragments pd) in *.
  destruct (embed_from generateEmbedding stored_text 0 mapped filename)
    as [chunks |] eqn:E; [|discriminate].
  intros H. injection H as <- <-.
  cbn [report_chunks embeddings_generated DocumentProcessor.chunks chunksWithEmbeddings].
  destruct (embed_from_returned generateEmbedding stored_text filename mapped 0 chunks E)
    as (H1 & H2 & H3 & H4 & H5 & H6).
  assert (Hlen : length mapped = length fragments)
    by (rewrite <- (length_map m_text mapped); now rewrite M1).
  assert (Hcount : length chunks = length fragments).
  { rewrite <- Hlen, <- (length_map c_id chunks), H1, length_map. apply length_seq. }
  rewrite Hlen in H1. fold ids in H1.
  split; [reflexivity | split; [exact Hcount|]].
  exists (map (row_of_chunk now) chunks).
  split; [|split; [|split; [|split; [|split; [|split]]]]].
  - rewrite insertChunksBatch_split, H1. f_equal.
    apply insertChunksBatch_distinct; [|intros x []].
    rewrite H1. apply chunk_ids_distinct.
  - rewrite map_map. exact H1.
  - rewrite map_map. transitivity (map c_text chunks); [reflexivity|].
    rewrite H2, <- M1. now rewrite map_map.
  - rewrite map_map. transitivity (map c_filename chunks); [reflexivity|].
    rewrite H5, <- M1. now rewrite map_map.
  - rewrite map_map.
    transitivity (map (fun c => Returned (c_embedding c)) chunks); [reflexivity|].
    rewrite H6, <- M1. now rewrite map_map.
  - rewrite map_map. transitivity (map or_null (map c_charStart chunks));
      [now rewrite map_map|].
    rewrite H3, <- M2, !map_map. reflexivity.
  - rewrite map_map. transitivity (map or_null (map c_charEnd chunks));
      [now rewrite map_map|].
    rewrite H4, <- (map_map m_charEnd (fun z => Some z)), M3, !map_map. reflexivity.
Qed.

(** X28. An upload writes all the fragments of the document or nothing.
    When an embedding call fails, for the text of one of the fragments,
    the route fails with that error and the table is unchanged.  Otherwise
    the route reports as many chunks and embeddings as there are
    fragments, the rows that carried one of the ids of the upload are
    replaced, and the new rows follow the rows kept: one row per fragment,
    in order, with the id made of the file name and the index, the file
    name, the stored text of the fragment and its embedding; these ids are
    distinct. *)
Theorem upload_pdf_rows :
  match upload_pdf generateEmbedding approximate_page stored_text now texts filename
          chunkSize chunkOverlap db with
  | (Failed e, db') =>
      db' = db /\ exists c, In c fragments /\ generateEmbedding c = Thrown e
  | (Body report, db') =>
      report_chunks report = length fragments /\
      embeddings_generated report = length fragments /\
      NoDup ids /\
      exists rows,
        db' = (filter (fun x => negb (existsb (String.eqb (id x)) ids)) db
               ++ rows)%list /\
        map id rows = ids /\
        map text rows = map stored_text fragments /\
        Forall (fun r => VectorStore.filename r = filename) rows /\
        map (fun r => Returned (embedding r)) rows = map generateEmbedding fragments
  end.
Proof.
  destruct (upload_pdf generateEmbedding approximate_page stored_text now texts
              filename chunkSize chunkOverlap db) as [[report | e] db'] eqn:E.
  - destruct (upload_pdf_body report db' E)
      as (H1 & H2 & rows & H3 & H4 & H5 & H6 & H7 & _).
    split; [exact H1 | split; [exact H2 | split; [apply chunk_ids_distinct|]]].
    exists rows. repeat split; try assumption.
    rewrite Forall_forall. intros r Hr.
    apply (in_map VectorStore.filename) in Hr. rewrite H6 in Hr.
    apply in_map_iff in Hr. now destruct Hr as [? [? _]].
  - unfold upload_pdf, processPDFDocument, generateChunkEmbeddings in E.
    fold fragments in E.
    destruct (embed_from _ _ _ _ _) as [chunks | e'] eqn:Ee; [discriminate|].
    injection E as <- <-. split; [reflexivity|].
    apply embed_from_thrown in Ee. destruct Ee as [m [Hm He]].
    exists (m_text m). split; [|exact He].
    apply (in_map m_text) in Hm.
    now rewrite (proj1 (mapChunksToPages_maps approximate_page _ fragments)) in Hm.
Qed.

(** X29. The offsets stored by an upload are running totals of the
    lengths of the fragments: the row of the fragment at index [i] has as
    end offset the total length of the fragments up to it, and as start
    offset the total length of the fragments before it, except for the
    first fragment, whose start offset 0 is stored as [NULL] (the batch
    writes [charStart || null]). *)
Theorem upload_pdf_offsets :
  match upload_pdf generateEmbedding approximate_page stored_text now texts filename
          chunkSize chunkOverlap db with
  | (Failed _, _) => True
  | (Body _, db') =>
      forall i c,
        nth_error fragments i = Some c ->
        exists r,
          In r db' /\ id r = chunk_id filename i /\ text r = stored_text c /\
          char_start r =
            (if (i =? 0)%nat then None
             else Some (len (concat (firstn i fragments)))) /\
          char_end r = Some (len (concat (firstn (S i) fragments)))
  end.
Proof.
  destruct (upload_pdf generateEmbedding approximate_page stored_text now texts
              filename chunkSize chunkOverlap db) as [[report | e] db'] eqn:E;
    [|exact I].
  destruct (upload_pdf_body report db' E)
    as (_ & _ & rows & H3 & H4 & H5 & _ & _ & H8 & H9).
  intros i c Hc.
  assert (Hall : forall d, In d fragments -> 0 < len d)
    by (intros d Hd; eapply fragment_not_empty; exact Hd).
  assert (Hi : (i < length rows)%nat).
  { rewrite <- (length_map id rows), H4. unfold ids. rewrite length_map, length_seq.
    apply nth_error_Some. congruence. }
  destruct (nth_error rows i) as [r |] eqn:Hr; [|now apply nth_error_None in Hr; lia].
  exists r.
  assert (Hstart : nth_error (starts_from 0 fragments) i =
                   Some (0 + len (concat (firstn i fragments))))
    by (eapply starts_from_nth; eauto).
  destruct (mapChunksToPages_maps approximate_page
              (extractTextFromPDFWithPages texts) fragments) as (M1 & M2 & _).
  cbv zeta in M1, M2.
  set (mapped := mapChunksToPages approximate_page fragments
                   (extractTextFromPDFWithPages texts)) in *.
  assert (Hpos : 0 < len c) by (eapply Hall, nth_error_In; exact Hc).
  assert (Hfirst : len (concat (firstn (S i) fragments)) =
                   len (concat (firstn i fragments)) + len c).
  { clear - Hc. revert i Hc. induction fragments as [| d l IH]; intros i Hc;
      [now destruct i|].
    destruct i as [| i]; cbn [nth_error] in Hc.
    - injection Hc as ->. cbn [firstn concat]. unfold len.
      rewrite app_nil_r. cbn [length]. lia.
    - specialize (IH i Hc). change (firstn (S (S i)) (d :: l)) with (d :: firstn (S i) l).
      change (firstn (S i) (d :: l)) with (d :: firstn i l).
      cbn [concat]. unfold len in *. rewrite !length_app. lia. }
  split; [rewrite H3; apply in_or_app; right; eapply nth_error_In; eauto|].
  split; [|split; [|split]].
  - apply (map_nth_error id) in Hr. rewrite H4 in Hr. unfold ids in Hr.
    rewrite nth_error_map, nth_error_seq in Hr.
    destruct (i <? length fragments)%nat; cbn in Hr; [now injection Hr | discriminate].
  - apply (map_nth_error text) in Hr. rewrite H5 in Hr.
    rewrite (map_nth_error stored_text _ _ Hc) in Hr. now injection Hr.
  - pose proof (map_nth_error char_start _ _ Hr) as Hr1. rewrite H8 in Hr1.
    rewrite (map_nth_error (fun z => or_null (Some z)) _ _ Hstart) in Hr1.
    injection Hr1 as Hr1. rewrite <- Hr1. clear Hr1.
    destruct i as [| i]; [reflexivity|]. cbn [Nat.eqb].
    assert (0 < len (concat (firstn (S i) fragments))).
    { clear - Hall Hc. destruct fragments as [| d l]; [discriminate|].
      assert (0 < len d) by (apply Hall; now left).
      cbn [firstn concat]. unfold len in *. rewrite length_app. lia. }
    rewrite ?Z.add_0_l. unfold or_null.
    destruct (len (concat (firstn (S i) fragments))) eqn:Ez; try lia; reflexivity.
  - assert (Hm : exists m, nth_error mapped i = Some m /\ m_text m = c /\
                           m_charStart m = 0 + len (concat (firstn i fragments))).
    { destruct (nth_error mapped i) as [m |] eqn:Hm.
      - exists m. split; [reflexivity|].
        pose proof (map_nth_error m_text _ _ Hm) as T. rewrite M1, Hc in T.
        pose proof (map_nth_error m_charStart _ _ Hm) as S0. rewrite M2, Hstart in S0.
        split; [now injection T | now injection S0].
      - apply nth_error_None in Hm.
        assert (length mapped = length fragments)
          by (rewrite <- (length_map m_text mapped); now rewrite M1).
        assert (i < length fragments)%nat by (apply nth_error_Some; congruence). lia. }
    destruct Hm as [m (Hm & Ht & Hs)].
    pose proof (map_nth_error char_end _ _ Hr) as Hr1. rewrite H9 in Hr1.
    rewrite (map_nth_error
               (fun m => or_null (Some (m_charStart m + len (m_text m)))) _ _ Hm)
      in Hr1.
    injection Hr1 as Hr1. rewrite <- Hr1, Ht, Hs, Hfirst, Z.add_0_l.
    destruct (len (concat (firstn i fragments)) + len c) eqn:Ez; try reflexivity.
    unfold len in *. lia.
Qed.

(** X30. Uploading a document and then deleting it restores the table:
    when no row of the table belongs to the file or carries one of the ids
    of the upload, [deleteByFilename] after a successful upload answers the
    number of chunks that the upload reported and leaves the table as it
    was before the upload. *)
Theorem upload_then_delete :
  (forall x, In x db ->
     VectorStore.filename x <> filename /\ forall i, id x <> chunk_id filename i) ->
  match upload_pdf generateEmbedding approximate_page stored_text now texts filename
          chunkSize chunkOverlap db with
  | (Failed _, db') => db' = db
  | (Body report, db') => deleteByFilename filename db' = (report_chunks report, db)
  end.
Proof.
  intros Hdb.
  destruct (upload_pdf generateEmbedding approximate_page stored_text now texts
              filename chunkSize chunkOverlap db) as [[report | e] db'] eqn:E.
  - destruct (upload_pdf_body report db' E)
      as (H1 & _ & rows & H3 & H4 & _ & H6 & _).
    assert (Hkept : filter (fun x => negb (existsb (String.eqb (id x)) ids)) db = db).
    { apply filter_all_in. intros x Hx. destruct (Hdb x Hx) as [_ Hid].
      apply negb_true_iff. apply not_true_iff_false. intros Hex.
      apply existsb_exists in Hex. destruct Hex as [j [Hj Heq]].
      apply String.eqb_eq in Heq. unfold ids in Hj. apply in_map_iff in Hj.
      destruct Hj as [i [<- _]]. now apply (Hid i). }
    rewrite Hkept in H3. subst db'. unfold deleteByFilename. rewrite !filter_app.
    assert (Hrows : forall r, In r rows -> VectorStore.filename r = filename).
    { intros r Hr. apply (in_map VectorStore.filename) in Hr. rewrite H6 in Hr.
      apply in_map_iff in Hr. now destruct Hr as [? [? _]]. }
    rewrite (filter_none_in _ db), (filter_all_in _ rows).
    + rewrite (filter_all_in _ db), (filter_none_in _ rows).
      * cbn [app length]. rewrite app_nil_r. f_equal.
        rewrite H1, <- (length_map id rows), H4. unfold ids.
        now rewrite length_map, length_seq.
      * intros r Hr. rewrite (Hrows r Hr), String.eqb_refl. reflexivity.
      * intros x Hx. destruct (Hdb x Hx) as [Hf _].
        apply negb_true_iff. now apply String.eqb_neq.
    + intros r Hr. rewrite (Hrows r Hr). apply String.eqb_refl.
    + intros x Hx. destruct (Hdb x Hx) as [Hf _]. now apply String.eqb_neq.
  - unfold upload_pdf in E. destruct (processPDFDocument _ _ _ _ _ _ _) in E;
      [discriminate|]. now injection E.
Qed.

End Upload.

Lemma upload_then_delete_witness :
  let db := [sample_row "x" "other.pdf" [1%float]] in
  let texts := [lit "A first sentence of the page, long enough to be kept."] in
  let upload :=
    upload_pdf (fun _ => Returned [1%float]) (fun _ _ _ => 1) (fun _ => "text"%string)
      7 texts "a.pdf" 1000 1 db in
  (forall x, In x db ->
     VectorStore.filename x <> "a.pdf"%string /\
     forall i, id x <> chunk_id "a.pdf" i) /\
  (exists report, fst upload = Body report /\ report_chunks report = 1%nat) /\
  deleteByFilename "a.pdf" (snd upload) = (1%nat, db).
Proof.
  intros db texts upload.
  assert (H : forall x, In x db ->
                VectorStore.filename x <> "a.pdf"%string /\
                forall i, id x <> chunk_id "a.pdf" i).
  { intros x [<- | []]. split; [discriminate|]. intros i. discriminate. }
  split; [exact H|].
  pose proof (upload_then_delete (fun _ => Returned [1%float]) (fun _ _ _ => 1)
                (fun _ => "text"%string) 7 texts "a.pdf" 1000 1 db H) as P.
  fold upload in P. destruct upload as [[report | e] db'] eqn:E.
  - vm_compute in E. injection E as <- <-. split; [|exact P].
    eexists. split; reflexivity.
  - vm_compute in E. discriminate.
Defined.

End IngestionFacts.
